(** * arMa: a shallow embedding of the segmented downloader

    The development follows [arMa.py]: the path helpers and
    [ensure_unique_filename], [download_file], the retry loops of
    [download_segment] and [retry_request], the orchestration and cleanup
    of [download_and_merge_segments] and [download_dash], the dispatch of
    [main], [download_subtitles], [select_variant_playlist] and the loops
    of [parse_dash_mpd].

    Modelling conventions.
    - The file system is a finite map from path names to file contents
      (regular files only: [os.makedirs] creates directories, which are not
      tracked, so it leaves the map unchanged).
    - The network, the muxer subprocess and the completion order of the
      thread pool are inputs of the model (oracles), never fixed.
    - Python [str] values are [string]s; byte strings are [list byte];
      integers that the code only counts with are [nat], header values and
      exit codes are [Z]. *)

From Stdlib Require Import ZArith Lia Ascii String.
From stdpp Require Import gmap strings list fin_maps pretty sorting.

Open Scope string_scope.
Open Scope nat_scope.
Open Scope list_scope.

Abbreviation bytes := (list Byte.byte).
Abbreviation FS := (gmap string bytes).

(** ** [os.path] (POSIX flavour) *)

Module Path.

Definition sep : ascii := "/"%char.

Definition startswith_sep (s : string) : bool :=
  match s with
  | String c _ => bool_decide (c = sep)
  | EmptyString => false
  end.

Fixpoint endswith_sep (s : string) : bool :=
  match s with
  | EmptyString => false
  | String c EmptyString => bool_decide (c = sep)
  | String _ rest => endswith_sep rest
  end.

(** [posixpath.join a b]: an absolute [b] (or an empty [a]) discards [a];
    a separator is inserted unless [a] already ends with one. *)
Definition join (a b : string) : string :=
  if startswith_sep b || bool_decide (a = "") then b
  else if endswith_sep a then a +:+ b
  else a +:+ String sep b.

(** [os.path.exists] on the tracked files. *)
Definition exists_ (fs : FS) (p : string) : bool :=
  bool_decide (is_Some (fs !! p)).

(** [os.path.getsize]; only called by the program on existing paths. *)
Definition getsize (fs : FS) (p : string) : nat :=
  match fs !! p with
  | Some content => length content
  | None => 0
  end.

End Path.

(** ** Constants of the program *)

Definition HEADERS : gmap string string := {[ "User-Agent" := "Mozilla/5.0" ]}.
Definition MAX_RETRIES : nat := 5.
Definition RETRY_BACKOFF : nat := 2.

(** ** [ensure_unique_filename] *)

(** The candidate tried in round [counter] of the loop:
    [os.path.join(directory, f"{base_name}_{counter}{extension}")]. *)
Definition suffixed (directory base_name extension : string) (counter : nat) : string :=
  Path.join directory (base_name +:+ "_" +:+ pretty counter +:+ extension).

(** The [while os.path.exists(candidate)] loop; each round spends one unit
    of [fuel]. [None] means the fuel ran out before the loop stopped. *)
Fixpoint ensure_unique_loop (fuel : nat) (fs : FS)
    (directory base_name extension candidate : string) (counter : nat) : option string :=
  if Path.exists_ fs candidate then
    match fuel with
    | O => None
    | S fuel' =>
        ensure_unique_loop fuel' fs directory base_name extension
          (suffixed directory base_name extension counter) (S counter)
    end
  else Some candidate.

(** The function, run with the number of tracked files plus one as fuel;
    [ensure_unique_filename_total] shows that this is always enough and
    [ensure_unique_loop_fuel] that more fuel changes nothing. *)
Definition ensure_unique_filename (fs : FS) (directory filename extension : string)
    : option string :=
  ensure_unique_loop (S (size fs)) fs directory filename extension
    (Path.join directory (filename +:+ extension)) 1.

(** ** [download_file]: what is decided before the transfer starts *)

(** The mode a file is opened with. *)
Inductive OpenMode := ModeAB | ModeWB | ModeW.

(** Python's [sub in s] on strings. *)
Definition contains (sub s : string) : bool :=
  match String.index 0 sub s with
  | Some _ => true
  | None => false
  end.

(** The answer to the [HEAD] request, as far as the code reads it. *)
Record HeadResponse := {
  head_content_type : option string;
  head_content_length : option Z
}.

(** The extension: the one of the URL path ([url_ext], the result of
    [os.path.splitext(urlparse(url).path)[1]]), else guessed from a video
    content type, else [.bin]. *)
Definition choose_extension (url_ext : string) (head : HeadResponse) : string :=
  let content_type := default "" (head_content_type head) in
  let ext := url_ext in
  let ext :=
    if bool_decide (ext = "") && contains "video" content_type then
      if contains "mp4" content_type then ".mp4"
      else if contains "mpeg" content_type then ".mpeg"
      else if contains "ts" content_type then ".ts"
      else if contains "webm" content_type then ".webm"
      else if contains "ogg" content_type then ".ogg"
      else ext
    else ext in
  if bool_decide (ext = "") then ".bin" else ext.

(** The value of the [Range] header for a resume from [downloaded]. *)
Definition range_from (downloaded : nat) : string :=
  "bytes=" +:+ pretty downloaded +:+ "-".

(** Everything [download_file] fixes before it opens the connection: the
    destination, the open mode, the byte count the progress bar starts at,
    the request headers and the expected total. *)
Record FilePlan := {
  full_path : string;
  mode : OpenMode;
  downloaded : nat;
  headers : gmap string string;
  total_size : option Z
}.

Definition download_file (fs : FS) (url_ext : string) (head : HeadResponse)
    (directory filename : string) (resume : bool) : option FilePlan :=
  let ext := choose_extension url_ext head in
  full_path ← ensure_unique_filename fs directory filename ext;
  let mode := if resume && Path.exists_ fs full_path then ModeAB else ModeWB in
  let downloaded :=
    match mode with ModeAB => Path.getsize fs full_path | _ => 0 end in
  let headers :=
    match mode with
    | ModeAB => <["Range" := range_from downloaded]> HEADERS
    | _ => HEADERS
    end in
  let total_size :=
    match head_content_length head with
    | Some n => Some (n + Z.of_nat downloaded)%Z
    | None => None
    end in
  Some {| full_path := full_path; mode := mode; downloaded := downloaded;
          headers := headers; total_size := total_size |}.

(** ** Effects

    The program's effects are recorded as a trace of events: requests sent,
    files opened, written, renamed and removed, progress bars created and
    advanced, messages printed, pauses, the muxer command with its exit
    code, and what is asked of the thread pool (its creation with a size,
    the submission of a job, its shutdown). [fs_step] gives the meaning of
    the events that touch files. File system calls on existing files are
    taken to succeed (no full disk, no permission error). *)

Inductive Event :=
| EvRequest (url : string) (headers : gmap string string)
| EvOpen (path : string) (mode : OpenMode)
| EvProgress (desc : string) (total : option Z) (initial : nat)
| EvWrite (path : string) (chunk : bytes)
| EvUpdate (n : nat)
| EvRename (src dst : string)
| EvRemove (path : string)
| EvPrint (msg : string)
| EvSleep (seconds : nat)
| EvRun (cmd : list string) (returncode : Z)
| EvPool (max_workers : Z)
| EvSubmit (idx : nat) (url : string)
| EvShutdown (wait cancel_futures : bool).

(** [open(path, 'ab')] creates a missing file and keeps an existing one;
    the writing modes truncate. A write appends at the end of the open
    file. [os.rename] moves the content and replaces the destination;
    [os.remove] deletes. The program renames and removes existing files
    only (see [os_remove] for the check). *)
Definition fs_step (fs : FS) (ev : Event) : FS :=
  match ev with
  | EvOpen p ModeAB =>
      match fs !! p with
      | Some _ => fs
      | None => <[p := []]> fs
      end
  | EvOpen p _ => <[p := []]> fs
  | EvWrite p chunk => <[p := default [] (fs !! p) ++ chunk]> fs
  | EvRename src dst =>
      match fs !! src with
      | Some content => <[dst := content]> (delete src fs)
      | None => fs
      end
  | EvRemove p => delete p fs
  | _ => fs
  end.

Definition fs_run (fs : FS) (trace : list Event) : FS :=
  foldl fs_step fs trace.

(** Exceptions, with the text [str(e)] gives. *)
Inductive Exn :=
| RequestError (text : string)
| RuntimeError (text : string)
| ValueError (text : string)
| FileNotFoundError (path : string).

Definition exn_str (e : Exn) : string :=
  match e with
  | RequestError text | RuntimeError text | ValueError text => text
  | FileNotFoundError path =>
      "[Errno 2] No such file or directory: '" +:+ path +:+ "'"
  end.

Inductive result (A : Type) :=
| Returns (a : A)
| Raises (e : Exn).
Arguments Returns {A} a.
Arguments Raises {A} e.

(** ** The network

    What a [requests.get(..., stream=True)] call can do: raise, or return a
    response whose body is then read chunk by chunk and may break off.
    [content_length] is the [Content-Length] header as [int] reads it, when
    the header is there. [GetRaises] also stands for an answer that makes
    the code raise before it opens the file for another reason than its
    status (a [Content-Length] that is not a number). *)
Record Response := {
  status_code : nat;
  reason : string;
  content_length : option Z;
  chunks : list bytes;
  stream_error : option string
}.

Inductive Attempt :=
| GetRaises (text : string)
| GetReturns (r : Response).

(** [Response.raise_for_status]. *)
Definition raise_for_status (url : string) (r : Response) : option string :=
  let code := status_code r in
  if (400 <=? code) && (code <? 500) then
    Some (pretty code +:+ " Client Error: " +:+ reason r +:+ " for url: " +:+ url)
  else if (500 <=? code) && (code <? 600) then
    Some (pretty code +:+ " Server Error: " +:+ reason r +:+ " for url: " +:+ url)
  else None.

(** ** [download_segment] *)

Definition segment_name (idx : nat) : string := "segment_" +:+ pretty idx +:+ ".ts".

Definition local_filename (directory : string) (idx : nat) : string :=
  Path.join directory (segment_name idx).

Definition temp_filename (directory : string) (idx : nat) : string :=
  local_filename directory idx +:+ ".part".

(** The body of [for chunk in r.iter_content(...)]: empty chunks are
    skipped, the others are written and counted. *)
Definition write_chunks (path : string) (cs : list bytes) : list Event :=
  c ← cs; if bool_decide (c = []) then [] else [EvWrite path c; EvUpdate (length c)].

(** One pass through the [try] block, up to but excluding the rename:
    the events, and the text of the exception if one was raised. *)
Definition try_fetch (url temp : string) (headers : gmap string string)
    (downloaded idx total : nat) (a : Attempt) : list Event * option string :=
  match a with
  | GetRaises text => ([EvRequest url headers], Some text)
  | GetReturns r =>
      match raise_for_status url r with
      | Some text => ([EvRequest url headers], Some text)
      | None =>
          let total_size := (λ n, n + Z.of_nat downloaded)%Z <$> content_length r in
          ([EvRequest url headers;
            EvOpen temp ModeAB;
            EvProgress ("Segment " +:+ pretty idx +:+ "/" +:+ pretty total)
                       total_size downloaded]
           ++ write_chunks temp (chunks r),
           stream_error r)
      end
  end.

(** The [for attempt in range(1, retries+1)] loop, entered at [attempt]
    with [n] rounds to go, and the [raise] after it. *)
Fixpoint retry_loop (net : nat → Attempt) (url temp local : string)
    (headers : gmap string string) (downloaded idx total retries : nat)
    (attempt n : nat) : list Event * result string :=
  match n with
  | O =>
      ([], Raises (RuntimeError
             ("Failed to download segment " +:+ pretty idx +:+ " after "
              +:+ pretty retries +:+ " retries.")))
  | S n' =>
      let '(evs, exc) := try_fetch url temp headers downloaded idx total (net attempt) in
      match exc with
      | None => (evs ++ [EvRename temp local], Returns local)
      | Some text =>
          let '(rest, res) :=
            retry_loop net url temp local headers downloaded idx total retries
                       (S attempt) n' in
          (evs ++ [EvPrint ("[!] Segment " +:+ pretty idx +:+ " download attempt "
                            +:+ pretty attempt +:+ " failed: " +:+ text);
                   EvSleep (RETRY_BACKOFF ^ attempt)] ++ rest,
           res)
      end
  end.

(** The bytes found in the temporary file when the function starts. *)
Definition already_downloaded (fs : FS) (directory : string) (idx : nat) : nat :=
  if Path.exists_ fs (temp_filename directory idx)
  then Path.getsize fs (temp_filename directory idx) else 0.

(** The request headers, computed once before the loop. *)
Definition segment_headers (downloaded : nat) : gmap string string :=
  if 0 <? downloaded then <["Range" := range_from downloaded]> HEADERS else HEADERS.

Definition download_segment (fs : FS) (net : nat → Attempt) (url directory : string)
    (idx total retries : nat) : list Event * result string :=
  let local := local_filename directory idx in
  let temp := temp_filename directory idx in
  let downloaded := already_downloaded fs directory idx in
  let headers := segment_headers downloaded in
  retry_loop net url temp local headers downloaded idx total retries 1 retries.

(** ** Vocabulary for traces *)

(** The events [download_segment] may produce for a segment whose
    temporary and final files are [temp] and [local]: it opens [temp] for
    appending, writes to [temp], renames [temp] to [local], and never
    removes a file, runs a command or talks to the thread pool. *)
Definition segment_event (temp local : string) (ev : Event) : Prop :=
  match ev with
  | EvOpen p m => p = temp ∧ m = ModeAB
  | EvWrite p _ => p = temp
  | EvRename src dst => src = temp ∧ dst = local
  | EvRemove _ | EvRun _ _ | EvPool _ | EvSubmit _ _ | EvShutdown _ _ => False
  | _ => True
  end.

Definition is_rename (ev : Event) : bool :=
  match ev with EvRename _ _ => true | _ => false end.

(** The bytes a trace writes, in order. *)
Definition written (trace : list Event) : bytes :=
  ev ← trace; match ev with EvWrite _ chunk => chunk | _ => [] end.

(** The pauses a trace makes, in order. *)
Definition sleeps (trace : list Event) : list nat :=
  ev ← trace; match ev with EvSleep s => [s] | _ => [] end.

(** The sizes of the thread pools a trace builds, in order. *)
Definition pools (trace : list Event) : list Z :=
  ev ← trace; match ev with EvPool max_workers => [max_workers] | _ => [] end.

(** The content of a file, empty when the file is missing. *)
Definition content (fs : FS) (p : string) : bytes := default [] (fs !! p).

(** The exception, if any, that an answer makes the [try] block raise:
    the request fails, the status is an error, or the body breaks off. *)
Definition attempt_error (url : string) (a : Attempt) : option string :=
  match a with
  | GetRaises text => Some text
  | GetReturns r =>
      match raise_for_status url r with
      | Some text => Some text
      | None => stream_error r
      end
  end.

(** The URLs a trace sends requests to, in order, and their number. *)
Definition requested (trace : list Event) : list string :=
  ev ← trace; match ev with EvRequest url _ => [url] | _ => [] end.

Definition requests (trace : list Event) : nat := length (requested trace).

(** An event of some segment job of the directory. *)
Definition job_event (directory : string) (ev : Event) : Prop :=
  ∃ idx, segment_event (temp_filename directory idx) (local_filename directory idx) ev.

(** The chunks a trace writes to one file, in order. *)
Definition written_to (path : string) (trace : list Event) : list bytes :=
  ev ← trace;
  match ev with
  | EvWrite p chunk => if decide (p = path) then [chunk] else []
  | _ => []
  end.

(** The paths an event can change. *)
Definition touched (ev : Event) : list string :=
  match ev with
  | EvOpen p _ | EvWrite p _ | EvRemove p => [p]
  | EvRename src dst => [src; dst]
  | _ => []
  end.

(** ** The orchestrator

    [download_and_merge_segments] and [download_dash] are the same code up
    to their messages and to where the pool size comes from; [fetch_and_merge]
    is that code.

    The thread pool is modelled by what the program asks of it (create,
    submit, shut down) and by one linearisation of what it does: the jobs
    run one after the other in the order in which they complete, which is an
    input. Jobs touch disjoint files, so the file system they leave does not
    depend on how they interleave. The pool is [concurrent.futures]'s:
    its constructor raises [ValueError] for a size below 1, and leaving the
    [with] block calls [shutdown(wait=True)], which cancels nothing and lets
    every queued job run to its end. *)

(** The external muxer: it cannot be started, or it exits with a code,
    having written the output file or not. *)
Inductive Muxer :=
| MuxMissing
| MuxExits (returncode : Z) (output : option bytes).

Record Env := {
  abspath : string → string;
  net : nat → nat → Attempt;
  completion : list (nat * string);
  muxer : Muxer
}.

(** How a call ends: it returns, the process exits, or an exception
    escapes. *)
Inductive Outcome :=
| Finished
| SystemExit (code : Z)
| Uncaught (e : Exn).

Record Labels := {
  msg_start : nat → Z → string;
  msg_failed : nat → string → string;
  msg_merging : string;
  msg_saved : string → string
}.

(** [{executor.submit(download_segment, uri, directory, i+1, total): i+1
      for i, uri in enumerate(segments)}]. *)
Definition jobs (segments : list string) : list (nat * string) :=
  imap (λ i uri, (i + 1, uri)) segments.

Definition run_job (env : Env) (directory : string) (total : nat) (fs : FS)
    (job : nat * string) : list Event * result string :=
  download_segment fs (net env job.1) job.2 directory job.1 total MAX_RETRIES.

(** The [for future in as_completed(futures)] loop. It ends with the list
    of segment files, or at the first failed job with the jobs that have
    not completed yet. *)
Fixpoint as_completed (lbl : Labels) (env : Env) (directory : string) (total : nat)
    (fs : FS) (queue : list (nat * string)) (segment_files : list string)
    : list Event * (list string + list (nat * string)) :=
  match queue with
  | [] => ([], inl segment_files)
  | job :: rest =>
      let '(tr, res) := run_job env directory total fs job in
      match res with
      | Returns segment_file =>
          let '(tr', r) :=
            as_completed lbl env directory total (fs_run fs tr) rest
                         (segment_files ++ [segment_file]) in
          (tr ++ tr', r)
      | Raises e =>
          (tr ++ [EvPrint (msg_failed lbl job.1 (exn_str e))], inr rest)
      end
  end.

(** The jobs that run while the pool shuts down. *)
Fixpoint drain (env : Env) (directory : string) (total : nat)
    (fs : FS) (queue : list (nat * string)) : list Event :=
  match queue with
  | [] => []
  | job :: rest =>
      let tr := (run_job env directory total fs job).1 in
      tr ++ drain env directory total (fs_run fs tr) rest
  end.

(** Python's [sorted] on strings: ascending code point order. *)
Definition sorted (l : list string) : list string := merge_sort String.le l.

Definition newline : string := String "010"%char "".

(** One line of the concat manifest. *)
Definition manifest_line (env : Env) (seg_file : string) : bytes :=
  String.list_byte_of_string ("file '" +:+ abspath env seg_file +:+ "'" +:+ newline).

Definition write_manifest (env : Env) (concat_file : string)
    (segment_files : list string) : list Event :=
  EvOpen concat_file ModeW
  :: (EvWrite concat_file <$> (manifest_line env <$> sorted segment_files)).

(** [os.remove] on each path in turn; a missing path raises. *)
Fixpoint remove_all (fs : FS) (paths : list string) : list Event * option Exn :=
  match paths with
  | [] => ([], None)
  | p :: rest =>
      if Path.exists_ fs p then
        let '(tr, e) := remove_all (delete p fs) rest in (EvRemove p :: tr, e)
      else ([], Some (FileNotFoundError p))
  end.

Definition ffmpeg_cmd (concat_file mp4_file : string) : list string :=
  ["ffmpeg"; "-y"; "-f"; "concat"; "-safe"; "0"; "-i"; concat_file;
   "-c"; "copy"; mp4_file].

(** The merge and the cleanup, from the concat manifest on. *)
Definition merge_and_cleanup (lbl : Labels) (env : Env) (fs : FS)
    (directory filename : string) (segment_files : list string)
    : option (list Event * Outcome) :=
  let concat_file := Path.join directory (filename +:+ "_concat.txt") in
  let tr_manifest := write_manifest env concat_file segment_files in
  let fs := fs_run fs tr_manifest in
  mp4_file ← ensure_unique_filename fs directory filename ".mp4";
  let tr_merging := [EvPrint (msg_merging lbl)] in
  match muxer env with
  | MuxMissing =>
      Some (tr_manifest ++ tr_merging, Uncaught (FileNotFoundError "ffmpeg"))
  | MuxExits returncode output =>
      let tr_mux :=
        EvRun (ffmpeg_cmd concat_file mp4_file) returncode
        :: match output with
           | Some b => [EvOpen mp4_file ModeWB; EvWrite mp4_file b]
           | None => []
           end
        ++ [EvPrint (msg_saved lbl mp4_file)] in
      let fs := fs_run fs tr_mux in
      let '(tr_cleanup, exc) := remove_all fs (segment_files ++ [concat_file]) in
      Some (tr_manifest ++ tr_merging ++ tr_mux ++ tr_cleanup,
            match exc with Some e => Uncaught e | None => Finished end)
  end.

Definition fetch_and_merge (lbl : Labels) (env : Env) (fs : FS)
    (segments : list string) (directory filename : string) (max_workers : Z)
    : option (list Event * Outcome) :=
  let total := length segments in
  let tr_start := [EvPrint (msg_start lbl total max_workers)] in
  if (max_workers <=? 0)%Z then
    Some (tr_start, Uncaught (ValueError "max_workers must be greater than 0"))
  else
    let tr_submit := EvPool max_workers :: (uncurry EvSubmit <$> jobs segments) in
    let '(tr_loop, r) :=
      as_completed lbl env directory total fs (completion env) [] in
    let tr_pool := tr_start ++ tr_submit ++ tr_loop ++ [EvShutdown true false] in
    match r with
    | inr queue =>
        Some (tr_pool ++ drain env directory total (fs_run fs tr_pool) queue,
              SystemExit 1)
    | inl segment_files =>
        '(tr_merge, outcome) ←
          merge_and_cleanup lbl env (fs_run fs tr_pool) directory filename
                            segment_files;
        Some (tr_pool ++ tr_merge, outcome)
    end.

Definition hls_labels : Labels := {|
  msg_start total parallel :=
    "[+] Starting parallel download of " +:+ pretty total +:+ " segments with "
    +:+ pretty parallel +:+ " workers";
  msg_failed idx e :=
    "[!] Segment " +:+ pretty idx +:+ " failed to download: " +:+ e;
  msg_merging := "[+] Merging segments into MP4...";
  msg_saved mp4_file := "[✔] Saved merged video as: " +:+ mp4_file
|}.

Definition dash_labels : Labels := {|
  msg_start total _ := "[+] Downloading " +:+ pretty total +:+ " DASH segments";
  msg_failed idx e := "[!] DASH segment " +:+ pretty idx +:+ " failed: " +:+ e;
  msg_merging := "[+] Merging DASH segments into MP4...";
  msg_saved mp4_file := "[✔] Saved merged DASH video as: " +:+ mp4_file
|}.

Definition download_and_merge_segments (env : Env) (fs : FS) (segments : list string)
    (directory filename : string) (parallel : Z) : option (list Event * Outcome) :=
  fetch_and_merge hls_labels env fs segments directory filename parallel.

(** [segments] is what [parse_dash_mpd] returned; the pool size is the
    literal [4]. *)
Definition download_dash (env : Env) (fs : FS) (segments : list string)
    (directory filename : string) : option (list Event * Outcome) :=
  fetch_and_merge dash_labels env fs segments directory filename 4.

(** ** [main] *)

Record Args := {
  arg_url : string;
  arg_name : option string;
  arg_dir : string;
  arg_parallel : Z
}.

(** [parser.parse_args()]: [--url] is required, the others have defaults. *)
Definition parse_args (url : string) (name dir : option string) (parallel : option Z)
    : Args :=
  {| arg_url := url;
     arg_name := name;
     arg_dir := default "downloads" dir;
     arg_parallel := default 4%Z parallel |}.

(** Which downloader [main] calls, and with what. On the HLS branch
    [download_subtitles] runs first. *)
Inductive Call :=
| CallDownloadDash (url directory filename : string)
| CallSubtitlesThenSegments (directory filename : string) (parallel : Z)
| CallDownloadFile (url directory filename : string).

(** [is_mpd] and [is_m3u8] are the verdicts of [is_mpd_url] and
    [is_m3u8_url], [url_filename] is [get_filename_from_url(args.url)]. *)
Definition main (is_mpd is_m3u8 : bool) (url_filename : string) (args : Args) : Call :=
  let filename :=
    match arg_name args with
    | Some name => if bool_decide (name = "") then url_filename else name
    | None => url_filename
    end in
  if is_mpd then CallDownloadDash (arg_url args) (arg_dir args) filename
  else if is_m3u8 then
    CallSubtitlesThenSegments (arg_dir args) filename (arg_parallel args)
  else CallDownloadFile (arg_url args) (arg_dir args) filename.

(** ** Sample inputs

    A directory [d] in which segment 3 was interrupted after two bytes, and
    servers that answer every request the same way. *)

Definition partial_fs : FS := {[ "d/segment_3.ts.part" := [Byte.x41; Byte.x42] ]}.

(** A server that honours the range: [206] and the two missing bytes. *)
Definition range_server (k : nat) : Attempt :=
  GetReturns {| status_code := 206; reason := "Partial Content";
                content_length := Some 2%Z;
                chunks := [[Byte.x43; Byte.x44]];
                stream_error := None |}.

(** A server that ignores the range: [200] and the whole body. *)
Definition full_body : bytes := [Byte.x41; Byte.x42; Byte.x43; Byte.x44].

Definition plain_server (k : nat) : Attempt :=
  GetReturns {| status_code := 200; reason := "OK";
                content_length := Some 4%Z;
                chunks := [full_body];
                stream_error := None |}.

(** A server whose connection breaks after one byte, every time. *)
Definition flaky_server (k : nat) : Attempt :=
  GetReturns {| status_code := 200; reason := "OK";
                content_length := Some 4%Z;
                chunks := [[Byte.x43]];
                stream_error := Some "Connection broken" |}.

(** For runs of the orchestrator: segment [i] is at [http://cdn/i.ts];
    the good server sends one byte, the dead one refuses every connection. *)

Definition uris (n : nat) : list string :=
  (λ i, "http://cdn/" +:+ pretty i +:+ ".ts") <$> seq 1 n.

Definition good_answer : Attempt :=
  GetReturns {| status_code := 200; reason := "OK"; content_length := Some 1%Z;
                chunks := [[Byte.x47]]; stream_error := None |}.

Definition good_net (idx k : nat) : Attempt := good_answer.

(** Segment 1 cannot be fetched, the others can. *)
Definition first_dead_net (idx k : nat) : Attempt :=
  if bool_decide (idx = 1) then GetRaises "Connection refused" else good_answer.

(** Ten segments completing in index order, a muxer that succeeds. *)
Definition ten_env : Env :=
  {| abspath := Path.join "/home/user"; net := good_net;
     completion := jobs (uris 10); muxer := MuxExits 0 (Some [Byte.x4d]) |}.

(** Two segments, completing in reverse order, and a muxer that fails
    with exit code 1 without writing anything. *)
Definition mux_fails_env : Env :=
  {| abspath := Path.join "/home/user"; net := good_net;
     completion := reverse (jobs (uris 2)); muxer := MuxExits 1 None |}.

(** Three segments; the first one fails for good. *)
Definition first_dead_env : Env :=
  {| abspath := Path.join "/home/user"; net := first_dead_net;
     completion := jobs (uris 3); muxer := MuxExits 0 (Some [Byte.x4d]) |}.

(** The bytes one answer makes [download_segment] write: the chunks read
    before the body ends or breaks off, nothing when the request raises or
    the status is an error. *)
Definition received (url : string) (a : Attempt) : bytes :=
  match a with
  | GetRaises _ => []
  | GetReturns r =>
      match raise_for_status url r with
      | Some _ => []
      | None => concat (chunks r)
      end
  end.

(** A server whose first answer breaks off after the byte [C]; from then
    on it honours the range asked for and sends [C] and [D]. *)
Definition breaks_once_server (k : nat) : Attempt :=
  if bool_decide (k = 1) then flaky_server k else range_server k.

(** ** [retry_request]

    The request is made with [stream=False]: the body is read inside
    [requests.get], so an answer either raises there, has an error status,
    or is returned whole ([stream_error] is not looked at). *)

(** The exception one round raises, if any. *)
Definition request_error (url : string) (a : Attempt) : option string :=
  match a with
  | GetRaises text => Some text
  | GetReturns r => raise_for_status url r
  end.

(** The [for attempt in range(1, MAX_RETRIES + 1)] loop, entered at
    [attempt] with [n] rounds to go. The last round re-raises what it
    caught instead of sleeping; falling out of the loop returns [None]. *)
Fixpoint retry_request_loop (net : nat → Attempt) (url : string) (attempt n : nat)
    : list Event * result (option Response) :=
  match n with
  | O => ([], Returns None)
  | S n' =>
      let except text :=
        let failed :=
          [EvRequest url HEADERS;
           EvPrint ("[!] Attempt " +:+ pretty attempt +:+ " failed for " +:+ url
                    +:+ ": " +:+ text)] in
        if bool_decide (attempt = MAX_RETRIES) then
          (failed, Raises (RequestError text))
        else
          let '(rest, res) := retry_request_loop net url (S attempt) n' in
          (failed ++ [EvSleep (RETRY_BACKOFF ^ attempt)] ++ rest, res) in
      match net attempt with
      | GetRaises text => except text
      | GetReturns r =>
          match raise_for_status url r with
          | Some text => except text
          | None => ([EvRequest url HEADERS], Returns (Some r))
          end
      end
  end.

Definition retry_request (net : nat → Attempt) (url : string)
    : list Event * result (option Response) :=
  retry_request_loop net url 1 MAX_RETRIES.

(** A server that times out once and then answers. *)
Definition second_try_server (k : nat) : Attempt :=
  if bool_decide (k = 1) then GetRaises "Read timed out" else good_answer.

(** ** [download_file]: the transfer

    [download_file] above is what the function fixes first; this is the
    rest of it: one request, no look at the status, no retry. An exception
    of the request or of the reading escapes. *)
Definition download_file_transfer (fs : FS) (url url_ext : string) (head : HeadResponse)
    (directory filename : string) (resume : bool) (a : Attempt)
    : option (list Event * result string) :=
  plan ← download_file fs url_ext head directory filename resume;
  let start := EvPrint ("[+] Downloading file: " +:+ url) in
  Some
    match a with
    | GetRaises text =>
        ([start; EvRequest url (headers plan)], Raises (RequestError text))
    | GetReturns r =>
        let tr :=
          [start;
           EvRequest url (headers plan);
           EvOpen (full_path plan) (mode plan);
           EvProgress "" (total_size plan) (downloaded plan)]
          ++ write_chunks (full_path plan) (chunks r) in
        match stream_error r with
        | Some text => (tr, Raises (RequestError text))
        | None =>
            (tr ++ [EvPrint ("[✔] Saved file as: " +:+ full_path plan)],
             Returns (full_path plan))
        end
    end.

(** An answer with an error status and a body. *)
Definition not_found : Response :=
  {| status_code := 404; reason := "Not Found"; content_length := Some 3%Z;
     chunks := [[Byte.x34; Byte.x30]; [Byte.x34]]; stream_error := None |}.

(** ** Splitting names *)

(** [s.rsplit(c, 1)] when [c] occurs in [s]: what is before and what is
    after the last [c]; [None] when [c] does not occur. *)
Fixpoint rsplit1 (c : ascii) (s : string) : option (string * string) :=
  match s with
  | EmptyString => None
  | String a rest =>
      match rsplit1 c rest with
      | Some (before, after) => Some (String a before, after)
      | None => if decide (a = c) then Some ("", rest) else None
      end
  end.

(** [posixpath.basename]: what follows the last separator. *)
Definition basename (p : string) : string :=
  match rsplit1 Path.sep p with
  | Some (_, name) => name
  | None => p
  end.

Fixpoint all_dots (s : string) : bool :=
  match s with
  | EmptyString => true
  | String a rest => bool_decide (a = "."%char) && all_dots rest
  end.

(** [posixpath.splitext(p)[1]]: from the last dot of the last component
    on, unless only dots come before it there. *)
Definition splitext_ext (p : string) : string :=
  match rsplit1 "."%char (basename p) with
  | Some (lead, ext) => if all_dots lead then "" else String "." ext
  | None => ""
  end.

(** ** [download_subtitles] *)

(** An [EXT-X-MEDIA] entry of the playlist, as far as the code reads it;
    each attribute may be missing. *)
Record Media := {
  media_type : option string;
  media_uri : option string;
  media_language : option string
}.

(** How the function ends: it returns, or [os.path.splitext] is handed
    the [None] of a track without URI and its [TypeError] escapes. *)
Inductive SubtitlesOutcome :=
| SubtitlesDone
| SubtitlesTypeError.

(** [sub.language or f"sub{i}"]. *)
Definition subtitle_lang (sub : Media) (i : nat) : string :=
  match media_language sub with
  | Some lang => if bool_decide (lang = "") then "sub" +:+ pretty i else lang
  | None => "sub" +:+ pretty i
  end.

(** [os.path.splitext(uri)[1] or ".vtt"]. *)
Definition subtitle_ext (uri : string) : string :=
  if bool_decide (splitext_ext uri = "") then ".vtt" else splitext_ext uri.

(** The [try] block for one track: the request with its retries, then the
    file. Every exception is caught and printed. *)
Definition fetch_subtitle (subnet : nat → Attempt) (uri lang filename : string)
    : list Event :=
  let '(tr_request, res) := retry_request subnet uri in
  [EvPrint ("  - Downloading subtitle '" +:+ lang +:+ "' from " +:+ uri)]
  ++ tr_request
  ++ match res with
     | Returns (Some r) =>
         [EvOpen filename ModeWB;
          EvWrite filename (concat (chunks r));
          EvPrint ("    Saved as " +:+ filename)]
     | Returns None =>
         [EvPrint ("    Failed to download subtitle '" +:+ lang +:+ "': "
                   +:+ "'NoneType' object has no attribute 'content'")]
     | Raises e =>
         [EvPrint ("    Failed to download subtitle '" +:+ lang +:+ "': "
                   +:+ exn_str e)]
     end.

(** The [for i, sub in enumerate(subtitles, 1)] loop, entered at [i].
    [subnet i] is the network as the [i]-th track meets it. *)
Fixpoint subtitles_loop (subnet : nat → nat → Attempt) (directory : string)
    (fs : FS) (i : nat) (subtitles : list Media)
    : option (list Event * SubtitlesOutcome) :=
  match subtitles with
  | [] => Some ([], SubtitlesDone)
  | sub :: rest =>
      match media_uri sub with
      | None => Some ([], SubtitlesTypeError)
      | Some uri =>
          let lang := subtitle_lang sub i in
          filename ← ensure_unique_filename fs directory ("subtitle_" +:+ lang)
                                            (subtitle_ext uri);
          let tr := fetch_subtitle (subnet i) uri lang filename in
          '(tr_rest, outcome) ←
            subtitles_loop subnet directory (fs_run fs tr) (S i) rest;
          Some (tr ++ tr_rest, outcome)
      end
  end.

Definition is_subtitles (media : Media) : bool :=
  bool_decide (media_type media = Some "SUBTITLES").

Definition download_subtitles (subnet : nat → nat → Attempt) (fs : FS)
    (playlist_media : list Media) (directory : string)
    : option (list Event * SubtitlesOutcome) :=
  let subtitles := List.filter is_subtitles playlist_media in
  match subtitles with
  | [] => Some ([EvPrint "[+] No subtitles found."], SubtitlesDone)
  | _ =>
      '(tr, outcome) ← subtitles_loop subnet directory fs 1 subtitles;
      Some (EvPrint ("[+] Found " +:+ pretty (length subtitles)
                     +:+ " subtitle track(s). Downloading...") :: tr,
            outcome)
  end.

(** Whether the request for a track ends with an answer. *)
Definition subtitle_fetched (subnet : nat → Attempt) (uri : string) : bool :=
  match (retry_request subnet uri).2 with
  | Returns (Some _) => true
  | _ => false
  end.

(** The number of tracks, counted from [i] on, whose request ends with an
    answer. *)
Fixpoint subtitles_fetched (subnet : nat → nat → Attempt) (i : nat)
    (subtitles : list Media) : nat :=
  match subtitles with
  | [] => 0
  | sub :: rest =>
      (match media_uri sub with
       | Some uri => if subtitle_fetched (subnet i) uri then 1 else 0
       | None => 0
       end) + subtitles_fetched subnet (S i) rest
  end.

(** Three tracks: English and German from a good server, between them a
    French one that cannot be fetched; English and German share a name. *)
Definition sample_tracks : list Media :=
  [ {| media_type := Some "SUBTITLES"; media_uri := Some "http://cdn/sub/en.vtt";
       media_language := Some "en" |};
    {| media_type := Some "AUDIO"; media_uri := Some "http://cdn/audio.m3u8";
       media_language := Some "en" |};
    {| media_type := Some "SUBTITLES"; media_uri := Some "http://cdn/sub/fr.vtt";
       media_language := Some "fr" |};
    {| media_type := Some "SUBTITLES"; media_uri := Some "http://cdn/sub/en2";
       media_language := Some "en" |} ].

Definition second_dead_net (i k : nat) : Attempt :=
  if bool_decide (i = 2) then GetRaises "Connection refused" else good_answer.

(** ** [select_variant_playlist] *)

(** A variant of the master playlist, as far as the code reads it. *)
Record Variant := {
  bandwidth : option Z;
  resolution : option (Z * Z);
  absolute_uri : string
}.

(** What the function returns: the master playlist it was given, the
    playlist loaded from a variant's URI, or the exception of
    [m3u8.load] for that URI. *)
Inductive Selection :=
| KeepMaster
| Load (uri : string)
| LoadRaises (uri : string).

(** [v.stream_info.bandwidth or 0]. *)
Definition bandwidth_key (v : Variant) : Z := default 0%Z (bandwidth v).

(** [max(..., key=...)] with [best] the best so far: a later item
    replaces it only when its key is strictly greater. *)
Fixpoint max_by {A : Type} (key : A → Z) (best : A) (items : list A) : A :=
  match items with
  | [] => best
  | item :: rest => max_by key (if (key best <? key item)%Z then item else best) rest
  end.

(** The line printed for variant number [i]. *)
Definition variant_line (i : nat) (v : Variant) : string :=
  "  " +:+ pretty i +:+ ". Bandwidth: "
  +:+ match bandwidth v with Some bw => pretty bw | None => "None" end
  +:+ " bps, Resolution: "
  +:+ match resolution v with
      | Some (w, h) => pretty w +:+ "x" +:+ pretty h
      | None => "Unknown"
      end.

(** [choice] is what the user typed, [parse_int] is [int] ([None] where it
    raises [ValueError]) and [loads] tells whether [m3u8.load] of a URI
    succeeds. *)
Definition select_variant_playlist (parse_int : string → option Z)
    (loads : string → bool) (variants : list Variant) (choice : string)
    : list Event * Selection :=
  match variants with
  | [] => ([], KeepMaster)
  | first :: others =>
      let listing :=
        EvPrint "[+] Master playlist detected. Available qualities:"
        :: imap (λ i v, EvPrint (variant_line (i + 1) v)) variants in
      let highest := max_by bandwidth_key first others in
      let fallback :=
        ([EvPrint ("[+] Defaulting to highest quality: " +:+ absolute_uri highest)],
         if loads (absolute_uri highest) then Load (absolute_uri highest)
         else LoadRaises (absolute_uri highest)) in
      let '(tr, selection) :=
        match parse_int choice with
        | None => fallback
        | Some n =>
            let choice_idx := (n - 1)%Z in
            if (0 <=? choice_idx)%Z && (choice_idx <? Z.of_nat (length variants))%Z then
              match variants !! Z.to_nat choice_idx with
              | Some v =>
                  let selected :=
                    EvPrint ("[+] Selected quality #" +:+ choice +:+ ": "
                             +:+ absolute_uri v) in
                  if loads (absolute_uri v) then ([selected], Load (absolute_uri v))
                  else (selected :: fallback.1, fallback.2)
              | None => fallback
              end
            else fallback
        end in
      (listing ++ tr, selection)
  end.

(** Three variants, the two best with the same bandwidth. *)
Definition sample_variants : list Variant :=
  [ {| bandwidth := Some 800000%Z; resolution := Some (640, 360)%Z;
       absolute_uri := "http://cdn/low.m3u8" |};
    {| bandwidth := Some 2500000%Z; resolution := Some (1280, 720)%Z;
       absolute_uri := "http://cdn/hd.m3u8" |};
    {| bandwidth := Some 2500000%Z; resolution := None;
       absolute_uri := "http://cdn/hd-alt.m3u8" |} ].

(** An [int] that reads "2" and "9" and nothing else. *)
Definition sample_int (s : string) : option Z :=
  if bool_decide (s = "2") then Some 2%Z
  else if bool_decide (s = "9") then Some 9%Z
  else None.

(** ** [parse_dash_mpd]

    The function is modelled from the parsed document on: the request for
    the manifest and the XML parser are not. The document is the tree the
    loops walk: periods, their adaptation sets, their representations, each
    with the [SegmentTemplate] child [rep.find] returns, if any. [None]
    stands for an exception, which nothing in the function catches. *)

(** The remainder of [s] after the prefix [old], when [s] starts with it. *)
Fixpoint strip_prefix (old s : string) : option string :=
  match old, s with
  | EmptyString, _ => Some s
  | String a old', String b s' => if decide (a = b) then strip_prefix old' s' else None
  | String _ _, EmptyString => None
  end.

(** [s.replace(old, new)] for a non-empty [old]: every occurrence, found
    from left to right without overlap. Each round consumes a character, so
    the length of [s] is fuel enough. *)
Fixpoint replace_go (fuel : nat) (old new s : string) : string :=
  match fuel with
  | O => s
  | S fuel' =>
      match strip_prefix old s with
      | Some rest => new +:+ replace_go fuel' old new rest
      | None =>
          match s with
          | EmptyString => EmptyString
          | String c rest => String c (replace_go fuel' old new rest)
          end
      end
  end.

Definition replace (old new s : string) : string :=
  replace_go (String.length s) old new s.

(** A [SegmentTemplate] element. [tmpl_timescale], [tmpl_start_number] and
    [tmpl_duration] are what [int(seg_tmpl.get(name, default))] gives,
    [None] when [int] raises. *)
Record SegmentTemplate := {
  tmpl_media : option string;
  tmpl_initialization : option string;
  tmpl_timescale : option Z;
  tmpl_start_number : option Z;
  tmpl_duration : option Z
}.

Record Representation := {
  rep_id : option string;
  rep_template : option SegmentTemplate
}.

(** [url.rsplit('/', 1)[0] + '/']. *)
Definition mpd_base_url (url : string) : string :=
  match rsplit1 "/"%char url with
  | Some (before, _) => before +:+ "/"
  | None => url +:+ "/"
  end.

(** The body of [if seg_tmpl is not None], up to the [break]: the URL of
    the initialization segment if the attribute is there and not empty,
    then ten media URLs numbered from [startNumber]. *)
Definition template_urls (urljoin : string → string → string) (base_url : string)
    (rep : Representation) (tmpl : SegmentTemplate) : option (list string) :=
  _ ← tmpl_timescale tmpl;
  start_number ← tmpl_start_number tmpl;
  _ ← tmpl_duration tmpl;
  init ←
    match tmpl_initialization tmpl with
    | None => Some []
    | Some initialization =>
        if bool_decide (initialization = "") then Some []
        else
          id ← rep_id rep;
          Some [urljoin base_url (replace "$RepresentationID$" id initialization)]
    end;
  media ← tmpl_media tmpl;
  id ← rep_id rep;
  Some (init
        ++ ((λ i, urljoin base_url
                    (replace "$Number$" (pretty i)
                       (replace "$RepresentationID$" id media)))
            <$> seqZ start_number 10)).

(** [for rep in adap_set.findall('mpd:Representation', ns)], left at the
    first representation that has a template. *)
Fixpoint adaptation_urls (urljoin : string → string → string) (base_url : string)
    (reps : list Representation) : option (list string) :=
  match reps with
  | [] => Some []
  | rep :: rest =>
      match rep_template rep with
      | Some tmpl => template_urls urljoin base_url rep tmpl
      | None => adaptation_urls urljoin base_url rest
      end
  end.

(** A [for] loop that appends what each item gives and stops at the first
    exception. *)
Fixpoint collect {A : Type} (f : A → option (list string)) (items : list A)
    : option (list string) :=
  match items with
  | [] => Some []
  | item :: rest =>
      urls ← f item;
      more ← collect f rest;
      Some (urls ++ more)
  end.

Definition parse_dash_mpd (urljoin : string → string → string) (url : string)
    (root : list (list (list Representation))) : option (list string) :=
  collect (collect (adaptation_urls urljoin (mpd_base_url url))) root.

(** A video representation with a template, at two bit rates. *)
Definition video_template : SegmentTemplate :=
  {| tmpl_media := Some "$RepresentationID$/seg-$Number$.m4s";
     tmpl_initialization := Some "$RepresentationID$/init.mp4";
     tmpl_timescale := Some 1000%Z;
     tmpl_start_number := Some 1%Z;
     tmpl_duration := Some 4000%Z |}.

Definition sample_mpd : list (list (list Representation)) :=
  [[ [ {| rep_id := Some "v720"; rep_template := Some video_template |};
       {| rep_id := Some "v1080"; rep_template := Some video_template |} ] ]].

(** The first representation of an adaptation set that has a template,
    with that template: the one [parse_dash_mpd] uses. *)
Fixpoint first_templated (reps : list Representation)
    : option (Representation * SegmentTemplate) :=
  match reps with
  | [] => None
  | rep :: rest =>
      match rep_template rep with
      | Some tmpl => Some (rep, tmpl)
      | None => first_templated rest
      end
  end.

(** The representations used, over all periods and adaptation sets. *)
Definition used_templates (root : list (list (list Representation)))
    : list (Representation * SegmentTemplate) :=
  omap first_templated (concat root).

(** [if initialization:]. *)
Definition has_initialization (tmpl : SegmentTemplate) : bool :=
  match tmpl_initialization tmpl with
  | Some initialization => negb (bool_decide (initialization = ""))
  | None => false
  end.

(** * Properties *)

(** ** Strings *)

Lemma string_app_cons (a : ascii) (s t : string) :
  String a s +:+ t = String a (s +:+ t).
Proof. reflexivity. Qed.

Lemma string_app_nil_l (t : string) : "" +:+ t = t.
Proof. reflexivity. Qed.

Lemma string_length_app (s t : string) :
  String.length (s +:+ t) = String.length s + String.length t.
Proof.
  induction s as [|a s IH]; [done|].
  rewrite string_app_cons. simpl. by rewrite IH.
Qed.

Lemma string_app_assoc (s t u : string) : (s +:+ t) +:+ u = s +:+ (t +:+ u).
Proof.
  induction s as [|a s IH]; [done|].
  rewrite !string_app_cons. by rewrite IH.
Qed.

(** Cancellation of a common suffix. *)
Lemma string_app_inv_tail (s1 s2 e : string) : s1 +:+ e = s2 +:+ e → s1 = s2.
Proof.
  revert s2. induction s1 as [|a s1 IH]; intros [|b s2] H.
  - done.
  - apply (f_equal String.length) in H.
    rewrite string_app_cons, string_app_nil_l in H. simpl in H.
    rewrite string_length_app in H. lia.
  - apply (f_equal String.length) in H.
    rewrite string_app_cons, string_app_nil_l in H. simpl in H.
    rewrite string_length_app in H. lia.
  - rewrite !string_app_cons in H. injection H as -> H. f_equal. by apply IH.
Qed.

(** ** Paths *)

Lemma startswith_sep_app (b t1 t2 : string) :
  Path.startswith_sep (b +:+ "_" +:+ t1) = Path.startswith_sep (b +:+ "_" +:+ t2).
Proof. by destruct b. Qed.

(** For a fixed directory, [join] only prepends a prefix chosen by the first
    character of the name, so it is injective on names that start alike. *)
Lemma join_inj (d x y : string) :
  Path.startswith_sep x = Path.startswith_sep y →
  Path.join d x = Path.join d y → x = y.
Proof.
  unfold Path.join. intros <-.
  destruct (Path.startswith_sep x || bool_decide (d = "")); [done|].
  destruct (Path.endswith_sep d); intros H.
  - by apply (inj (String.append d)) in H.
  - apply (inj (String.append d)) in H. by injection H.
Qed.

Lemma suffixed_inj (d b e : string) (j k : nat) :
  suffixed d b e j = suffixed d b e k → j = k.
Proof.
  unfold suffixed. intros H.
  apply join_inj in H; [|apply startswith_sep_app].
  apply (inj (String.append b)) in H.
  apply (inj (String.append "_")) in H.
  apply string_app_inv_tail in H.
  by apply (inj pretty) in H.
Qed.

(** ** [ensure_unique_filename]: termination and result *)

Lemma exists_true (fs : FS) (p : string) :
  Path.exists_ fs p = true ↔ is_Some (fs !! p).
Proof. unfold Path.exists_. by rewrite bool_decide_eq_true. Qed.

Lemma exists_false (fs : FS) (p : string) :
  Path.exists_ fs p = false ↔ fs !! p = None.
Proof.
  unfold Path.exists_. rewrite bool_decide_eq_false.
  by rewrite eq_None_not_Some.
Qed.

(** Pigeonhole: the suffixed candidates are pairwise distinct, so among any
    [size fs + 1] consecutive ones at least one is not on disk. *)
Lemma suffixed_free_among (fs : FS) (d b e : string) (start : nat) :
  ∃ j : nat, start ≤ j < start + S (size fs) ∧ fs !! suffixed d b e j = None.
Proof.
  set (cands := suffixed d b e <$> seq start (S (size fs))).
  destruct (decide (Forall (λ p, is_Some (fs !! p)) cands)) as [Hall|Hex].
  - exfalso.
    assert (NoDup cands) as Hnd.
    { apply NoDup_fmap_2; [|apply NoDup_seq].
      intros j k. apply suffixed_inj. }
    assert (list_to_set cands ⊆ dom fs) as Hsub.
    { intros p Hp. apply elem_of_list_to_set in Hp.
      apply elem_of_dom. by eapply (proj1 (Forall_forall _ _) Hall). }
    apply subseteq_size in Hsub.
    rewrite size_list_to_set, size_dom in Hsub by done.
    unfold cands in Hsub. rewrite length_fmap, length_seq in Hsub. lia.
  - apply not_Forall_Exists in Hex; [|apply _].
    apply Exists_exists in Hex as (p & Hp & Hnone).
    apply list_elem_of_fmap in Hp as (j & -> & Hj).
    apply elem_of_seq in Hj. exists j. split; [lia|].
    by apply eq_None_not_Some.
Qed.

(** The loop stops as soon as one of the candidates within reach of the
    fuel is free. *)
Lemma ensure_unique_loop_some (fuel : nat) (fs : FS) (d b e cand : string) (c : nat) :
  (∃ j : nat, c ≤ j < c + fuel ∧ fs !! suffixed d b e j = None) →
  ∃ p, ensure_unique_loop fuel fs d b e cand c = Some p.
Proof.
  revert cand c. induction fuel as [|fuel IH]; intros cand c (j & Hj & Hfree).
  - lia.
  - simpl. destruct (Path.exists_ fs cand); [|by eexists].
    destruct (decide (j = c)) as [->|Hne].
    + destruct fuel as [|fuel']; simpl.
      * apply exists_false in Hfree. rewrite Hfree. by eexists.
      * apply exists_false in Hfree. rewrite Hfree. by eexists.
    + apply IH. exists j. split; [lia | done].
Qed.

(** What the loop returns: either the candidate it was entered with, which
    then is free, or the first free suffixed name from [c] on. *)
Lemma ensure_unique_loop_spec (fuel : nat) (fs : FS) (d b e cand p : string) (c : nat) :
  ensure_unique_loop fuel fs d b e cand c = Some p →
  (fs !! cand = None ∧ p = cand) ∨
  (is_Some (fs !! cand) ∧
   ∃ k : nat, c ≤ k ∧ p = suffixed d b e k ∧ fs !! p = None ∧
        ∀ j : nat, c ≤ j < k → is_Some (fs !! suffixed d b e j)).
Proof.
  revert cand c. induction fuel as [|fuel IH]; intros cand c; simpl.
  - destruct (Path.exists_ fs cand) eqn:Hex; [done|].
    intros [= ->]. left. by apply exists_false in Hex.
  - destruct (Path.exists_ fs cand) eqn:Hex.
    + intros Hloop. right. split; [by apply exists_true|].
      apply IH in Hloop as [[Hfree ->]|[Hbusy (k & Hk & -> & Hfree & Hbelow)]].
      * exists c. repeat split; [lia | done | intros j ?; lia].
      * exists k. repeat split; [lia | done |].
        intros j Hj. destruct (decide (j = c)) as [->|?]; [done|].
        apply Hbelow. lia.
    + intros [= ->]. left. by apply exists_false in Hex.
Qed.

(** More fuel than needed does not change the result. *)
Lemma ensure_unique_loop_fuel (fuel fuel' : nat) (fs : FS) (d b e cand p : string) (c : nat) :
  fuel ≤ fuel' →
  ensure_unique_loop fuel fs d b e cand c = Some p →
  ensure_unique_loop fuel' fs d b e cand c = Some p.
Proof.
  revert fuel' cand c. induction fuel as [|fuel IH]; intros fuel' cand c Hle; simpl.
  - destruct (Path.exists_ fs cand) eqn:Hex; [done|].
    intros [= ->]. destruct fuel'; simpl; by rewrite Hex.
  - destruct fuel' as [|fuel']; [lia|]. simpl.
    destruct (Path.exists_ fs cand); [|done].
    apply IH. lia.
Qed.

Lemma ensure_unique_filename_total (fs : FS) (d f e : string) :
  ∃ p, ensure_unique_filename fs d f e = Some p.
Proof.
  apply ensure_unique_loop_some.
  destruct (suffixed_free_among fs d f e 1) as (j & Hj & Hfree). by exists j.
Qed.

Lemma ensure_unique_filename_fresh (fs : FS) (d f e p : string) :
  ensure_unique_filename fs d f e = Some p → fs !! p = None.
Proof.
  intros H. apply ensure_unique_loop_spec in H as [[? ->]|[_ (k & _ & _ & ? & _)]]; done.
Qed.

(** C6. [ensure_unique_filename] always returns; the returned path is not
    on disk (so nothing is overwritten); it is the requested path when that
    one is free, and otherwise the first free name among [base_1],
    [base_2], ..., all earlier ones being taken. *)
Theorem ensure_unique_filename_correct (fs : FS) (d f e : string) :
  ∃ p, ensure_unique_filename fs d f e = Some p ∧
       fs !! p = None ∧
       if Path.exists_ fs (Path.join d (f +:+ e)) then
         ∃ k : nat, 1 ≤ k ∧ p = Path.join d (f +:+ "_" +:+ pretty k +:+ e) ∧
           ∀ j : nat, 1 ≤ j < k →
             is_Some (fs !! Path.join d (f +:+ "_" +:+ pretty j +:+ e))
       else p = Path.join d (f +:+ e).
Proof.
  destruct (ensure_unique_filename_total fs d f e) as [p Hp].
  exists p. split; [done|]. split; [by eapply ensure_unique_filename_fresh|].
  apply ensure_unique_loop_spec in Hp
    as [[Hfree ->]|[Hbusy (k & Hk & -> & Hfree & Hbelow)]].
  - apply exists_false in Hfree. by rewrite Hfree.
  - apply exists_true in Hbusy. rewrite Hbusy. by exists k.
Qed.

(** The usual example: [movie.mp4] is taken, [movie_1.mp4]
    is returned; with that one taken as well, [movie_2.mp4]. *)
Example ensure_unique_movie :
  ensure_unique_filename {[ "downloads/movie.mp4" := [] ]} "downloads" "movie" ".mp4"
    = Some "downloads/movie_1.mp4" ∧
  ensure_unique_filename
    {[ "downloads/movie.mp4" := []; "downloads/movie_1.mp4" := [] ]}
    "downloads" "movie" ".mp4" = Some "downloads/movie_2.mp4" ∧
  ensure_unique_filename ∅ "downloads" "movie" ".mp4" = Some "downloads/movie.mp4".
Proof. by vm_compute. Qed.

(** ** [download_file] never resumes *)

(** C10. The destination chosen by [ensure_unique_filename] is not on disk
    when [download_file] tests it, so whatever [resume] says the file is
    opened in mode [wb], nothing counts as downloaded and the request
    carries the plain [HEADERS], without a [Range] entry. *)
Theorem download_file_never_resumes (fs : FS) (url_ext : string) (head : HeadResponse)
    (directory filename : string) (resume : bool) :
  ∃ plan, download_file fs url_ext head directory filename resume = Some plan ∧
          fs !! full_path plan = None ∧
          mode plan = ModeWB ∧
          downloaded plan = 0 ∧
          headers plan = HEADERS ∧
          headers plan !! "Range" = None.
Proof.
  unfold download_file.
  destruct (ensure_unique_filename_total fs directory filename
              (choose_extension url_ext head)) as [p Hp].
  rewrite Hp. simpl.
  pose proof (ensure_unique_filename_fresh _ _ _ _ _ Hp) as Hfree.
  apply exists_false in Hfree. rewrite Hfree, andb_false_r.
  eexists. split; [done|]. simpl. repeat split; try done.
  by apply exists_false.
Qed.

(** ** Segment paths *)

(** [join] puts a prefix, fixed by the directory and by how the name
    starts, in front of the name. *)
Lemma join_prefix (d x : string) : ∃ pre, Path.join d x = pre +:+ x.
Proof.
  unfold Path.join.
  destruct (Path.startswith_sep x || bool_decide (d = "")).
  - by exists "".
  - destruct (Path.endswith_sep d).
    + by exists d.
    + exists (d +:+ "/"). by rewrite string_app_assoc.
Qed.

(** Two strings with different last characters differ. *)
Lemma string_last_inj (s1 s2 : string) (a b : ascii) :
  s1 +:+ String a "" = s2 +:+ String b "" → a = b.
Proof.
  revert s2. induction s1 as [|c s1 IH]; intros [|c' s2] H.
  - by injection H.
  - rewrite string_app_cons, string_app_nil_l in H. injection H as _ H.
    destruct s2; discriminate H.
  - rewrite string_app_cons, string_app_nil_l in H. injection H as _ H.
    destruct s1; discriminate H.
  - rewrite !string_app_cons in H. injection H as _ H. by eapply IH.
Qed.

Lemma temp_neq_local (d : string) (i j : nat) :
  temp_filename d i ≠ local_filename d j.
Proof.
  unfold temp_filename, local_filename, segment_name. intros H.
  destruct (join_prefix d ("segment_" +:+ pretty i +:+ ".ts")) as [p1 H1].
  destruct (join_prefix d ("segment_" +:+ pretty j +:+ ".ts")) as [p2 H2].
  rewrite H1, H2 in H. clear H1 H2.
  change ".part" with (".par" +:+ "t") in H.
  change ".ts" with (".t" +:+ "s") in H at 2.
  rewrite <- !string_app_assoc in H.
  by apply string_last_inj in H.
Qed.

Lemma local_filename_inj (d : string) (i j : nat) :
  local_filename d i = local_filename d j → i = j.
Proof.
  unfold local_filename, segment_name. intros H.
  apply join_inj in H; [|done].
  apply (inj (String.append "segment_")) in H.
  apply string_app_inv_tail in H.
  by apply (inj pretty) in H.
Qed.

Lemma temp_filename_inj (d : string) (i j : nat) :
  temp_filename d i = temp_filename d j → i = j.
Proof.
  unfold temp_filename. intros H.
  apply string_app_inv_tail in H. by apply local_filename_inj in H.
Qed.

(** ** Traces of [download_segment] *)

Lemma fs_run_app (fs : FS) (t1 t2 : list Event) :
  fs_run fs (t1 ++ t2) = fs_run (fs_run fs t1) t2.
Proof. apply foldl_app. Qed.

Lemma fs_run_snoc (fs : FS) (t : list Event) (ev : Event) :
  fs_run fs (t ++ [ev]) = fs_step (fs_run fs t) ev.
Proof. by rewrite fs_run_app. Qed.

Lemma write_chunks_events (temp local : string) (cs : list bytes) :
  Forall (λ ev, segment_event temp local ev ∧ is_rename ev = false)
         (write_chunks temp cs).
Proof.
  unfold write_chunks. induction cs as [|c cs IH]; [constructor|].
  rewrite bind_cons. apply Forall_app. split; [|done].
  case_bool_decide; repeat constructor.
Qed.

Lemma try_fetch_events (url temp local : string) (h : gmap string string)
    (dl idx total : nat) (a : Attempt) :
  Forall (λ ev, segment_event temp local ev ∧ is_rename ev = false)
         (try_fetch url temp h dl idx total a).1.
Proof.
  unfold try_fetch. destruct a as [text|r]; simpl.
  - repeat constructor.
  - destruct (raise_for_status url r); simpl.
    + repeat constructor.
    + repeat (constructor; [done|]). apply write_chunks_events.
Qed.

(** Every event of the retry loop is one the segment may produce. *)
Lemma retry_loop_events (net : nat → Attempt) (url temp local : string)
    (h : gmap string string) (dl idx total retries attempt n : nat) :
  Forall (segment_event temp local)
         (retry_loop net url temp local h dl idx total retries attempt n).1.
Proof.
  revert attempt. induction n as [|n IH]; intros attempt; simpl; [constructor|].
  pose proof (try_fetch_events url temp local h dl idx total (net attempt)) as Hev.
  destruct (try_fetch url temp h dl idx total (net attempt)) as [evs [text|]].
  - specialize (IH (S attempt)).
    destruct (retry_loop net url temp local h dl idx total retries (S attempt) n)
      as [rest res].
    simpl in *. apply Forall_app. split.
    + eapply Forall_impl; [exact Hev|]. by intros ev [? _].
    + by repeat constructor.
  - simpl in *. apply Forall_app. split.
    + eapply Forall_impl; [exact Hev|]. by intros ev [? _].
    + by repeat constructor.
Qed.

(** The rename happens once, as the last event of a successful call, and
    not at all in a failed one. *)
Lemma retry_loop_rename (net : nat → Attempt) (url temp local : string)
    (h : gmap string string) (dl idx total retries attempt n : nat) :
  match retry_loop net url temp local h dl idx total retries attempt n with
  | (trace, Returns p) =>
      p = local ∧
      ∃ pre, trace = pre ++ [EvRename temp local] ∧
             Forall (λ ev, is_rename ev = false) pre ∧
             EvOpen temp ModeAB ∈ pre
  | (trace, Raises e) =>
      Forall (λ ev, is_rename ev = false) trace ∧
      e = RuntimeError ("Failed to download segment " +:+ pretty idx +:+ " after "
                        +:+ pretty retries +:+ " retries.")
  end.
Proof.
  revert attempt. induction n as [|n IH]; intros attempt; simpl; [by split|].
  pose proof (try_fetch_events url temp local h dl idx total (net attempt)) as Hev.
  assert (∀ evs, (try_fetch url temp h dl idx total (net attempt)) = (evs, None) →
                 EvOpen temp ModeAB ∈ evs) as Hopen.
  { unfold try_fetch. intros evs. destruct (net attempt) as [?|r]; [done|].
    destruct (raise_for_status url r); [done|].
    intros [= <- _]. set_solver. }
  destruct (try_fetch url temp h dl idx total (net attempt)) as [evs [text|]].
  - specialize (IH (S attempt)).
    destruct (retry_loop net url temp local h dl idx total retries (S attempt) n)
      as [rest [p|e]]; simpl in *.
    + destruct IH as [-> (pre & -> & Hpre & Hin)]. split; [done|].
      exists (evs ++ [EvPrint ("[!] Segment " +:+ pretty idx +:+ " download attempt "
                               +:+ pretty attempt +:+ " failed: " +:+ text);
                      EvSleep (RETRY_BACKOFF ^ attempt)] ++ pre).
      split; [by rewrite <- !app_assoc|]. split.
      * apply Forall_app. split.
        -- eapply Forall_impl; [exact Hev|]. by intros ev [_ ?].
        -- by repeat constructor.
      * set_solver.
    + destruct IH as [Hrest ->]. split; [|done].
      apply Forall_app. split.
      * eapply Forall_impl; [exact Hev|]. by intros ev [_ ?].
      * by repeat constructor.
  - simpl in *. split; [done|]. exists evs. split; [done|]. split.
    + eapply Forall_impl; [exact Hev|]. by intros ev [_ ?].
    + by apply Hopen.
Qed.

(** ** The file system under a segment's events *)

Section SegmentFiles.
Variables temp local : string.
Hypothesis temp_local : temp ≠ local.

(** Files other than the segment's two are never touched. *)
Lemma fs_step_other (fs : FS) (ev : Event) (p : string) :
  segment_event temp local ev → p ≠ temp → p ≠ local →
  fs_step fs ev !! p = fs !! p.
Proof using Type.
  destruct ev as [| q m | | q c | | src dst | | | | | | |]; simpl; try done.
  - intros [-> ->] Hp _. destruct (fs !! temp); [done|].
    by rewrite lookup_insert_ne.
  - intros -> Hp _. by rewrite lookup_insert_ne.
  - intros [-> ->] Hp Hl. destruct (fs !! temp); [|done].
    rewrite lookup_insert_ne by done. by rewrite lookup_delete_ne.
Qed.

(** Before the rename the final file is what it was. *)
Lemma fs_step_local (fs : FS) (ev : Event) :
  segment_event temp local ev → is_rename ev = false →
  fs_step fs ev !! local = fs !! local.
Proof using temp_local.
  destruct ev as [| q m | | q c | | src dst | | | | | | |]; simpl; try done.
  - intros [-> ->] _. destruct (fs !! temp); [done|].
    by rewrite lookup_insert_ne.
  - intros -> _. by rewrite lookup_insert_ne.
Qed.

(** Before the rename the temporary file only grows, by what is written. *)
Lemma fs_step_temp (fs : FS) (ev : Event) :
  segment_event temp local ev → is_rename ev = false →
  content (fs_step fs ev) temp = content fs temp ++ written [ev] ∧
  (is_Some (fs !! temp) → is_Some (fs_step fs ev !! temp)).
Proof using Type.
  unfold content, written.
  destruct ev as [| q m | | q c | | src dst | | | | | | |]; simpl;
    try (intros _ _; by rewrite app_nil_r).
  - intros [-> ->] _. destruct (fs !! temp) eqn:E; simpl.
    + rewrite E. simpl. by rewrite app_nil_r.
    + rewrite lookup_insert_eq. simpl. split; [done|]. by intros [? ?].
  - intros -> _. rewrite lookup_insert_eq. simpl. by rewrite app_nil_r.
  - done.
  - done.
Qed.

(** Once one of the two files exists, one of them exists ever after. *)
Lemma fs_step_present (fs : FS) (ev : Event) :
  segment_event temp local ev →
  is_Some (fs !! temp) ∨ is_Some (fs !! local) →
  is_Some (fs_step fs ev !! temp) ∨ is_Some (fs_step fs ev !! local).
Proof using Type.
  destruct ev as [| q m | | q c | | src dst | | | | | | |]; simpl; try done.
  - intros [-> ->] _. destruct (fs !! temp) eqn:E.
    + left. by rewrite E.
    + left. by rewrite lookup_insert_eq.
  - intros -> _. left. by rewrite lookup_insert_eq.
  - intros [-> ->] H. destruct (fs !! temp) eqn:E.
    + right. by rewrite lookup_insert_eq.
    + destruct H as [[? H]|H]; [done | by right].
Qed.

Lemma fs_run_other (fs : FS) (trace : list Event) (p : string) :
  Forall (segment_event temp local) trace → p ≠ temp → p ≠ local →
  fs_run fs trace !! p = fs !! p.
Proof using Type.
  intros Hall Hp Hl. revert fs.
  induction Hall as [|ev trace Hev _ IH]; intros fs; [done|].
  simpl. rewrite IH. by apply fs_step_other.
Qed.

Lemma fs_run_local (fs : FS) (trace : list Event) :
  Forall (segment_event temp local) trace →
  Forall (λ ev, is_rename ev = false) trace →
  fs_run fs trace !! local = fs !! local.
Proof using temp_local.
  intros Hall. revert fs.
  induction Hall as [|ev trace Hev _ IH]; intros fs Hnr; [done|].
  apply Forall_cons in Hnr as [Hnr1 Hnr]. simpl.
  rewrite IH by done. by apply fs_step_local.
Qed.

Lemma fs_run_temp (fs : FS) (trace : list Event) :
  Forall (segment_event temp local) trace →
  Forall (λ ev, is_rename ev = false) trace →
  content (fs_run fs trace) temp = content fs temp ++ written trace ∧
  (is_Some (fs !! temp) → is_Some (fs_run fs trace !! temp)).
Proof using Type.
  intros Hall. revert fs.
  induction Hall as [|ev trace Hev _ IH]; intros fs Hnr.
  { simpl. split; [|done]. unfold written. simpl. by rewrite app_nil_r. }
  apply Forall_cons in Hnr as [Hnr1 Hnr]. simpl.
  destruct (IH (fs_step fs ev) Hnr) as [IHc IHp].
  destruct (fs_step_temp fs ev Hev Hnr1) as [Hc Hp].
  split; [|by auto].
  rewrite IHc, Hc, <- app_assoc. f_equal. f_equal.
  unfold written. simpl. by rewrite app_nil_r.
Qed.

Lemma fs_run_present (fs : FS) (trace : list Event) :
  Forall (segment_event temp local) trace →
  is_Some (fs !! temp) ∨ is_Some (fs !! local) →
  is_Some (fs_run fs trace !! temp) ∨ is_Some (fs_run fs trace !! local).
Proof using Type.
  intros Hall. revert fs.
  induction Hall as [|ev trace Hev _ IH]; intros fs H; [done|].
  simpl. apply IH. by apply fs_step_present.
Qed.

(** Opening or writing the temporary file makes it exist. *)
Lemma fs_run_opened (fs : FS) (trace : list Event) (ev : Event) :
  Forall (segment_event temp local) trace →
  ev ∈ trace →
  (ev = EvOpen temp ModeAB ∨ ∃ c, ev = EvWrite temp c) →
  is_Some (fs_run fs trace !! temp) ∨ is_Some (fs_run fs trace !! local).
Proof using Type.
  intros Hall Hin Hev.
  apply list_elem_of_split in Hin as (t1 & t2 & ->).
  apply Forall_app in Hall as [_ Hall].
  apply Forall_cons in Hall as [_ Hall].
  rewrite fs_run_app. simpl. apply fs_run_present; [done|]. left.
  destruct Hev as [->|[c ->]]; simpl.
  - destruct (fs_run fs t1 !! temp) eqn:E; [by rewrite E|].
    by rewrite lookup_insert_eq.
  - by rewrite lookup_insert_eq.
Qed.

End SegmentFiles.

(** Without a rename, a temporary file that was opened is there. *)
Lemma fs_run_opened_temp (temp local : string) (fs : FS) (trace : list Event) :
  Forall (segment_event temp local) trace →
  Forall (λ ev, is_rename ev = false) trace →
  EvOpen temp ModeAB ∈ trace →
  fs_run fs trace !! temp = Some (content fs temp ++ written trace).
Proof.
  intros Hall Hnr Hin.
  destruct (fs_run_temp temp local fs trace Hall Hnr) as [Hc _].
  enough (is_Some (fs_run fs trace !! temp)) as [c Hsome].
  { unfold content in Hc at 1. rewrite Hsome in Hc. simpl in Hc. by rewrite <- Hc. }
  apply list_elem_of_split in Hin as (t1 & t2 & ->).
  apply Forall_app in Hall as [_ Hall]. apply Forall_cons in Hall as [_ Hall].
  apply Forall_app in Hnr as [_ Hnr]. apply Forall_cons in Hnr as [_ Hnr].
  rewrite fs_run_app. simpl.
  apply (fs_run_temp temp local); [done..|].
  destruct (fs_run fs t1 !! temp) eqn:E; [by rewrite E|].
  by rewrite lookup_insert_eq.
Qed.

(** What a successful call leaves behind. *)
Lemma download_segment_returns (fs : FS) (net : nat → Attempt) (url d : string)
    (idx total retries : nat) (trace : list Event) (p : string) :
  download_segment fs net url d idx total retries = (trace, Returns p) →
  p = local_filename d idx ∧
  ∃ pre, trace = pre ++ [EvRename (temp_filename d idx) (local_filename d idx)] ∧
         Forall (λ ev, is_rename ev = false) pre ∧
         fs_run fs trace !! local_filename d idx
           = Some (content fs (temp_filename d idx) ++ written pre) ∧
         fs_run fs trace !! temp_filename d idx = None.
Proof.
  unfold download_segment. intros Hrun.
  pose proof (retry_loop_events net url (temp_filename d idx) (local_filename d idx)
                (segment_headers (already_downloaded fs d idx))
                (already_downloaded fs d idx) idx total retries 1 retries) as Hev.
  pose proof (retry_loop_rename net url (temp_filename d idx) (local_filename d idx)
                (segment_headers (already_downloaded fs d idx))
                (already_downloaded fs d idx) idx total retries 1 retries) as Hren.
  rewrite Hrun in Hev, Hren. simpl in Hev.
  destruct Hren as [-> (pre & -> & Hnr & Hopen)]. split; [done|].
  exists pre. split; [done|]. split; [done|].
  apply Forall_app in Hev as [Hev _].
  rewrite fs_run_snoc. simpl.
  rewrite (fs_run_opened_temp _ _ _ _ Hev Hnr Hopen).
  rewrite lookup_insert_eq. split; [done|].
  rewrite lookup_insert_ne by (apply not_eq_sym, temp_neq_local).
  by rewrite lookup_delete_eq.
Qed.

(** ** Temporary file and atomic rename *)

(** C4. [download_segment] opens and writes only the temporary file, whose
    name differs from the final one. A successful call ends with the one
    rename of the temporary file to the final name, which moves everything
    that was on disk and written; a failed call never renames. Before the
    rename the final file is what it was before the call, and from the
    first write on at least one of the two files exists. *)
Theorem download_segment_temp_then_rename (fs : FS) (net : nat → Attempt)
    (url d : string) (idx total retries : nat) :
  let temp := temp_filename d idx in
  let local := local_filename d idx in
  let run := download_segment fs net url d idx total retries in
  temp ≠ local ∧
  Forall (segment_event temp local) run.1 ∧
  (∀ p, run.2 = Returns p →
        p = local ∧
        ∃ pre, run.1 = pre ++ [EvRename temp local] ∧
               Forall (λ ev, is_rename ev = false) pre ∧
               fs_run fs run.1 !! local = Some (content fs temp ++ written pre) ∧
               fs_run fs run.1 !! temp = None) ∧
  (∀ e, run.2 = Raises e → Forall (λ ev, is_rename ev = false) run.1) ∧
  (∀ pre post, run.1 = pre ++ post →
               Forall (λ ev, is_rename ev = false) pre →
               fs_run fs pre !! local = fs !! local) ∧
  (∀ pre post c, run.1 = pre ++ post → EvWrite temp c ∈ pre →
                 is_Some (fs_run fs pre !! temp) ∨ is_Some (fs_run fs pre !! local)).
Proof.
  intros temp local run.
  assert (Forall (segment_event temp local) run.1) as Hev
    by apply retry_loop_events.
  split; [apply temp_neq_local|]. split; [done|]. split; [|split; [|split]].
  - intros p Hp. apply (download_segment_returns fs net url d idx total retries run.1).
    rewrite <- Hp. apply surjective_pairing.
  - intros e He.
    pose proof (retry_loop_rename net url temp local
                  (segment_headers (already_downloaded fs d idx))
                  (already_downloaded fs d idx) idx total retries 1 retries) as Hren.
    fold temp local in Hren. unfold run, download_segment in He |- *.
    fold temp local in He |- *.
    destruct (retry_loop net url temp local _ _ idx total retries 1 retries)
      as [trace res]. simpl in *. subst res. by destruct Hren.
  - intros pre post Hsplit Hnr. rewrite Hsplit in Hev.
    apply Forall_app in Hev as [Hpre _].
    apply (fs_run_local temp local); [apply temp_neq_local | done..].
  - intros pre post c Hsplit Hin. rewrite Hsplit in Hev.
    apply Forall_app in Hev as [Hpre _].
    eapply (fs_run_opened temp local); [done.. |]. right. by exists c.
Qed.

(** ** A server that ignores the range *)

Lemma written_app (t1 t2 : list Event) : written (t1 ++ t2) = written t1 ++ written t2.
Proof. unfold written. apply bind_app. Qed.

Lemma written_write_chunks (temp : string) (cs : list bytes) :
  written (write_chunks temp cs) = concat cs.
Proof.
  unfold write_chunks. induction cs as [|c cs IH]; [done|].
  rewrite bind_cons, written_app, IH. simpl. f_equal.
  case_bool_decide as Hc; [by rewrite Hc|].
  unfold written. simpl. by rewrite app_nil_r.
Qed.

(** C3, as the code has it. The status of an answer is only tested for
    an error (4xx, 5xx). Any other answer to a resumed fetch, [200] with the
    whole body as much as [206], is appended to the bytes already in the
    temporary file: when the first answer is read to its end, the final
    file holds the old bytes followed by the full response body. *)
Theorem download_segment_appends_any_answer (fs : FS) (net : nat → Attempt)
    (url d : string) (idx total retries : nat) (old : bytes) (r : Response) :
  fs !! temp_filename d idx = Some old →
  0 < retries →
  net 1 = GetReturns r →
  raise_for_status url r = None →
  stream_error r = None →
  let run := download_segment fs net url d idx total retries in
  run.2 = Returns (local_filename d idx) ∧
  fs_run fs run.1 !! local_filename d idx = Some (old ++ concat (chunks r)) ∧
  fs_run fs run.1 !! temp_filename d idx = None.
Proof.
  intros Hold Hpos Hnet Hstatus Hstream run.
  destruct (download_segment fs net url d idx total retries) as [trace res] eqn:Hrun.
  assert (∃ evs, trace = evs ++ [EvRename (temp_filename d idx) (local_filename d idx)]
                 ∧ written evs = concat (chunks r)
                 ∧ res = Returns (local_filename d idx)) as (evs & -> & Hw & ->).
  { unfold download_segment in Hrun.
    destruct retries as [|n]; [lia|]. simpl in Hrun.
    unfold try_fetch in Hrun. rewrite Hnet, Hstatus, Hstream in Hrun.
    injection Hrun as <- <-.
    exists ([EvRequest url (segment_headers (already_downloaded fs d idx));
             EvOpen (temp_filename d idx) ModeAB;
             EvProgress ("Segment " +:+ pretty idx +:+ "/" +:+ pretty total)
               ((λ n, n + Z.of_nat (already_downloaded fs d idx))%Z
                  <$> content_length r)
               (already_downloaded fs d idx)]
            ++ write_chunks (temp_filename d idx) (chunks r)).
    split; [reflexivity|]. split; [|done].
    rewrite (written_app [_; _; _]). by rewrite written_write_chunks. }
  subst run. simpl.
  destruct (download_segment_returns _ _ _ _ _ _ _ _ _ Hrun)
    as (_ & pre & Hpre & _ & Hlocal & Htemp).
  apply app_inj_tail in Hpre as [<- _].
  unfold content in Hlocal. rewrite Hold in Hlocal. simpl in Hlocal.
  by rewrite Hlocal, Htemp, Hw.
Qed.

Lemma download_segment_appends_any_answer_witness :
  partial_fs !! temp_filename "d" 3 = Some [Byte.x41; Byte.x42] ∧
  0 < MAX_RETRIES ∧
  fs_run partial_fs
    (download_segment partial_fs plain_server "http://cdn/3.ts" "d" 3 5 MAX_RETRIES).1
    !! local_filename "d" 3
  = Some ([Byte.x41; Byte.x42] ++ full_body).
Proof.
  split; [reflexivity|]. split; [unfold MAX_RETRIES; lia|].
  exact (proj1 (proj2 (download_segment_appends_any_answer partial_fs plain_server
                         "http://cdn/3.ts" "d" 3 5 MAX_RETRIES [Byte.x41; Byte.x42]
                         _ eq_refl (Nat.lt_0_succ 4) eq_refl eq_refl eq_refl))).
Defined.

(** Two bytes are on disk, the request asks for the rest, and the server
    answers [200] with all four bytes: the call succeeds and the segment is
    the two old bytes followed by the four, not the body the server sent. *)
Lemma range_ignored_not_restarted :
  let run := download_segment partial_fs plain_server "http://cdn/3.ts" "d" 3 5 MAX_RETRIES in
  (∀ u h, EvRequest u h ∈ run.1 → h !! "Range" = Some "bytes=2-") ∧
  run.2 = Returns "d/segment_3.ts" ∧
  fs_run partial_fs run.1 !! "d/segment_3.ts"
    = Some [Byte.x41; Byte.x42; Byte.x41; Byte.x42; Byte.x43; Byte.x44] ∧
  fs_run partial_fs run.1 !! "d/segment_3.ts" ≠ Some full_body.
Proof.
  split; [|by vm_compute].
  intros u h Hin. vm_compute in Hin.
  apply list_elem_of_In in Hin. simpl in Hin.
  destruct Hin as [[= <- <-]|[?|[?|[?|[?|[?|[]]]]]]]; try discriminate.
  by vm_compute.
Qed.

(** ** Retries and backoff *)

Lemma sleeps_app (t1 t2 : list Event) : sleeps (t1 ++ t2) = sleeps t1 ++ sleeps t2.
Proof. unfold sleeps. apply bind_app. Qed.

Lemma requests_app (t1 t2 : list Event) : requests (t1 ++ t2) = requests t1 + requests t2.
Proof. unfold requests, requested. by rewrite bind_app, length_app. Qed.

Lemma write_chunks_quiet (temp : string) (cs : list bytes) :
  sleeps (write_chunks temp cs) = [] ∧ requests (write_chunks temp cs) = 0.
Proof.
  unfold write_chunks. induction cs as [|c cs [IHs IHr]]; [done|].
  rewrite bind_cons, sleeps_app, requests_app, IHs, IHr.
  by case_bool_decide.
Qed.

(** One pass through the [try] block sends one request, never sleeps, and
    raises exactly when [attempt_error] says so. *)
Lemma try_fetch_once (url temp : string) (h : gmap string string)
    (dl idx total : nat) (a : Attempt) :
  let pass := try_fetch url temp h dl idx total a in
  pass.2 = attempt_error url a ∧ sleeps pass.1 = [] ∧ requests pass.1 = 1.
Proof.
  unfold try_fetch, attempt_error. destruct a as [text|r]; simpl; [done|].
  destruct (raise_for_status url r); simpl; [done|].
  destruct (write_chunks_quiet temp (chunks r)) as [Hs Hr].
  split; [done|]. split.
  - exact Hs.
  - change (S (requests (write_chunks temp (chunks r))) = 1). by rewrite Hr.
Qed.

Lemma retry_loop_exhausted (net : nat → Attempt) (url temp local : string)
    (h : gmap string string) (dl idx total retries attempt n : nat) :
  (∀ k, attempt ≤ k < attempt + n → is_Some (attempt_error url (net k))) →
  let run := retry_loop net url temp local h dl idx total retries attempt n in
  run.2 = Raises (RuntimeError ("Failed to download segment " +:+ pretty idx
                                +:+ " after " +:+ pretty retries +:+ " retries.")) ∧
  sleeps run.1 = (λ k, RETRY_BACKOFF ^ k) <$> seq attempt n ∧
  requests run.1 = n.
Proof.
  revert attempt. induction n as [|n IH]; intros attempt Hfail; simpl; [done|].
  destruct (try_fetch_once url temp h dl idx total (net attempt)) as (He & Hs & Hr).
  destruct (Hfail attempt) as [text Htext]; [lia|].
  destruct (try_fetch url temp h dl idx total (net attempt)) as [evs exc].
  simpl in He, Hs, Hr. rewrite He, Htext.
  destruct (IH (S attempt)) as (IHres & IHs & IHr).
  { intros k Hk. apply Hfail. lia. }
  destruct (retry_loop net url temp local h dl idx total retries (S attempt) n)
    as [rest res]. simpl in *.
  split; [done|]. split.
  - rewrite sleeps_app, Hs. simpl.
    change (RETRY_BACKOFF ^ attempt :: sleeps rest
            = RETRY_BACKOFF ^ attempt :: ((λ k, RETRY_BACKOFF ^ k) <$> seq (S attempt) n)).
    by rewrite IHs.
  - rewrite requests_app, Hr. simpl.
    change (S (requests rest) = S n). by rewrite IHr.
Qed.

(** C5. When every one of the [retries] attempts raises, the call makes
    exactly [retries] requests, sleeps [RETRY_BACKOFF ^ attempt] seconds
    after the failure of each attempt, and then raises the segment's
    [RuntimeError]. It never renames, removes or truncates: whatever the
    temporary file holds at any moment is still there, as a prefix of its
    content, when the call ends. *)
Theorem download_segment_exhausts_retries (fs : FS) (net : nat → Attempt)
    (url d : string) (idx total retries : nat) :
  (∀ k, 1 ≤ k ≤ retries → is_Some (attempt_error url (net k))) →
  let temp := temp_filename d idx in
  let run := download_segment fs net url d idx total retries in
  run.2 = Raises (RuntimeError ("Failed to download segment " +:+ pretty idx
                                +:+ " after " +:+ pretty retries +:+ " retries.")) ∧
  requests run.1 = retries ∧
  sleeps run.1 = (λ k, RETRY_BACKOFF ^ k) <$> seq 1 retries ∧
  Forall (segment_event temp (local_filename d idx)) run.1 ∧
  Forall (λ ev, is_rename ev = false) run.1 ∧
  (∀ pre post c, run.1 = pre ++ post → fs_run fs pre !! temp = Some c →
                 fs_run fs run.1 !! temp = Some (c ++ written post)).
Proof.
  intros Hfail temp run.
  destruct (retry_loop_exhausted net url temp (local_filename d idx)
              (segment_headers (already_downloaded fs d idx))
              (already_downloaded fs d idx) idx total retries 1 retries)
    as (Hres & Hs & Hr).
  { intros k Hk. apply Hfail. lia. }
  assert (Forall (segment_event temp (local_filename d idx)) run.1) as Hev
    by apply retry_loop_events.
  assert (Forall (λ ev, is_rename ev = false) run.1) as Hnr.
  { pose proof (retry_loop_rename net url temp (local_filename d idx)
                  (segment_headers (already_downloaded fs d idx))
                  (already_downloaded fs d idx) idx total retries 1 retries) as Hren.
    unfold run, download_segment. fold temp.
    destruct (retry_loop net url temp _ _ _ idx total retries 1 retries)
      as [trace res]. simpl in *. subst res. by destruct Hren. }
  repeat split; try done.
  intros pre post c Hsplit Hc. rewrite Hsplit in Hev, Hnr |- *.
  apply Forall_app in Hev as [_ Hev]. apply Forall_app in Hnr as [_ Hnr].
  rewrite fs_run_app.
  destruct (fs_run_temp temp (local_filename d idx) (fs_run fs pre) post Hev Hnr)
    as [Hcontent Hkept].
  destruct Hkept as [c' Hc']; [by exists c|].
  unfold content in Hcontent. rewrite Hc', Hc in Hcontent. simpl in Hcontent.
  by rewrite Hc', Hcontent.
Qed.

Lemma download_segment_exhausts_retries_witness :
  (∀ k, 1 ≤ k ≤ MAX_RETRIES →
        is_Some (attempt_error "http://cdn/3.ts" (flaky_server k))) ∧
  sleeps (download_segment partial_fs flaky_server "http://cdn/3.ts" "d" 3 5
            MAX_RETRIES).1
  = (λ k, RETRY_BACKOFF ^ k) <$> seq 1 MAX_RETRIES.
Proof.
  assert (∀ k, 1 ≤ k ≤ MAX_RETRIES →
               is_Some (attempt_error "http://cdn/3.ts" (flaky_server k))) as Hfail.
  { intros k _. simpl. by eexists. }
  split; [exact Hfail|].
  exact (proj1 (proj2 (proj2 (download_segment_exhausts_retries partial_fs flaky_server
                                "http://cdn/3.ts" "d" 3 5 MAX_RETRIES Hfail)))).
Defined.

(** Five broken transfers of one byte each: pauses of 2, 4, 8, 16 and 32
    seconds, and the temporary file ends with the two old bytes and the
    five new ones. *)
Example download_segment_flaky_run :
  let run := download_segment partial_fs flaky_server "http://cdn/3.ts" "d" 3 5 MAX_RETRIES in
  sleeps run.1 = [2; 4; 8; 16; 32] ∧
  run.2 = Raises (RuntimeError "Failed to download segment 3 after 5 retries.") ∧
  fs_run partial_fs run.1
  = {[ "d/segment_3.ts.part" :=
         [Byte.x41; Byte.x42; Byte.x43; Byte.x43; Byte.x43; Byte.x43; Byte.x43] ]}.
Proof. by vm_compute. Qed.

(** ** Resuming *)




(** What one pass through the [try] block writes is what its answer
    delivers. *)
Lemma written_try_fetch (url temp : string) (h : gmap string string)
    (dl idx total : nat) (a : Attempt) :
  written (try_fetch url temp h dl idx total a).1 = received url a.
Proof.
  unfold try_fetch, received. destruct a as [text|r]; [done|].
  destruct (raise_for_status url r); [done|].
  cbn [fst]. rewrite (written_app [_; _; _]). apply written_write_chunks.
Qed.








(** A resume that meets no failure, evaluated: one request with the range
    header, the two missing bytes appended, the total reported as
    [2 + 2]. *)
Example download_segment_resume_run :
  let run := download_segment partial_fs range_server "http://cdn/3.ts" "d" 3 5 MAX_RETRIES in
  run = ([EvRequest "http://cdn/3.ts" (<["Range" := "bytes=2-"]> HEADERS);
          EvOpen "d/segment_3.ts.part" ModeAB;
          EvProgress "Segment 3/5" (Some 4%Z) 2;
          EvWrite "d/segment_3.ts.part" [Byte.x43; Byte.x44];
          EvUpdate 2;
          EvRename "d/segment_3.ts.part" "d/segment_3.ts"],
         Returns "d/segment_3.ts") ∧
  fs_run partial_fs run.1 = {[ "d/segment_3.ts" := full_body ]}.
Proof. by vm_compute. Qed.

(** ** Evaluating a run *)

(** For a goal [∃ trace, run = Some (trace, outcome) ∧ P trace] on closed
    inputs: compute the run, check the outcome and go on with [P] at the
    trace computed. *)
Ltac evaluate_run :=
  lazymatch goal with
  | |- ∃ trace, ?run = Some (trace, _) ∧ _ =>
      let Hrun := fresh "Hrun" in
      destruct run as [[? ?]|] eqn:Hrun; vm_compute in Hrun;
      [|discriminate Hrun];
      injection Hrun as <- <-; eexists; split; [reflexivity|]
  end.

(** ** Order of the manifest *)

(** C1, evaluated. Ten segments, all fetched, completing in index order:
    the call returns, but the manifest lists [segment_10.ts] right after
    [segment_1.ts], because [sorted] compares the paths as strings. The
    manifest is not in index order. *)
Theorem manifest_order_ten_segments :
  ∃ trace,
    download_and_merge_segments ten_env ∅ (uris 10) "downloads" "movie" 4
      = Some (trace, Finished) ∧
    written_to "downloads/movie_concat.txt" trace
      = manifest_line ten_env <$>
          (local_filename "downloads" <$> [1; 10; 2; 3; 4; 5; 6; 7; 8; 9]) ∧
    written_to "downloads/movie_concat.txt" trace
      ≠ manifest_line ten_env <$> (local_filename "downloads" <$> seq 1 10).
Proof.
  evaluate_run. split; by vm_compute.
Qed.

(** The order is the same whatever the directory is: as strings,
    [segment_10.ts] comes before [segment_2.ts]. *)
Lemma sorted_is_lexicographic :
  sorted ["segment_2.ts"; "segment_10.ts"] = ["segment_10.ts"; "segment_2.ts"].
Proof. by vm_compute. Qed.

(** ** Jobs *)

(** A call succeeds as soon as one attempt within the limit does. *)
Lemma retry_loop_succeeds (net : nat → Attempt) (url temp local : string)
    (h : gmap string string) (dl idx total retries attempt n : nat) :
  (∃ k, attempt ≤ k < attempt + n ∧ attempt_error url (net k) = None) →
  (retry_loop net url temp local h dl idx total retries attempt n).2 = Returns local.
Proof.
  revert attempt. induction n as [|n IH]; intros attempt (k & Hk & Hgood); [lia|].
  simpl.
  destruct (try_fetch_once url temp h dl idx total (net attempt)) as (He & _ & _).
  destruct (try_fetch url temp h dl idx total (net attempt)) as [evs exc].
  simpl in He. subst exc.
  destruct (attempt_error url (net attempt)) as [text|] eqn:Herr; [|done].
  specialize (IH (S attempt)).
  destruct (retry_loop net url temp local h dl idx total retries (S attempt) n)
    as [rest res]. simpl in *. apply IH.
  exists k. split; [|done].
  destruct (decide (k = attempt)) as [->|?]; [congruence | lia].
Qed.

(** Every call with at least one attempt starts with a request. *)
Lemma retry_loop_requests_url (net : nat → Attempt) (url temp local : string)
    (h : gmap string string) (dl idx total retries attempt n : nat) :
  0 < n →
  url ∈ requested (retry_loop net url temp local h dl idx total retries attempt n).1.
Proof.
  destruct n as [|n]; [lia|]. intros _. simpl.
  assert (∃ evs', (try_fetch url temp h dl idx total (net attempt)).1
                  = EvRequest url h :: evs') as [evs' Hevs].
  { unfold try_fetch. destruct (net attempt) as [|r]; [by eexists|].
    destruct (raise_for_status url r); by eexists. }
  destruct (try_fetch url temp h dl idx total (net attempt)) as [evs [text|]];
    simpl in Hevs; subst evs.
  - destruct (retry_loop net url temp local h dl idx total retries (S attempt) n)
      as [rest res]. simpl. unfold requested. simpl. set_solver.
  - simpl. unfold requested. simpl. set_solver.
Qed.

Lemma run_job_events (env : Env) (d : string) (total : nat) (fs : FS)
    (job : nat * string) :
  Forall (job_event d) (run_job env d total fs job).1.
Proof.
  eapply Forall_impl; [apply retry_loop_events|].
  intros ev Hev. by exists job.1.
Qed.

Lemma drain_events (env : Env) (d : string) (total : nat) (fs : FS)
    (queue : list (nat * string)) :
  Forall (job_event d) (drain env d total fs queue).
Proof.
  revert fs. induction queue as [|job rest IH]; intros fs; simpl; [constructor|].
  apply Forall_app. split; [apply run_job_events | apply IH].
Qed.

(** Every job drained is run: its URL is requested. *)
Lemma drain_requests (env : Env) (d : string) (total : nat) (fs : FS)
    (queue : list (nat * string)) (j : nat) (u : string) :
  (j, u) ∈ queue → u ∈ requested (drain env d total fs queue).
Proof.
  revert fs. induction queue as [|job rest IH]; intros fs Hin; [set_solver|].
  simpl. unfold requested. rewrite bind_app. apply elem_of_app.
  apply elem_of_cons in Hin as [<-|Hin].
  - left. apply retry_loop_requests_url. unfold MAX_RETRIES. lia.
  - right. by apply IH.
Qed.

Lemma run_job_succeeds (env : Env) (d : string) (total : nat) (fs : FS)
    (j : nat) (u : string) :
  (∃ k, 1 ≤ k ≤ MAX_RETRIES ∧ attempt_error u (net env j k) = None) →
  (run_job env d total fs (j, u)).2 = Returns (local_filename d j).
Proof.
  intros (k & Hk & Hgood). apply retry_loop_succeeds.
  exists k. split; [lia | done].
Qed.

Lemma run_job_fails (env : Env) (d : string) (total : nat) (fs : FS)
    (j : nat) (u : string) :
  (∀ k, 1 ≤ k ≤ MAX_RETRIES → is_Some (attempt_error u (net env j k))) →
  (run_job env d total fs (j, u)).2
  = Raises (RuntimeError ("Failed to download segment " +:+ pretty j +:+ " after "
                          +:+ pretty MAX_RETRIES +:+ " retries.")).
Proof.
  intros Hbad. apply retry_loop_exhausted. intros k Hk. apply Hbad. lia.
Qed.

Lemma as_completed_cons (lbl : Labels) (env : Env) (d : string) (total : nat)
    (fs : FS) (job : nat * string) (rest : list (nat * string)) (files : list string) :
  as_completed lbl env d total fs (job :: rest) files
  = match (run_job env d total fs job).2 with
    | Returns segment_file =>
        ((run_job env d total fs job).1
         ++ (as_completed lbl env d total (fs_run fs (run_job env d total fs job).1)
               rest (files ++ [segment_file])).1,
         (as_completed lbl env d total (fs_run fs (run_job env d total fs job).1)
            rest (files ++ [segment_file])).2)
    | Raises e =>
        ((run_job env d total fs job).1 ++ [EvPrint (msg_failed lbl job.1 (exn_str e))],
         inr rest)
    end.
Proof.
  cbn [as_completed].
  destruct (run_job env d total fs job) as [tr [p|e]]; cbn [fst snd]; [|done].
  by destruct (as_completed lbl env d total (fs_run fs tr) rest (files ++ [p])).
Qed.

(** The loop over completed jobs stops at the first failed one, having
    printed its index, with the rest of the jobs still to come. *)
Lemma as_completed_stops (lbl : Labels) (env : Env) (d : string) (total : nat)
    (fs : FS) (finished queue : list (nat * string)) (idx : nat) (url : string)
    (files : list string) :
  (∀ j u, (j, u) ∈ finished →
          ∃ k, 1 ≤ k ≤ MAX_RETRIES ∧ attempt_error u (net env j k) = None) →
  (∀ k, 1 ≤ k ≤ MAX_RETRIES → is_Some (attempt_error url (net env idx k))) →
  ∃ tr_jobs,
    as_completed lbl env d total fs (finished ++ (idx, url) :: queue) files
    = (tr_jobs ++ [EvPrint (msg_failed lbl idx
                              ("Failed to download segment " +:+ pretty idx
                               +:+ " after " +:+ pretty MAX_RETRIES +:+ " retries."))],
       inr queue) ∧
    Forall (job_event d) tr_jobs.
Proof.
  intros Hgood Hbad. revert fs files.
  induction finished as [|[j u] finished IH]; intros fs files.
  - rewrite app_nil_l, as_completed_cons, run_job_fails by done.
    eexists. split; [reflexivity|]. apply run_job_events.
  - rewrite <- app_comm_cons, as_completed_cons, run_job_succeeds
      by (apply Hgood; set_solver).
    destruct (IH (λ j' u' Hin, Hgood j' u' (proj2 (elem_of_cons _ _ _) (or_intror Hin)))
                 (fs_run fs (run_job env d total fs (j, u)).1)
                 (files ++ [local_filename d j]))
      as (tr_jobs & -> & Hjobs).
    exists ((run_job env d total fs (j, u)).1 ++ tr_jobs).
    split; [cbn [fst snd]; by rewrite app_assoc|].
    apply Forall_app. split; [apply run_job_events | done].
Qed.

(** ** The first failure *)

(** Three segments, one worker, segment 1 fails for good. The failure is
    reported after the five attempts on segment 1 (events 5 to 19), when no
    request for segment 2 or 3 has been sent. The pool is then shut down
    with [cancel_futures] off, and segments 2 and 3 are fetched and renamed
    all the same before the process exits with status 1. *)
Lemma queued_jobs_not_cancelled :
  ∃ trace,
    download_and_merge_segments first_dead_env ∅ (uris 3) "downloads" "movie" 1
      = Some (trace, SystemExit 1) ∧
    trace !! 20 = Some (EvPrint "[!] Segment 1 failed to download: Failed to download segment 1 after 5 retries.") ∧
    trace !! 21 = Some (EvShutdown true false) ∧
    requested (take 20 trace) = replicate 5 "http://cdn/1.ts" ∧
    requested (drop 22 trace) = ["http://cdn/2.ts"; "http://cdn/3.ts"] ∧
    dom (fs_run ∅ trace) = {[ "downloads/segment_2.ts"; "downloads/segment_3.ts" ]}.
Proof.
  evaluate_run. repeat split; by vm_compute.
Qed.

(** C7, as the code has it. All jobs are submitted before any result is
    looked at. When the first failed job is met in completion order, the
    call prints a message with its index and the process exits with status
    1: nothing is returned, no manifest is written and no muxer is run. On
    the way out the pool is shut down with [wait] on and [cancel_futures]
    off, so every job that had not completed is still run to its end. *)
Theorem first_failure_exits (env : Env) (fs : FS) (segments : list string)
    (d f : string) (parallel : Z) (finished queue : list (nat * string))
    (idx : nat) (url : string) :
  (0 < parallel)%Z →
  completion env = finished ++ (idx, url) :: queue →
  (∀ j u, (j, u) ∈ finished →
          ∃ k, 1 ≤ k ≤ MAX_RETRIES ∧ attempt_error u (net env j k) = None) →
  (∀ k, 1 ≤ k ≤ MAX_RETRIES → is_Some (attempt_error url (net env idx k))) →
  ∃ tr_jobs tr_pool,
    tr_pool
    = [EvPrint (msg_start hls_labels (length segments) parallel)]
      ++ (EvPool parallel :: (uncurry EvSubmit <$> jobs segments))
      ++ (tr_jobs
          ++ [EvPrint ("[!] Segment " +:+ pretty idx +:+ " failed to download: "
                       +:+ "Failed to download segment " +:+ pretty idx
                       +:+ " after " +:+ pretty MAX_RETRIES +:+ " retries.")])
      ++ [EvShutdown true false] ∧
    download_and_merge_segments env fs segments d f parallel
    = Some (tr_pool ++ drain env d (length segments) (fs_run fs tr_pool) queue,
            SystemExit 1) ∧
    Forall (job_event d) tr_jobs ∧
    Forall (job_event d) (drain env d (length segments) (fs_run fs tr_pool) queue) ∧
    (∀ j u, (j, u) ∈ queue →
            u ∈ requested (drain env d (length segments) (fs_run fs tr_pool) queue)).
Proof.
  intros Hpos Hcompl Hgood Hbad.
  destruct (as_completed_stops hls_labels env d (length segments) fs finished queue
              idx url [] Hgood Hbad) as (tr_jobs & Hloop & Hjobs).
  exists tr_jobs. eexists. split; [reflexivity|]. split; [|split; [|split]].
  - unfold download_and_merge_segments, fetch_and_merge.
    rewrite (proj2 (Z.leb_gt parallel 0)) by done.
    rewrite Hcompl, Hloop. reflexivity.
  - done.
  - apply drain_events.
  - intros j u Hin. by eapply drain_requests.
Qed.

Lemma first_failure_exits_witness :
  (0 < 1)%Z ∧
  completion first_dead_env
    = [] ++ (1, "http://cdn/1.ts") :: [(2, "http://cdn/2.ts"); (3, "http://cdn/3.ts")] ∧
  ∃ trace,
    download_and_merge_segments first_dead_env ∅ (uris 3) "downloads" "movie" 1
    = Some (trace, SystemExit 1).
Proof.
  split; [reflexivity|]. split; [reflexivity|].
  destruct (first_failure_exits first_dead_env ∅ (uris 3) "downloads" "movie" 1
              [] [(2, "http://cdn/2.ts"); (3, "http://cdn/3.ts")] 1 "http://cdn/1.ts")
    as (tr_jobs & tr_pool & _ & Hrun & _).
  - reflexivity.
  - reflexivity.
  - intros j u Hin. by apply elem_of_nil in Hin.
  - intros k _. simpl. by eexists.
  - eexists. exact Hrun.
Defined.

(** ** Frames: what a trace leaves alone *)

Lemma not_elem_of_one (p q : string) : p ≠ q → p ∉ [q].
Proof. intros Hne Hin. by apply list_elem_of_singleton in Hin. Qed.

Lemma fs_step_untouched (fs : FS) (ev : Event) (p : string) :
  p ∉ touched ev → fs_step fs ev !! p = fs !! p.
Proof.
  destruct ev as [| q m | | q c | | src dst | q | | | | | |]; simpl; try done.
  - intros Hp. assert (q ≠ p) by set_solver.
    destruct m; [destruct (fs !! q); [done|] | |]; by rewrite lookup_insert_ne.
  - intros Hp. assert (q ≠ p) by set_solver. by rewrite lookup_insert_ne.
  - intros Hp. assert (src ≠ p ∧ dst ≠ p) as [? ?] by set_solver.
    destruct (fs !! src); [|done].
    rewrite lookup_insert_ne by done. by rewrite lookup_delete_ne.
  - intros Hp. assert (q ≠ p) by set_solver. by rewrite lookup_delete_ne.
Qed.

Lemma fs_run_untouched (fs : FS) (trace : list Event) (p : string) :
  Forall (λ ev, p ∉ touched ev) trace → fs_run fs trace !! p = fs !! p.
Proof.
  intros Hall. revert fs. induction Hall as [|ev trace Hev _ IH]; intros fs; [done|].
  simpl. rewrite IH. by apply fs_step_untouched.
Qed.

(** No job ever makes a finished segment disappear. *)
Lemma fs_step_local_kept (d : string) (j : nat) (fs : FS) (ev : Event) :
  job_event d ev →
  is_Some (fs !! local_filename d j) →
  is_Some (fs_step fs ev !! local_filename d j).
Proof.
  intros [i Hev] Hsome.
  destruct ev as [| q m | | q c | | src dst | q | | | | | |]; simpl in *; try done.
  - destruct Hev as [-> ->]. destruct (fs !! temp_filename d i); [done|].
    by rewrite lookup_insert_ne by apply temp_neq_local.
  - subst q. by rewrite lookup_insert_ne by apply temp_neq_local.
  - destruct Hev as [-> ->]. destruct (fs !! temp_filename d i); [|done].
    destruct (decide (local_filename d i = local_filename d j)) as [->|Hne].
    + by rewrite lookup_insert_eq.
    + rewrite lookup_insert_ne by done.
      by rewrite lookup_delete_ne by apply temp_neq_local.
Qed.

Lemma fs_run_local_kept (d : string) (j : nat) (fs : FS) (trace : list Event) :
  Forall (job_event d) trace →
  is_Some (fs !! local_filename d j) →
  is_Some (fs_run fs trace !! local_filename d j).
Proof.
  intros Hall. revert fs. induction Hall as [|ev trace Hev _ IH]; intros fs H; [done|].
  simpl. apply IH. by apply fs_step_local_kept.
Qed.

(** ** The loop, when every job succeeds *)

Lemma run_job_leaves_local (env : Env) (d : string) (total : nat) (fs : FS)
    (j : nat) (u : string) :
  (run_job env d total fs (j, u)).2 = Returns (local_filename d j) →
  is_Some (fs_run fs (run_job env d total fs (j, u)).1 !! local_filename d j).
Proof.
  intros Hres. unfold run_job in *. simpl in *.
  destruct (download_segment fs (net env j) u d j total MAX_RETRIES)
    as [tr res] eqn:Hrun. simpl in *. subst res.
  apply download_segment_returns in Hrun as (_ & pre & _ & _ & Hlocal & _).
  by rewrite Hlocal.
Qed.

Lemma as_completed_all (lbl : Labels) (env : Env) (d : string) (total : nat)
    (fs : FS) (queue : list (nat * string)) (files : list string) :
  (∀ j u, (j, u) ∈ queue →
          ∃ k, 1 ≤ k ≤ MAX_RETRIES ∧ attempt_error u (net env j k) = None) →
  ∃ tr_jobs,
    as_completed lbl env d total fs queue files
    = (tr_jobs, inl (files ++ (local_filename d <$> queue.*1))) ∧
    Forall (job_event d) tr_jobs ∧
    ∀ j, j ∈ queue.*1 → is_Some (fs_run fs tr_jobs !! local_filename d j).
Proof.
  revert fs files. induction queue as [|[j u] queue IH]; intros fs files Hgood.
  - exists []. simpl. rewrite app_nil_r. split; [done|]. split; [constructor|].
    intros j Hj. by apply elem_of_nil in Hj.
  - rewrite as_completed_cons, run_job_succeeds by (apply Hgood; set_solver).
    pose proof (run_job_leaves_local env d total fs j u
                  (run_job_succeeds env d total fs j u
                     (Hgood j u (proj2 (elem_of_cons _ _ _) (or_introl eq_refl)))))
      as Hhere.
    destruct (IH (fs_run fs (run_job env d total fs (j, u)).1)
                 (files ++ [local_filename d j])
                 (λ j' u' Hin, Hgood j' u' (proj2 (elem_of_cons _ _ _) (or_intror Hin))))
      as (tr_jobs & -> & Hjobs & Hlocals).
    exists ((run_job env d total fs (j, u)).1 ++ tr_jobs). cbn [fst snd].
    split; [by rewrite <- app_assoc|]. split.
    + apply Forall_app. split; [apply run_job_events | done].
    + intros j' Hj'. rewrite fs_run_app. rewrite fmap_cons in Hj'.
      apply elem_of_cons in Hj' as [->|Hj']; [|by apply Hlocals].
      by apply fs_run_local_kept.
Qed.

(** ** Merge and cleanup *)

Lemma concat_neq_local (d f : string) (j : nat) :
  Path.join d (f +:+ "_concat.txt") ≠ local_filename d j.
Proof.
  unfold local_filename, segment_name. intros H.
  destruct (join_prefix d (f +:+ "_concat.txt")) as [p1 H1].
  destruct (join_prefix d ("segment_" +:+ pretty j +:+ ".ts")) as [p2 H2].
  rewrite H1, H2 in H. clear H1 H2.
  change "_concat.txt" with ("_concat.tx" +:+ "t") in H.
  change ".ts" with (".t" +:+ "s") in H.
  rewrite <- !string_app_assoc in H.
  by apply string_last_inj in H.
Qed.

(** Writing the manifest creates the concat file and changes no other. *)
Lemma write_manifest_frame (env : Env) (concat_file : string) (files : list string)
    (fs : FS) :
  is_Some (fs_run fs (write_manifest env concat_file files) !! concat_file) ∧
  ∀ p, p ≠ concat_file →
       fs_run fs (write_manifest env concat_file files) !! p = fs !! p.
Proof.
  unfold write_manifest.
  assert (∀ (lines : list bytes) (fs' : FS),
            is_Some (fs' !! concat_file) →
            is_Some (fs_run fs' (EvWrite concat_file <$> lines) !! concat_file))
    as Hwrites.
  { induction lines as [|l lines IH]; intros fs' Hsome; [done|].
    simpl. apply IH. by rewrite lookup_insert_eq. }
  split.
  - simpl. apply Hwrites. by rewrite lookup_insert_eq.
  - intros p Hp. apply fs_run_untouched.
    constructor; [by apply not_elem_of_one|].
    apply Forall_fmap, Forall_true. intros l. by apply not_elem_of_one.
Qed.

(** Removing existing, distinct files succeeds for each of them. *)
Lemma remove_all_ok (fs : FS) (paths : list string) :
  NoDup paths →
  (∀ p, p ∈ paths → is_Some (fs !! p)) →
  remove_all fs paths = (EvRemove <$> paths, None).
Proof.
  intros Hnd. revert fs. induction Hnd as [|p paths Hp Hnd IH]; intros fs Hall; [done|].
  simpl. rewrite (proj2 (exists_true fs p)) by (apply Hall; set_solver).
  rewrite IH; [done|].
  intros q Hq. rewrite lookup_delete_ne by set_solver. apply Hall. set_solver.
Qed.

Lemma fs_run_removed (fs : FS) (paths : list string) (p : string) :
  p ∈ paths → fs_run fs (EvRemove <$> paths) !! p = None.
Proof.
  revert fs. induction paths as [|q paths IH]; intros fs Hin; [set_solver|].
  simpl. destruct (decide (p ∈ paths)) as [Hrest|Hrest]; [by apply IH|].
  apply elem_of_cons in Hin as [->|Hin]; [|done].
  rewrite fs_run_untouched; [by rewrite lookup_delete_eq|].
  apply Forall_fmap, Forall_forall. intros r Hr.
  apply not_elem_of_one. by intros ->.
Qed.

(** Once the muxer has run and exited, with whatever code, every segment
    file and the concat file are removed. *)
Lemma merge_and_cleanup_removes (lbl : Labels) (env : Env) (fs : FS) (d f : string)
    (files : list string) (rc : Z) (out : option bytes) :
  muxer env = MuxExits rc out →
  NoDup files →
  (∀ p, p ∈ files → is_Some (fs !! p)) →
  Path.join d (f +:+ "_concat.txt") ∉ files →
  ∃ trace,
    merge_and_cleanup lbl env fs d f files = Some (trace, Finished) ∧
    (∃ cmd, EvRun cmd rc ∈ trace) ∧
    (∀ p, p ∈ files → fs_run fs trace !! p = None) ∧
    fs_run fs trace !! Path.join d (f +:+ "_concat.txt") = None.
Proof.
  intros Hmux Hnd Hfiles Hconcat. unfold merge_and_cleanup.
  set (concat_file := Path.join d (f +:+ "_concat.txt")) in *.
  set (tr_manifest := write_manifest env concat_file files).
  destruct (write_manifest_frame env concat_file files fs) as [Hc Hframe].
  fold tr_manifest in Hc, Hframe.
  destruct (ensure_unique_filename_total (fs_run fs tr_manifest) d f ".mp4")
    as [mp4 Hmp4].
  pose proof (ensure_unique_filename_fresh _ _ _ _ _ Hmp4) as Hfresh.
  rewrite Hmp4, Hmux. cbn [mbind option_bind].
  set (tr_mux := EvRun (ffmpeg_cmd concat_file mp4) rc
                 :: match out with
                    | Some b => [EvOpen mp4 ModeWB; EvWrite mp4 b]
                    | None => []
                    end ++ [EvPrint (msg_saved lbl mp4)]).
  assert (∀ p, p ∈ files ++ [concat_file] →
               is_Some (fs_run (fs_run fs tr_manifest) tr_mux !! p)) as Hpresent.
  { intros p Hp.
    assert (is_Some (fs_run fs tr_manifest !! p)) as Hsome.
    { apply elem_of_app in Hp as [Hp|Hp].
      - rewrite Hframe; [by apply Hfiles|]. intros ->. done.
      - apply list_elem_of_singleton in Hp as ->. done. }
    assert (p ≠ mp4) as Hne.
    { intros ->. rewrite Hfresh in Hsome. by destruct Hsome. }
    rewrite fs_run_untouched; [done|].
    unfold tr_mux. constructor; [apply not_elem_of_nil|].
    destruct out; repeat constructor;
      (apply not_elem_of_nil || by apply not_elem_of_one). }
  rewrite remove_all_ok; [| |done].
  2:{ apply NoDup_app. split; [done|]. split; [|apply NoDup_singleton].
      intros p Hp ->%list_elem_of_singleton. done. }
  eexists. split; [reflexivity|]. split; [|split].
  - exists (ffmpeg_cmd concat_file mp4). unfold tr_mux. set_solver.
  - intros p Hp. rewrite !fs_run_app. apply fs_run_removed. set_solver.
  - rewrite !fs_run_app. apply fs_run_removed. set_solver.
Qed.

Lemma fs_run_inert (fs : FS) (trace : list Event) :
  Forall (λ ev, touched ev = []) trace → fs_run fs trace = fs.
Proof.
  intros Hall. apply map_eq. intros p. apply fs_run_untouched.
  eapply Forall_impl; [exact Hall|]. intros ev Hev. rewrite Hev. apply not_elem_of_nil.
Qed.

Lemma jobs_indices (segments : list string) :
  (jobs segments).*1 = seq 1 (length segments).
Proof.
  unfold jobs. rewrite fmap_imap.
  change (imap (λ i (_ : string), i + 1) segments = seq 1 (length segments)).
  rewrite (imap_seq_0 segments (λ i, i + 1)).
  rewrite <- fmap_S_seq. apply list_fmap_ext. intros _ i _. lia.
Qed.

(** ** Cleanup does not depend on the muxer *)

(** Two segments, a muxer that exits with code 1 and writes nothing: the
    call returns normally, and afterwards neither segment file is on disk
    (nor anything else: there is no output and no manifest). *)
Lemma segments_deleted_after_mux_failure :
  ∃ trace,
    download_and_merge_segments mux_fails_env ∅ (uris 2) "downloads" "movie" 4
      = Some (trace, Finished) ∧
    EvRun (ffmpeg_cmd "downloads/movie_concat.txt" "downloads/movie.mp4") 1 ∈ trace ∧
    EvRemove "downloads/segment_1.ts" ∈ trace ∧
    EvRemove "downloads/segment_2.ts" ∈ trace ∧
    fs_run ∅ trace !! "downloads/segment_1.ts" = None ∧
    fs_run ∅ trace !! "downloads/segment_2.ts" = None ∧
    fs_run ∅ trace = ∅.
Proof.
  evaluate_run.
  split; [apply list_elem_of_In; simpl; tauto|].
  split; [apply list_elem_of_In; simpl; tauto|].
  split; [apply list_elem_of_In; simpl; tauto|].
  repeat split; by vm_compute.
Qed.

(** C2, as the code has it. When every segment was fetched and the muxer
    was started and has exited, with any exit code and with or without an
    output file, the call returns normally and every segment file and the
    concat file have been removed. The exit code is never read. *)
Theorem cleanup_whatever_exit_code (env : Env) (fs : FS) (segments : list string)
    (d f : string) (parallel rc : Z) (out : option bytes) :
  (0 < parallel)%Z →
  muxer env = MuxExits rc out →
  completion env ≡ₚ jobs segments →
  (∀ j u, (j, u) ∈ jobs segments →
          ∃ k, 1 ≤ k ≤ MAX_RETRIES ∧ attempt_error u (net env j k) = None) →
  ∃ trace,
    download_and_merge_segments env fs segments d f parallel = Some (trace, Finished) ∧
    (∃ cmd, EvRun cmd rc ∈ trace) ∧
    (∀ idx, 1 ≤ idx ≤ length segments →
            fs_run fs trace !! local_filename d idx = None) ∧
    fs_run fs trace !! Path.join d (f +:+ "_concat.txt") = None.
Proof.
  intros Hpos Hmux Hperm Hgood.
  unfold download_and_merge_segments, fetch_and_merge.
  rewrite (proj2 (Z.leb_gt parallel 0)) by done.
  destruct (as_completed_all hls_labels env d (length segments) fs (completion env) [])
    as (tr_jobs & -> & Hjobs & Hlocals).
  { intros j u Hin. apply Hgood. by rewrite <- Hperm. }
  rewrite app_nil_l.
  set (tr_pool := [EvPrint (msg_start hls_labels (length segments) parallel)]
                  ++ (EvPool parallel :: (uncurry EvSubmit <$> jobs segments))
                  ++ tr_jobs ++ [EvShutdown true false]).
  assert (fs_run fs tr_pool = fs_run fs tr_jobs) as Hfs.
  { unfold tr_pool. rewrite app_assoc, app_assoc, fs_run_app.
    rewrite (fs_run_inert _ [_]) by by repeat constructor.
    rewrite fs_run_app. f_equal. apply fs_run_inert.
    apply Forall_app. split; [by repeat constructor|].
    constructor; [done|]. apply Forall_fmap, Forall_true. by intros [j u]. }
  assert ((completion env).*1 ≡ₚ seq 1 (length segments)) as Hidx.
  { by rewrite Hperm, jobs_indices. }
  destruct (merge_and_cleanup_removes hls_labels env (fs_run fs tr_pool) d f
              (local_filename d <$> (completion env).*1) rc out)
    as (tr_merge & -> & Hrun & Hfiles & Hconcat).
  - done.
  - apply NoDup_fmap_2; [intros i j; apply local_filename_inj|].
    rewrite Hidx. apply NoDup_seq.
  - intros p (j & -> & Hj)%list_elem_of_fmap. rewrite Hfs. by apply Hlocals.
  - intros (j & Heq & _)%list_elem_of_fmap. by apply concat_neq_local in Heq.
  - cbn [mbind option_bind]. eexists. split; [reflexivity|]. split; [|split].
    + destruct Hrun as [cmd Hcmd]. exists cmd. apply elem_of_app. by right.
    + intros idx Hidx'. rewrite fs_run_app. apply Hfiles.
      apply list_elem_of_fmap. exists idx. split; [done|].
      rewrite Hidx. apply elem_of_seq. lia.
    + by rewrite fs_run_app.
Qed.

Lemma cleanup_whatever_exit_code_witness :
  (0 < 4)%Z ∧
  muxer mux_fails_env = MuxExits 1 None ∧
  ∃ trace,
    download_and_merge_segments mux_fails_env ∅ (uris 2) "downloads" "movie" 4
      = Some (trace, Finished) ∧
    (∃ cmd, EvRun cmd 1 ∈ trace) ∧
    (∀ idx, 1 ≤ idx ≤ length (uris 2) →
            fs_run ∅ trace !! local_filename "downloads" idx = None) ∧
    fs_run ∅ trace !! Path.join "downloads" ("movie" +:+ "_concat.txt") = None.
Proof.
  split; [reflexivity|]. split; [reflexivity|].
  apply (cleanup_whatever_exit_code mux_fails_env ∅ (uris 2) "downloads" "movie"
           4 1 None).
  - reflexivity.
  - reflexivity.
  - apply (Permutation_swap _ _ []).
  - intros j u _. exists 1. split; [unfold MAX_RETRIES; lia | reflexivity].
Defined.

(** ** The worker count *)

Lemma pools_app (t1 t2 : list Event) : pools (t1 ++ t2) = pools t1 ++ pools t2.
Proof. unfold pools. apply bind_app. Qed.

Lemma pools_none (trace : list Event) :
  Forall (λ ev, ∀ w, ev ≠ EvPool w) trace → pools trace = [].
Proof.
  induction 1 as [|ev trace Hev _ IH]; [done|].
  change (ev :: trace) with ([ev] ++ trace).
  rewrite pools_app, IH, app_nil_r. destruct ev; try done.
  by destruct (Hev max_workers).
Qed.

(** A segment job builds no pool. *)
Lemma pools_jobs (d : string) (trace : list Event) :
  Forall (job_event d) trace → pools trace = [].
Proof.
  intros Hall. apply pools_none. eapply Forall_impl; [exact Hall|].
  intros ev [idx Hev] w ->. exact Hev.
Qed.

Lemma as_completed_pools (lbl : Labels) (env : Env) (d : string) (total : nat)
    (fs : FS) (queue : list (nat * string)) (files : list string) :
  pools (as_completed lbl env d total fs queue files).1 = [].
Proof.
  revert fs files. induction queue as [|job queue IH]; intros fs files; [done|].
  rewrite as_completed_cons.
  pose proof (pools_jobs d _ (run_job_events env d total fs job)) as Hjob.
  destruct (run_job env d total fs job) as [tr [q|e]]; cbn [fst snd] in *.
  - by rewrite pools_app, Hjob, IH.
  - by rewrite pools_app, Hjob.
Qed.

Lemma remove_all_pools (fs : FS) (paths : list string) :
  pools (remove_all fs paths).1 = [].
Proof.
  revert fs. induction paths as [|q paths IH]; intros fs; [done|].
  cbn [remove_all]. destruct (Path.exists_ fs q); [|done].
  specialize (IH (delete q fs)).
  by destruct (remove_all (delete q fs) paths) as [tr e].
Qed.

(** From the manifest on, no pool is built. *)
Lemma merge_and_cleanup_pools (lbl : Labels) (env : Env) (fs : FS) (d f : string)
    (files : list string) :
  ∃ trace outcome,
    merge_and_cleanup lbl env fs d f files = Some (trace, outcome) ∧
    pools trace = [].
Proof.
  unfold merge_and_cleanup.
  set (concat_file := Path.join d (f +:+ "_concat.txt")).
  destruct (ensure_unique_filename_total
              (fs_run fs (write_manifest env concat_file files)) d f ".mp4")
    as [mp4 ->].
  cbn [mbind option_bind].
  assert (pools (write_manifest env concat_file files) = []) as Hmanifest.
  { apply pools_none. unfold write_manifest. constructor; [done|].
    apply Forall_fmap, Forall_true. done. }
  destruct (muxer env) as [|rc out].
  - eexists _, _. split; [reflexivity|]. by rewrite pools_app, Hmanifest.
  - match goal with
    | |- context [remove_all ?a ?b] =>
        pose proof (remove_all_pools a b) as Hrm;
        destruct (remove_all a b) as [tr_c exc]
    end.
    cbn [fst] in Hrm. eexists _, _. split; [reflexivity|].
    rewrite !pools_app, Hmanifest, Hrm. by destruct out.
Qed.

(** A run whose pool can be built builds that one pool, whatever happens
    next. *)
Lemma fetch_and_merge_pools (lbl : Labels) (env : Env) (fs : FS)
    (segments : list string) (d f : string) (w : Z) :
  (0 < w)%Z →
  ∃ trace outcome,
    fetch_and_merge lbl env fs segments d f w = Some (trace, outcome) ∧
    pools trace = [w].
Proof.
  intros Hw. unfold fetch_and_merge. rewrite (proj2 (Z.leb_gt w 0)) by done.
  pose proof (as_completed_pools lbl env d (length segments) fs (completion env) [])
    as Hloop.
  destruct (as_completed lbl env d (length segments) fs (completion env) [])
    as [tr_loop [files|queue]]; cbn [fst] in Hloop.
  - match goal with
    | |- context [merge_and_cleanup ?a ?b ?c ?e ?g ?h] =>
        destruct (merge_and_cleanup_pools a b c e g h)
          as (tr_merge & outcome & -> & Hmerge)
    end.
    cbn [mbind option_bind]. eexists _, _. split; [reflexivity|].
    rewrite !pools_app, Hloop, Hmerge.
    change (pools (EvPool w :: ?l)) with (w :: pools l).
    rewrite (pools_none (uncurry EvSubmit <$> _)); [done|].
    apply Forall_fmap, Forall_true. by intros [j u].
  - eexists _, _. split; [reflexivity|].
    rewrite !pools_app, Hloop.
    rewrite (pools_jobs d (drain _ _ _ _ _)) by apply drain_events.
    change (pools (EvPool w :: ?l)) with (w :: pools l).
    rewrite (pools_none (uncurry EvSubmit <$> _)); [done|].
    apply Forall_fmap, Forall_true. by intros [j u].
Qed.

(** C9. The worker count is the integer given with [--parallel], 4 when
    the option is absent, and [main] hands it unchanged to
    [download_and_merge_segments], which passes it as it is to the
    constructor of the pool. A count below 1 is rejected there: the
    constructor raises [ValueError], which nothing catches, and the call
    ends after its first message with no pool built, no job submitted, no
    request sent and no file touched. A count of at least 1 is the size of
    the one pool the call builds. [download_dash], which takes no worker
    count, builds one pool of 4. *)
Theorem worker_count_below_one_rejected :
  (∀ url name dir, arg_parallel (parse_args url name dir None) = 4%Z) ∧
  (∀ url name dir n, arg_parallel (parse_args url name dir (Some n)) = n) ∧
  (∀ f args, ∃ filename,
     main false true f args
     = CallSubtitlesThenSegments (arg_dir args) filename (arg_parallel args)) ∧
  (∀ env fs segments d f parallel,
     (parallel < 1)%Z →
     download_and_merge_segments env fs segments d f parallel
     = Some ([EvPrint (msg_start hls_labels (length segments) parallel)],
             Uncaught (ValueError "max_workers must be greater than 0"))) ∧
  (∀ env fs segments d f parallel,
     (1 ≤ parallel)%Z →
     ∃ trace outcome,
       download_and_merge_segments env fs segments d f parallel
       = Some (trace, outcome) ∧
       pools trace = [parallel]) ∧
  (∀ env fs segments d f,
     ∃ trace outcome,
       download_dash env fs segments d f = Some (trace, outcome) ∧
       pools trace = [4%Z]).
Proof.
  split; [done|]. split; [done|]. split; [|split; [|split]].
  - intros f args. unfold main. by eexists.
  - intros env fs segments d f parallel Hlt.
    unfold download_and_merge_segments, fetch_and_merge.
    by rewrite (proj2 (Z.leb_le parallel 0)) by lia.
  - intros. apply fetch_and_merge_pools. lia.
  - intros. by apply fetch_and_merge_pools.
Qed.

(** A worker count of 0 on an HLS playlist of ten segments: the start
    message, then the [ValueError] of the pool constructor. Nothing is
    requested and the directory stays empty. *)
Example zero_workers_run :
  let args := parse_args "http://cdn/v.m3u8" None None (Some 0%Z) in
  main false true "v" args = CallSubtitlesThenSegments "downloads" "v" 0 ∧
  download_and_merge_segments ten_env ∅ (uris 10) "downloads" "v" 0
  = Some ([EvPrint "[+] Starting parallel download of 10 segments with 0 workers"],
          Uncaught (ValueError "max_workers must be greater than 0")).
Proof. by vm_compute. Qed.

(** * Further properties *)

(** ** [download_segment]: success after failures *)

(** The loop when the attempt [m] rounds after [attempt] is the first one
    that does not raise. *)
Lemma retry_loop_first_success (net : nat → Attempt) (url temp local : string)
    (h : gmap string string) (dl idx total retries : nat) (m attempt n : nat) :
  m < n →
  (∀ j, attempt ≤ j < attempt + m → is_Some (attempt_error url (net j))) →
  attempt_error url (net (attempt + m)) = None →
  let run := retry_loop net url temp local h dl idx total retries attempt n in
  run.2 = Returns local ∧
  requests run.1 = S m ∧
  sleeps run.1 = (λ k, RETRY_BACKOFF ^ k) <$> seq attempt m ∧
  written run.1 = concat (received url ∘ net <$> seq attempt (S m)).
Proof.
  revert attempt n. induction m as [|m IH]; intros attempt n Hlt Hbad Hgood.
  - destruct n as [|n]; [lia|]. rewrite Nat.add_0_r in Hgood. simpl.
    destruct (try_fetch_once url temp h dl idx total (net attempt)) as (He & Hs & Hr).
    pose proof (written_try_fetch url temp h dl idx total (net attempt)) as Hw.
    destruct (try_fetch url temp h dl idx total (net attempt)) as [evs exc].
    simpl in He, Hs, Hr, Hw. rewrite He, Hgood. simpl.
    split; [done|]. split; [|split].
    + rewrite requests_app, Hr. done.
    + rewrite sleeps_app, Hs. done.
    + rewrite written_app, Hw, !app_nil_r. done.
  - destruct n as [|n]; [lia|]. simpl.
    destruct (try_fetch_once url temp h dl idx total (net attempt)) as (He & Hs & Hr).
    pose proof (written_try_fetch url temp h dl idx total (net attempt)) as Hw.
    destruct (Hbad attempt) as [text Htext]; [lia|].
    destruct (try_fetch url temp h dl idx total (net attempt)) as [evs exc].
    simpl in He, Hs, Hr, Hw. rewrite He, Htext.
    destruct (IH (S attempt) n) as (IHres & IHr & IHs & IHw).
    { lia. }
    { intros j Hj. apply Hbad. lia. }
    { by replace (S attempt + m) with (attempt + S m) by lia. }
    destruct (retry_loop net url temp local h dl idx total retries (S attempt) n)
      as [rest res]. simpl in *.
    split; [done|]. split; [|split].
    + rewrite requests_app, Hr.
      change (1 + requests rest = S (S m)). by rewrite IHr.
    + rewrite sleeps_app, Hs. simpl.
      change (RETRY_BACKOFF ^ attempt :: sleeps rest
              = RETRY_BACKOFF ^ attempt
                :: ((λ k, RETRY_BACKOFF ^ k) <$> seq (S attempt) m)).
      by rewrite IHs.
    + rewrite written_app, Hw.
      change (received url (net attempt) ++ written rest
              = received url (net attempt)
                ++ concat (received url ∘ net <$> seq (S attempt) (S m))).
      by rewrite IHw.
Qed.

(** X1. When attempt [k] is the first that does not raise, the call
    returns the final name after exactly [k] requests, having slept
    [RETRY_BACKOFF ^ j] seconds after each of the [k - 1] failed attempts
    [j] and not at all after the good one. *)
Theorem download_segment_succeeds_at (fs : FS) (net : nat → Attempt) (url d : string)
    (idx total retries k : nat) :
  1 ≤ k ≤ retries →
  (∀ j, 1 ≤ j < k → is_Some (attempt_error url (net j))) →
  attempt_error url (net k) = None →
  let run := download_segment fs net url d idx total retries in
  run.2 = Returns (local_filename d idx) ∧
  requests run.1 = k ∧
  sleeps run.1 = (λ j, RETRY_BACKOFF ^ j) <$> seq 1 (k - 1).
Proof.
  intros Hk Hbad Hgood.
  destruct (retry_loop_first_success net url (temp_filename d idx)
              (local_filename d idx)
              (segment_headers (already_downloaded fs d idx))
              (already_downloaded fs d idx) idx total retries (k - 1) 1 retries)
    as (Hres & Hr & Hs & _).
  - lia.
  - intros j Hj. apply Hbad. lia.
  - by replace (1 + (k - 1)) with k by lia.
  - split; [exact Hres|]. split; [|exact Hs].
    unfold download_segment. rewrite Hr. lia.
Qed.

Lemma download_segment_succeeds_at_witness :
  1 ≤ 2 ≤ MAX_RETRIES ∧
  attempt_error "http://cdn/3.ts" (breaks_once_server 2) = None ∧
  sleeps (download_segment partial_fs breaks_once_server "http://cdn/3.ts" "d" 3 5
            MAX_RETRIES).1 = (λ j, RETRY_BACKOFF ^ j) <$> seq 1 (2 - 1).
Proof.
  assert (1 ≤ 2 ≤ MAX_RETRIES) as Hk by (unfold MAX_RETRIES; lia).
  split; [exact Hk|]. split; [reflexivity|].
  refine (proj2 (proj2 (download_segment_succeeds_at partial_fs breaks_once_server
                          "http://cdn/3.ts" "d" 3 5 MAX_RETRIES 2 Hk _ eq_refl))).
  intros j Hj. assert (j = 1) as -> by lia. simpl. by eexists.
Defined.

(** X2. A successful call leaves in the final file everything the
    temporary file held at the start followed by every byte received in
    every attempt, the failed ones included, in order. The offset asked for
    is not moved forward between attempts, so what a broken attempt wrote
    is sent again by a server that honours the range and ends up twice in
    the segment. *)
Theorem download_segment_keeps_all_received (fs : FS) (net : nat → Attempt)
    (url d : string) (idx total retries k : nat) :
  1 ≤ k ≤ retries →
  (∀ j, 1 ≤ j < k → is_Some (attempt_error url (net j))) →
  attempt_error url (net k) = None →
  let run := download_segment fs net url d idx total retries in
  fs_run fs run.1 !! local_filename d idx
  = Some (content fs (temp_filename d idx)
          ++ concat (received url ∘ net <$> seq 1 k)) ∧
  fs_run fs run.1 !! temp_filename d idx = None.
Proof.
  intros Hk Hbad Hgood run.
  destruct (retry_loop_first_success net url (temp_filename d idx)
              (local_filename d idx)
              (segment_headers (already_downloaded fs d idx))
              (already_downloaded fs d idx) idx total retries (k - 1) 1 retries)
    as (Hres & _ & _ & Hw).
  { lia. }
  { intros j Hj. apply Hbad. lia. }
  { by replace (1 + (k - 1)) with k by lia. }
  replace (S (k - 1)) with k in Hw by lia.
  fold (download_segment fs net url d idx total retries) in Hres, Hw.
  fold run in Hres, Hw.
  destruct (download_segment_returns fs net url d idx total retries run.1
              (local_filename d idx))
    as (_ & pre & Hpre & _ & Hlocal & Htemp).
  { rewrite <- Hres. apply surjective_pairing. }
  rewrite Hpre, written_app in Hw.
  change (written [EvRename _ _]) with (@nil Byte.byte) in Hw.
  rewrite app_nil_r in Hw. by rewrite Hlocal, Htemp, Hw.
Qed.

Lemma download_segment_keeps_all_received_witness :
  1 ≤ 2 ≤ MAX_RETRIES ∧
  attempt_error "http://cdn/3.ts" (breaks_once_server 2) = None ∧
  fs_run partial_fs
    (download_segment partial_fs breaks_once_server "http://cdn/3.ts" "d" 3 5
       MAX_RETRIES).1 !! local_filename "d" 3
  = Some (content partial_fs (temp_filename "d" 3)
          ++ concat (received "http://cdn/3.ts" ∘ breaks_once_server <$> seq 1 2)).
Proof.
  assert (1 ≤ 2 ≤ MAX_RETRIES) as Hk by (unfold MAX_RETRIES; lia).
  split; [exact Hk|]. split; [reflexivity|].
  refine (proj1 (download_segment_keeps_all_received partial_fs breaks_once_server
                   "http://cdn/3.ts" "d" 3 5 MAX_RETRIES 2 Hk _ eq_refl)).
  intros j Hj. assert (j = 1) as -> by lia. simpl. by eexists.
Defined.

(** The run of the witness: two bytes on disk, one more before the
    connection breaks, then the answer to [Range: bytes=2-]. The segment
    has five bytes where the server holds four. *)
Example download_segment_duplicates_bytes :
  let run := download_segment partial_fs breaks_once_server "http://cdn/3.ts" "d" 3 5
               MAX_RETRIES in
  requested run.1 = ["http://cdn/3.ts"; "http://cdn/3.ts"] ∧
  fs_run partial_fs run.1
  = {[ "d/segment_3.ts" := [Byte.x41; Byte.x42; Byte.x43; Byte.x43; Byte.x44] ]}.
Proof. by vm_compute. Qed.

(** X3. A segment job changes no file but its own two: every other path,
    and in particular the temporary and the final file of every other
    index, is after the call what it was before, however the call ends. *)
Theorem download_segment_disjoint (fs : FS) (net : nat → Attempt) (url d : string)
    (idx total retries : nat) :
  let final := fs_run fs (download_segment fs net url d idx total retries).1 in
  (∀ p, p ≠ temp_filename d idx → p ≠ local_filename d idx → final !! p = fs !! p) ∧
  (∀ i, i ≠ idx →
        final !! temp_filename d i = fs !! temp_filename d i ∧
        final !! local_filename d i = fs !! local_filename d i).
Proof.
  intros final.
  assert (∀ p, p ≠ temp_filename d idx → p ≠ local_filename d idx →
               final !! p = fs !! p) as Hframe.
  { intros p Ht Hl. apply (fs_run_other (temp_filename d idx) (local_filename d idx));
      [apply retry_loop_events | done..]. }
  split; [exact Hframe|]. intros i Hi. split; apply Hframe.
  - intros H. by apply temp_filename_inj in H.
  - apply temp_neq_local.
  - apply not_eq_sym, temp_neq_local.
  - intros H. by apply local_filename_inj in H.
Qed.

(** ** [retry_request] *)

Lemma retry_request_loop_raise (net : nat → Attempt) (url : string)
    (attempt n : nat) (text : string) :
  request_error url (net attempt) = Some text →
  retry_request_loop net url attempt (S n)
  = let failed :=
      [EvRequest url HEADERS;
       EvPrint ("[!] Attempt " +:+ pretty attempt +:+ " failed for " +:+ url
                +:+ ": " +:+ text)] in
    if bool_decide (attempt = MAX_RETRIES) then (failed, Raises (RequestError text))
    else (failed ++ [EvSleep (RETRY_BACKOFF ^ attempt)]
          ++ (retry_request_loop net url (S attempt) n).1,
          (retry_request_loop net url (S attempt) n).2).
Proof.
  intros Herr. cbn [retry_request_loop]. unfold request_error in Herr.
  destruct (net attempt) as [text'|r].
  - injection Herr as ->. cbn zeta. case_bool_decide; [done|].
    by destruct (retry_request_loop net url (S attempt) n).
  - rewrite Herr. cbn zeta. case_bool_decide; [done|].
    by destruct (retry_request_loop net url (S attempt) n).
Qed.

Lemma retry_request_loop_return (net : nat → Attempt) (url : string)
    (attempt n : nat) (r : Response) :
  net attempt = GetReturns r →
  raise_for_status url r = None →
  retry_request_loop net url attempt (S n) = ([EvRequest url HEADERS], Returns (Some r)).
Proof. intros Hnet Hok. cbn [retry_request_loop]. by rewrite Hnet, Hok. Qed.

Lemma retry_request_loop_exhausted (net : nat → Attempt) (url : string)
    (attempt n : nat) (last : string) :
  attempt + n = MAX_RETRIES →
  (∀ j, attempt ≤ j < MAX_RETRIES → is_Some (request_error url (net j))) →
  request_error url (net MAX_RETRIES) = Some last →
  let run := retry_request_loop net url attempt (S n) in
  run.2 = Raises (RequestError last) ∧
  requests run.1 = S n ∧
  sleeps run.1 = (λ k, RETRY_BACKOFF ^ k) <$> seq attempt n.
Proof.
  revert attempt. induction n as [|n IH]; intros attempt Hsum Hbad Hlast.
  - rewrite Nat.add_0_r in Hsum. subst attempt.
    rewrite (retry_request_loop_raise _ _ _ _ _ Hlast). cbn zeta.
    by rewrite bool_decide_eq_true_2.
  - destruct (Hbad attempt) as [text Htext]; [lia|].
    rewrite (retry_request_loop_raise _ _ _ _ _ Htext). cbn zeta.
    rewrite bool_decide_eq_false_2 by lia.
    destruct (IH (S attempt)) as (IHres & IHr & IHs); [lia | | done |].
    { intros j Hj. apply Hbad. lia. }
    cbn [fst snd]. split; [done|]. split.
    + rewrite (requests_app [_; _]), (requests_app [_]), IHr. done.
    + rewrite (sleeps_app [_; _]), (sleeps_app [_]), IHs. done.
Qed.

Lemma retry_request_loop_first_success (net : nat → Attempt) (url : string)
    (m attempt n : nat) (r : Response) :
  attempt + m ≤ MAX_RETRIES →
  m < n →
  (∀ j, attempt ≤ j < attempt + m → is_Some (request_error url (net j))) →
  net (attempt + m) = GetReturns r →
  raise_for_status url r = None →
  let run := retry_request_loop net url attempt n in
  run.2 = Returns (Some r) ∧
  requests run.1 = S m ∧
  sleeps run.1 = (λ k, RETRY_BACKOFF ^ k) <$> seq attempt m.
Proof.
  revert attempt n. induction m as [|m IH]; intros attempt n Hle Hlt Hbad Hnet Hok.
  - destruct n as [|n]; [lia|]. rewrite Nat.add_0_r in Hnet.
    by rewrite (retry_request_loop_return _ _ _ _ _ Hnet Hok).
  - destruct n as [|n]; [lia|].
    destruct (Hbad attempt) as [text Htext]; [lia|].
    rewrite (retry_request_loop_raise _ _ _ _ _ Htext). cbn zeta.
    rewrite bool_decide_eq_false_2 by lia.
    destruct (IH (S attempt) n) as (IHres & IHr & IHs); [lia | lia | | | done |].
    { intros j Hj. apply Hbad. lia. }
    { by replace (S attempt + m) with (attempt + S m) by lia. }
    cbn [fst snd]. split; [done|]. split.
    + rewrite (requests_app [_; _]), (requests_app [_]), IHr. done.
    + rewrite (sleeps_app [_; _]), (sleeps_app [_]), IHs. done.
Qed.

(** X4. When all [MAX_RETRIES] attempts of [retry_request] raise, it makes
    [MAX_RETRIES] requests and re-raises the exception of the last one. It
    sleeps [RETRY_BACKOFF ^ j] seconds after each failed attempt [j] but
    the last: one pause fewer than [download_segment] makes. *)
Theorem retry_request_exhausted (net : nat → Attempt) (url last : string) :
  (∀ j, 1 ≤ j < MAX_RETRIES → is_Some (request_error url (net j))) →
  request_error url (net MAX_RETRIES) = Some last →
  let run := retry_request net url in
  run.2 = Raises (RequestError last) ∧
  requests run.1 = MAX_RETRIES ∧
  sleeps run.1 = (λ k, RETRY_BACKOFF ^ k) <$> seq 1 (MAX_RETRIES - 1).
Proof.
  intros Hbad Hlast.
  apply (retry_request_loop_exhausted net url 1 (MAX_RETRIES - 1) last); done.
Qed.

Lemma retry_request_exhausted_witness :
  request_error "http://cdn/en.vtt" (first_dead_net 1 MAX_RETRIES)
    = Some "Connection refused" ∧
  sleeps (retry_request (first_dead_net 1) "http://cdn/en.vtt").1 = [2; 4; 8; 16].
Proof.
  split; [reflexivity|].
  refine (proj2 (proj2 (retry_request_exhausted (first_dead_net 1) "http://cdn/en.vtt"
                          "Connection refused" _ eq_refl))).
  intros j _. simpl. by eexists.
Defined.

(** X5. When attempt [k] is the first of [retry_request] that neither
    raises nor has an error status, the call returns that answer after
    exactly [k] requests and [k - 1] pauses of [RETRY_BACKOFF ^ j] seconds. *)
Theorem retry_request_succeeds_at (net : nat → Attempt) (url : string) (k : nat)
    (r : Response) :
  1 ≤ k ≤ MAX_RETRIES →
  (∀ j, 1 ≤ j < k → is_Some (request_error url (net j))) →
  net k = GetReturns r →
  raise_for_status url r = None →
  let run := retry_request net url in
  run.2 = Returns (Some r) ∧
  requests run.1 = k ∧
  sleeps run.1 = (λ j, RETRY_BACKOFF ^ j) <$> seq 1 (k - 1).
Proof.
  intros Hk Hbad Hnet Hok.
  destruct (retry_request_loop_first_success net url (k - 1) 1 MAX_RETRIES r)
    as (Hres & Hr & Hs).
  - lia.
  - lia.
  - intros j Hj. apply Hbad. lia.
  - by replace (1 + (k - 1)) with k by lia.
  - done.
  - split; [exact Hres|]. split; [|exact Hs].
    unfold retry_request. rewrite Hr. lia.
Qed.

Lemma retry_request_succeeds_at_witness :
  1 ≤ 2 ≤ MAX_RETRIES ∧
  second_try_server 2 = good_answer ∧
  requests (retry_request second_try_server "http://cdn/en.vtt").1 = 2 ∧
  sleeps (retry_request second_try_server "http://cdn/en.vtt").1
  = (λ j, RETRY_BACKOFF ^ j) <$> seq 1 (2 - 1).
Proof.
  assert (1 ≤ 2 ≤ MAX_RETRIES) as Hk by (unfold MAX_RETRIES; lia).
  split; [exact Hk|]. split; [reflexivity|].
  refine (proj2 (retry_request_succeeds_at second_try_server "http://cdn/en.vtt" 2
                   _ Hk _ eq_refl eq_refl)).
  intros j Hj. assert (j = 1) as -> by lia. simpl. by eexists.
Defined.

(** ** [download_file]: the transfer *)

Lemma write_chunks_touch (path : string) (cs : list bytes) :
  Forall (λ ev, touched ev = [] ∨ touched ev = [path]) (write_chunks path cs).
Proof.
  unfold write_chunks. induction cs as [|c cs IH]; [constructor|].
  rewrite bind_cons. apply Forall_app. split; [|done].
  case_bool_decide; [constructor|].
  constructor; [by right|]. constructor; [by left|]. constructor.
Qed.

(** A file opened for writing and then fed chunks holds the chunks. *)
Lemma fs_run_write_chunks (fs : FS) (path : string) (cs : list bytes) :
  is_Some (fs !! path) →
  fs_run fs (write_chunks path cs) !! path = Some (content fs path ++ concat cs).
Proof.
  intros Hsome.
  destruct (fs_run_temp path path fs (write_chunks path cs)) as [Hc Hkept].
  - eapply Forall_impl; [apply (write_chunks_events path path)|]. by intros ev [? _].
  - eapply Forall_impl; [apply (write_chunks_events path path)|]. by intros ev [_ ?].
  - destruct (Hkept Hsome) as [c Hc']. unfold content in Hc at 1.
    rewrite Hc' in Hc. simpl in Hc. by rewrite Hc', Hc, written_write_chunks.
Qed.

Lemma download_file_transfer_shape (fs : FS) (url url_ext : string) (head : HeadResponse)
    (directory filename : string) (resume : bool) (a : Attempt) :
  ∃ path trace res,
    download_file_transfer fs url url_ext head directory filename resume a
      = Some (trace, res) ∧
    fs !! path = None ∧
    ensure_unique_filename fs directory filename (choose_extension url_ext head)
      = Some path ∧
    Forall (λ ev, touched ev = [] ∨ touched ev = [path]) trace ∧
    (res = Returns path ∨ ∃ text, res = Raises (RequestError text)).
Proof.
  unfold download_file_transfer, download_file.
  destruct (ensure_unique_filename_total fs directory filename
              (choose_extension url_ext head)) as [path Hpath].
  pose proof (ensure_unique_filename_fresh _ _ _ _ _ Hpath) as Hfresh.
  rewrite Hpath. cbn [mbind option_bind full_path mode headers downloaded total_size].
  rewrite (proj2 (exists_false fs path)) by done.
  rewrite andb_false_r. cbn iota.
  exists path. destruct a as [text|r].
  - eexists _, _. split; [reflexivity|]. split; [done|]. split; [done|].
    split; [|right; by eexists].
    constructor; [by left|]. constructor; [by left|]. constructor.
  - destruct (stream_error r) as [text|]; eexists _, _;
      (split; [reflexivity|]); (split; [done|]); (split; [done|]).
    + split; [|right; by eexists].
      constructor; [by left|]. constructor; [by left|].
      constructor; [by right|]. constructor; [by left|]. apply write_chunks_touch.
    + split; [|by left]. apply Forall_app. split.
      * constructor; [by left|]. constructor; [by left|].
        constructor; [by right|]. constructor; [by left|]. apply write_chunks_touch.
      * constructor; [by left|]. constructor.
Qed.

(** The plan of [download_file]: a path that is not on disk, opened in mode
    [wb]. *)
Lemma download_file_plan_fresh (fs : FS) (url_ext : string) (head : HeadResponse)
    (directory filename : string) (resume : bool) :
  ∃ plan, download_file fs url_ext head directory filename resume = Some plan ∧
          fs !! full_path plan = None ∧ mode plan = ModeWB.
Proof.
  unfold download_file.
  destruct (ensure_unique_filename_total fs directory filename
              (choose_extension url_ext head)) as [path Hpath].
  pose proof (ensure_unique_filename_fresh _ _ _ _ _ Hpath) as Hfresh.
  rewrite Hpath. cbn [mbind option_bind].
  rewrite (proj2 (exists_false fs path)) by done. rewrite andb_false_r.
  eexists. split; [reflexivity|]. by split.
Qed.

(** X6. [download_file] never changes a file that exists: whatever the
    answer and however the call ends, every path that was on disk before
    holds the same bytes after. Everything it writes goes to the name
    [ensure_unique_filename] chose. *)
Theorem download_file_keeps_existing (fs : FS) (url url_ext : string)
    (head : HeadResponse) (directory filename : string) (resume : bool) (a : Attempt) :
  ∃ trace res,
    download_file_transfer fs url url_ext head directory filename resume a
      = Some (trace, res) ∧
    ∀ p c, fs !! p = Some c → fs_run fs trace !! p = Some c.
Proof.
  destruct (download_file_transfer_shape fs url url_ext head directory filename
              resume a) as (path & trace & res & Hrun & Hfresh & _ & Htouch & _).
  exists trace, res. split; [done|]. intros p c Hp.
  rewrite fs_run_untouched; [done|].
  eapply Forall_impl; [exact Htouch|]. intros ev [->| ->]; [apply not_elem_of_nil|].
  apply not_elem_of_one. intros ->. congruence.
Qed.

(** X7. [download_file] does not look at the status of the answer: when
    the body is read to its end the call returns the chosen path, which
    then holds exactly the body, also when the status is an error such as
    404; the error page is saved as the file. *)
Theorem download_file_saves_any_status (fs : FS) (url url_ext : string)
    (head : HeadResponse) (directory filename : string) (resume : bool) (r : Response) :
  stream_error r = None →
  ∃ path trace,
    download_file_transfer fs url url_ext head directory filename resume (GetReturns r)
      = Some (trace, Returns path) ∧
    fs !! path = None ∧
    fs_run fs trace !! path = Some (concat (chunks r)).
Proof.
  intros Hstream. unfold download_file_transfer.
  destruct (download_file_plan_fresh fs url_ext head directory filename resume)
    as (plan & Hplan & Hfresh & Hmode).
  rewrite Hplan. cbn [mbind option_bind]. rewrite Hstream, Hmode.
  eexists _, _. split; [reflexivity|]. split; [done|].
  rewrite fs_run_snoc. cbn [fs_step]. rewrite fs_run_app.
  rewrite fs_run_write_chunks.
  - unfold content. simpl. by rewrite lookup_insert_eq.
  - simpl. by rewrite lookup_insert_eq.
Qed.

Lemma download_file_saves_any_status_witness :
  ∃ path trace,
    download_file_transfer ∅ "http://cdn/clip.mp4" ".mp4"
      {| head_content_type := None; head_content_length := None |}
      "downloads" "clip" true (GetReturns not_found)
      = Some (trace, Returns path) ∧
    (∅ : FS) !! path = None ∧
    fs_run ∅ trace !! path = Some [Byte.x34; Byte.x30; Byte.x34].
Proof.
  exact (download_file_saves_any_status ∅ "http://cdn/clip.mp4" ".mp4"
           {| head_content_type := None; head_content_length := None |}
           "downloads" "clip" true not_found eq_refl).
Defined.

(** ** The manifest *)

Lemma temp_neq_concat (d f : string) (j : nat) :
  Path.join d (f +:+ "_concat.txt") ≠ temp_filename d j.
Proof.
  unfold temp_filename, local_filename, segment_name. intros H.
  destruct (join_prefix d (f +:+ "_concat.txt")) as [p1 H1].
  destruct (join_prefix d ("segment_" +:+ pretty j +:+ ".ts")) as [p2 H2].
  rewrite H1, H2 in H. clear H1 H2.
  change "_concat.txt" with ("_concat.tx" +:+ "t") in H.
  change ".part" with (".par" +:+ "t") in H.
  rewrite <- !string_app_assoc in H.
  apply string_app_inv_tail in H.
  change "_concat.tx" with ("_concat.t" +:+ "x") in H.
  change ".par" with (".pa" +:+ "r") in H.
  rewrite <- !string_app_assoc in H.
  by apply string_last_inj in H.
Qed.

Lemma written_to_app (path : string) (t1 t2 : list Event) :
  written_to path (t1 ++ t2) = written_to path t1 ++ written_to path t2.
Proof. unfold written_to. apply bind_app. Qed.

(** A trace that does not touch a file writes nothing to it. *)
Lemma written_to_untouched (path : string) (trace : list Event) :
  Forall (λ ev, path ∉ touched ev) trace → written_to path trace = [].
Proof.
  induction 1 as [|ev trace Hev _ IH]; [done|].
  change (ev :: trace) with ([ev] ++ trace). rewrite written_to_app, IH, app_nil_r.
  destruct ev; try done. unfold written_to. simpl. rewrite app_nil_r.
  case_decide as Hp; [|done]. subst. simpl in Hev. by apply not_elem_of_cons in Hev as [? _].
Qed.

(** A job only touches temporary and final segment files. *)
Lemma job_event_untouched (d : string) (ev : Event) (p : string) :
  job_event d ev →
  (∀ i, p ≠ temp_filename d i) → (∀ i, p ≠ local_filename d i) →
  p ∉ touched ev.
Proof.
  intros [i Hev] Htemp Hlocal.
  destruct ev as [| q m | | q c | | src dst | q | | | | | |]; simpl in *;
    try apply not_elem_of_nil; try done.
  - destruct Hev as [-> _]. by apply not_elem_of_one.
  - subst q. by apply not_elem_of_one.
  - destruct Hev as [-> ->]. intros Hin.
    apply elem_of_cons in Hin as [Hin|Hin]; [by apply (Htemp i)|].
    apply list_elem_of_singleton in Hin. by apply (Hlocal i).
Qed.

Lemma written_to_manifest (env : Env) (concat_file : string) (files : list string) :
  written_to concat_file (write_manifest env concat_file files)
  = manifest_line env <$> sorted files.
Proof.
  unfold write_manifest.
  change (EvOpen concat_file ModeW :: ?t) with ([EvOpen concat_file ModeW] ++ t).
  rewrite written_to_app. change (written_to concat_file [EvOpen _ _]) with (@nil bytes).
  rewrite app_nil_l. generalize (manifest_line env <$> sorted files).
  induction l as [|c l IH]; [done|].
  rewrite fmap_cons. change (EvWrite concat_file c :: ?t) with ([EvWrite concat_file c] ++ t).
  rewrite written_to_app, IH. unfold written_to at 1. simpl.
  by rewrite decide_True.
Qed.

(** Removing files writes nothing. *)
Lemma written_to_remove_all (path : string) (fs : FS) (paths : list string) :
  written_to path (remove_all fs paths).1 = [].
Proof.
  revert fs. induction paths as [|q paths IH]; intros fs; [done|].
  cbn [remove_all]. destruct (Path.exists_ fs q); [|done].
  specialize (IH (delete q fs)).
  destruct (remove_all (delete q fs) paths) as [tr e]. cbn [fst] in *.
  change (written_to path ([EvRemove q] ++ tr) = []).
  by rewrite written_to_app, IH.
Qed.

(** After the manifest nothing more is written to it. *)
Lemma merge_and_cleanup_manifest (lbl : Labels) (env : Env) (fs : FS) (d f : string)
    (files : list string) :
  ∃ trace outcome,
    merge_and_cleanup lbl env fs d f files = Some (trace, outcome) ∧
    written_to (Path.join d (f +:+ "_concat.txt")) trace
    = manifest_line env <$> sorted files.
Proof.
  unfold merge_and_cleanup.
  set (concat_file := Path.join d (f +:+ "_concat.txt")).
  destruct (write_manifest_frame env concat_file files fs) as [Hc _].
  destruct (ensure_unique_filename_total
              (fs_run fs (write_manifest env concat_file files)) d f ".mp4")
    as [mp4 Hmp4].
  pose proof (ensure_unique_filename_fresh _ _ _ _ _ Hmp4) as Hfresh.
  assert (mp4 ≠ concat_file) as Hne.
  { intros ->. rewrite Hfresh in Hc. by destruct Hc. }
  rewrite Hmp4. cbn [mbind option_bind].
  destruct (muxer env) as [|rc out].
  - eexists _, _. split; [reflexivity|].
    rewrite written_to_app, written_to_manifest. apply app_nil_r.
  - match goal with
    | |- context [remove_all ?a ?b] =>
        pose proof (written_to_remove_all concat_file a b) as Hrm;
        destruct (remove_all a b) as [tr_c exc]
    end.
    simpl in Hrm.
    eexists _, _. split; [reflexivity|].
    rewrite written_to_app, written_to_manifest.
    rewrite (written_to_app _ [_]). rewrite written_to_app, Hrm.
    rewrite app_nil_r. change (written_to concat_file [EvPrint _]) with (@nil bytes).
    rewrite app_nil_l.
    assert (written_to concat_file
              (EvRun (ffmpeg_cmd concat_file mp4) rc
               :: match out with
                  | Some b => [EvOpen mp4 ModeWB; EvWrite mp4 b]
                  | None => []
                  end ++ [EvPrint (msg_saved lbl mp4)]) = []) as ->; [|apply app_nil_r].
    destruct out; unfold written_to; simpl; [|done].
    by rewrite decide_False.
Qed.

Lemma quiet_untouched (d : string) (ev : Event) (p : string) :
  job_event d ev ∨ touched ev = [] →
  (∀ i, p ≠ temp_filename d i) → (∀ i, p ≠ local_filename d i) →
  p ∉ touched ev.
Proof.
  intros [Hjob|Hnil] Htemp Hlocal; [by apply (job_event_untouched d)|].
  rewrite Hnil. apply not_elem_of_nil.
Qed.

(** The events up to the shutdown of the pool are prints, requests to the
    pool, and events of jobs. *)
Lemma pool_events (d msg : string) (w : Z) (js : list (nat * string))
    (tr_loop : list Event) :
  Forall (λ ev, job_event d ev ∨ touched ev = []) tr_loop →
  Forall (λ ev, job_event d ev ∨ touched ev = [])
         ([EvPrint msg] ++ (EvPool w :: (uncurry EvSubmit <$> js))
          ++ tr_loop ++ [EvShutdown true false]).
Proof.
  intros Hloop. apply Forall_app. split; [constructor; [by right | constructor]|].
  apply Forall_app. split.
  - constructor; [by right|]. apply Forall_fmap, Forall_true. intros [j u]. by right.
  - apply Forall_app. split; [done|]. constructor; [by right | constructor].
Qed.

(** The whole run when every job succeeds: what is written to the concat
    file is one line per segment file, in the order [sorted] gives. *)
Lemma fetch_and_merge_manifest (lbl : Labels) (env : Env) (fs : FS)
    (segments : list string) (d f : string) (w : Z) :
  (0 < w)%Z →
  (∀ j u, (j, u) ∈ completion env →
          ∃ k, 1 ≤ k ≤ MAX_RETRIES ∧ attempt_error u (net env j k) = None) →
  ∃ trace outcome,
    fetch_and_merge lbl env fs segments d f w = Some (trace, outcome) ∧
    written_to (Path.join d (f +:+ "_concat.txt")) trace
    = manifest_line env <$> sorted (local_filename d <$> (completion env).*1).
Proof.
  intros Hpos Hgood. unfold fetch_and_merge.
  rewrite (proj2 (Z.leb_gt w 0)) by done.
  destruct (as_completed_all lbl env d (length segments) fs (completion env) [] Hgood)
    as (tr_jobs & -> & Hjobs & _).
  rewrite app_nil_l.
  match goal with
  | |- context [merge_and_cleanup lbl env ?fs1 d f ?files] =>
      destruct (merge_and_cleanup_manifest lbl env fs1 d f files)
        as (tr_merge & outcome & -> & Hmanifest)
  end.
  cbn [mbind option_bind]. eexists _, _. split; [reflexivity|].
  rewrite written_to_app, Hmanifest.
  rewrite written_to_untouched; [done|].
  eapply Forall_impl.
  - apply pool_events. eapply Forall_impl; [exact Hjobs|]. intros ev ?. by left.
  - intros ev Hev. apply (quiet_untouched d); [done | |].
    + intros i. apply temp_neq_concat.
    + intros i. apply concat_neq_local.
Qed.

(** X8. When every segment is fetched, the concat manifest holds one line
    per segment file: every segment file is listed exactly once, and the
    lines are in ascending order of the path strings, whatever the order in
    which the downloads completed. *)
Theorem manifest_lists_each_segment_once (env : Env) (fs : FS) (segments : list string)
    (d f : string) (parallel : Z) :
  (0 < parallel)%Z →
  completion env ≡ₚ jobs segments →
  (∀ j u, (j, u) ∈ jobs segments →
          ∃ k, 1 ≤ k ≤ MAX_RETRIES ∧ attempt_error u (net env j k) = None) →
  ∃ trace outcome files,
    download_and_merge_segments env fs segments d f parallel = Some (trace, outcome) ∧
    written_to (Path.join d (f +:+ "_concat.txt")) trace = manifest_line env <$> files ∧
    files ≡ₚ local_filename d <$> seq 1 (length segments) ∧
    Sorted String.le files.
Proof.
  intros Hpos Hperm Hgood.
  destruct (fetch_and_merge_manifest hls_labels env fs segments d f parallel Hpos)
    as (trace & outcome & Hrun & Hmanifest).
  { intros j u Hin. apply Hgood. by rewrite <- Hperm. }
  exists trace, outcome, (sorted (local_filename d <$> (completion env).*1)).
  split; [done|]. split; [done|]. split.
  - unfold sorted. rewrite merge_sort_Permutation, Hperm, jobs_indices. done.
  - apply Sorted_merge_sort. apply _.
Qed.

Lemma manifest_lists_each_segment_once_witness :
  (0 < 4)%Z ∧
  completion mux_fails_env ≡ₚ jobs (uris 2) ∧
  ∃ trace outcome files,
    download_and_merge_segments mux_fails_env ∅ (uris 2) "downloads" "movie" 4
      = Some (trace, outcome) ∧
    written_to (Path.join "downloads" ("movie" +:+ "_concat.txt")) trace
      = manifest_line mux_fails_env <$> files ∧
    files ≡ₚ local_filename "downloads" <$> seq 1 (length (uris 2)) ∧
    Sorted String.le files.
Proof.
  split; [reflexivity|]. split; [apply (Permutation_swap _ _ [])|].
  apply (manifest_lists_each_segment_once mux_fails_env ∅ (uris 2) "downloads" "movie" 4).
  - reflexivity.
  - apply (Permutation_swap _ _ []).
  - intros j u _. exists 1. split; [unfold MAX_RETRIES; lia | reflexivity].
Defined.

(** ** Fewer than ten segments *)

Lemma string_leb_app (p a b : string) :
  String.leb (p +:+ a) (p +:+ b) = String.leb a b.
Proof.
  induction p as [|c p IH]; [done|].
  rewrite !string_app_cons. unfold String.leb in *. cbn [String.compare].
  unfold Ascii.compare. by rewrite N.compare_refl.
Qed.

(** All segment files of a directory have the directory part in common. *)
Lemma local_filename_prefix (d : string) :
  ∃ pre, ∀ i, local_filename d i = pre +:+ segment_name i.
Proof.
  unfold local_filename, Path.join.
  assert (∀ i, Path.startswith_sep (segment_name i) = false) as Hstart.
  { intros i. unfold segment_name. by rewrite string_app_cons. }
  destruct (bool_decide (d = "")) eqn:Hd.
  - exists "". intros i. by rewrite Hstart.
  - destruct (Path.endswith_sep d).
    + exists d. intros i. by rewrite Hstart.
    + exists (d +:+ "/"). intros i. by rewrite Hstart, string_app_assoc.
Qed.

(** Single-digit segment names are ordered as their indices are. *)
Lemma segment_names_ordered (x y : nat) :
  1 ≤ x → x ≤ y → y ≤ 9 → String.le (segment_name x) (segment_name y).
Proof.
  intros Hx Hxy Hy.
  assert (Forall (λ a, Forall (λ b, a ≤ b → String.le (segment_name a) (segment_name b))
                         (seq 1 9)) (seq 1 9)) as Hall.
  { apply (bool_decide_unpack _). by vm_compute. }
  rewrite Forall_forall in Hall. specialize (Hall x).
  rewrite Forall_forall in Hall. apply Hall; [| |done]; apply elem_of_seq; lia.
Qed.

Lemma local_filenames_sorted (d : string) (n : nat) :
  n ≤ 9 → Sorted String.le (local_filename d <$> seq 1 n).
Proof.
  intros Hn. destruct (local_filename_prefix d) as [pre Hpre].
  apply (Sorted_fmap _ (λ x y, 1 ≤ x ∧ x ≤ y ∧ y ≤ 9)).
  - intros x y (Hx & Hxy & Hy). rewrite !Hpre. unfold String.le.
    rewrite string_leb_app. by apply segment_names_ordered.
  - do 10 (destruct n as [|n]; [repeat constructor; lia|]). lia.
Qed.

(** X9. With at most nine segments, all fetched, the manifest is in index
    order whatever the order in which the downloads completed: among
    single-digit indices the string order of the paths is the numeric one. *)
Theorem manifest_in_index_order_below_ten (env : Env) (fs : FS)
    (segments : list string) (d f : string) (parallel : Z) :
  (0 < parallel)%Z →
  length segments ≤ 9 →
  completion env ≡ₚ jobs segments →
  (∀ j u, (j, u) ∈ jobs segments →
          ∃ k, 1 ≤ k ≤ MAX_RETRIES ∧ attempt_error u (net env j k) = None) →
  ∃ trace outcome,
    download_and_merge_segments env fs segments d f parallel = Some (trace, outcome) ∧
    written_to (Path.join d (f +:+ "_concat.txt")) trace
    = manifest_line env <$> (local_filename d <$> seq 1 (length segments)).
Proof.
  intros Hpos Hlen Hperm Hgood.
  destruct (fetch_and_merge_manifest hls_labels env fs segments d f parallel Hpos)
    as (trace & outcome & Hrun & Hmanifest).
  { intros j u Hin. apply Hgood. by rewrite <- Hperm. }
  exists trace, outcome. split; [done|]. rewrite Hmanifest. f_equal.
  apply (Sorted_unique String.le).
  - apply Sorted_merge_sort. apply _.
  - by apply local_filenames_sorted.
  - unfold sorted. by rewrite merge_sort_Permutation, Hperm, jobs_indices.
Qed.

Lemma manifest_in_index_order_below_ten_witness :
  (0 < 4)%Z ∧
  length (uris 2) ≤ 9 ∧
  completion mux_fails_env = [(2, "http://cdn/2.ts"); (1, "http://cdn/1.ts")] ∧
  ∃ trace outcome,
    download_and_merge_segments mux_fails_env ∅ (uris 2) "downloads" "movie" 4
      = Some (trace, outcome) ∧
    written_to (Path.join "downloads" ("movie" +:+ "_concat.txt")) trace
    = manifest_line mux_fails_env
        <$> (local_filename "downloads" <$> seq 1 (length (uris 2))).
Proof.
  split; [reflexivity|]. split; [simpl; lia|]. split; [reflexivity|].
  apply (manifest_in_index_order_below_ten mux_fails_env ∅ (uris 2)
           "downloads" "movie" 4).
  - reflexivity.
  - simpl. lia.
  - apply (Permutation_swap _ _ []).
  - intros j u _. exists 1. split; [unfold MAX_RETRIES; lia | reflexivity].
Defined.

(** ** Files the orchestrator leaves alone *)

Lemma run_job_returns_local (env : Env) (d : string) (total : nat) (fs : FS)
    (job : nat * string) (p : string) :
  (run_job env d total fs job).2 = Returns p → p = local_filename d job.1.
Proof.
  unfold run_job, download_segment. intros Hres.
  pose proof (retry_loop_rename (net env job.1) job.2 (temp_filename d job.1)
                (local_filename d job.1)
                (segment_headers (already_downloaded fs d job.1))
                (already_downloaded fs d job.1) job.1 total MAX_RETRIES 1 MAX_RETRIES)
    as Hren.
  destruct (retry_loop (net env job.1) job.2 _ _ _ _ job.1 total MAX_RETRIES 1 MAX_RETRIES)
    as [tr res]. simpl in Hres. subst res. by destruct Hren as [-> _].
Qed.

(** Whatever the loop over the completed jobs ends with, its events are
    events of jobs and prints, and the files it collects are final segment
    files. *)
Lemma as_completed_events (lbl : Labels) (env : Env) (d : string) (total : nat)
    (fs : FS) (queue : list (nat * string)) (files : list string) :
  let run := as_completed lbl env d total fs queue files in
  Forall (λ ev, job_event d ev ∨ touched ev = []) run.1 ∧
  ∀ files', run.2 = inl files' →
            ∀ p, p ∈ files' → p ∈ files ∨ ∃ j, p = local_filename d j.
Proof.
  revert fs files. induction queue as [|job queue IH]; intros fs files.
  - simpl. split; [constructor|]. intros files' [= <-] p Hp. by left.
  - cbn zeta. rewrite as_completed_cons.
    pose proof (run_job_events env d total fs job) as Hev.
    pose proof (run_job_returns_local env d total fs job) as Hret.
    destruct (run_job env d total fs job) as [tr [q|e]]; cbn [fst snd] in *.
    + destruct (IH (fs_run fs tr) (files ++ [q])) as [IHev IHfiles]. split.
      * apply Forall_app. split; [|done].
        eapply Forall_impl; [exact Hev|]. intros ev ?. by left.
      * intros files' Hres p Hp.
        destruct (IHfiles files' Hres p Hp) as [Hin|Hloc]; [|by right].
        apply elem_of_app in Hin as [Hin|Hin]; [by left|].
        apply list_elem_of_singleton in Hin as ->. right.
        exists job.1. by apply Hret.
    + split; [|done]. apply Forall_app. split.
      * eapply Forall_impl; [exact Hev|]. intros ev ?. by left.
      * constructor; [by right | constructor].
Qed.

Lemma remove_all_events (fs : FS) (paths : list string) :
  Forall (λ ev, ∃ q, q ∈ paths ∧ touched ev = [q]) (remove_all fs paths).1.
Proof.
  revert fs. induction paths as [|q paths IH]; intros fs; [constructor|].
  cbn [remove_all]. destruct (Path.exists_ fs q); [|constructor].
  specialize (IH (delete q fs)).
  destruct (remove_all (delete q fs) paths) as [tr e]. cbn [fst] in *.
  constructor.
  - exists q. split; [apply elem_of_cons; by left | done].
  - eapply Forall_impl; [exact IH|]. intros ev (q' & Hq' & Hev).
    exists q'. split; [apply elem_of_cons; by right | done].
Qed.

(** The merge touches the concat file, the segment files it removes, and
    an output name that was free. *)
Lemma merge_and_cleanup_untouched (lbl : Labels) (env : Env) (fs : FS) (d f : string)
    (files : list string) (p : string) :
  is_Some (fs !! p) →
  p ≠ Path.join d (f +:+ "_concat.txt") →
  p ∉ files →
  ∃ trace outcome,
    merge_and_cleanup lbl env fs d f files = Some (trace, outcome) ∧
    Forall (λ ev, p ∉ touched ev) trace.
Proof.
  intros Hsome Hconcat Hfiles. unfold merge_and_cleanup.
  set (concat_file := Path.join d (f +:+ "_concat.txt")) in *.
  destruct (write_manifest_frame env concat_file files fs) as [_ Hframe].
  destruct (ensure_unique_filename_total
              (fs_run fs (write_manifest env concat_file files)) d f ".mp4")
    as [mp4 Hmp4].
  pose proof (ensure_unique_filename_fresh _ _ _ _ _ Hmp4) as Hfresh.
  assert (p ≠ mp4) as Hne.
  { intros ->. rewrite Hframe in Hfresh by done. rewrite Hfresh in Hsome.
    by destruct Hsome. }
  assert (Forall (λ ev, p ∉ touched ev) (write_manifest env concat_file files))
    as Hmanifest.
  { unfold write_manifest. constructor; [by apply not_elem_of_one|].
    apply Forall_fmap, Forall_true. intros l. by apply not_elem_of_one. }
  rewrite Hmp4. cbn [mbind option_bind].
  destruct (muxer env) as [|rc out].
  - eexists _, _. split; [reflexivity|]. apply Forall_app. split; [done|].
    constructor; [apply not_elem_of_nil | constructor].
  - match goal with
    | |- context [remove_all ?a ?b] =>
        pose proof (remove_all_events a b) as Hrm;
        destruct (remove_all a b) as [tr_c exc]
    end.
    cbn [fst] in Hrm.
    eexists _, _. split; [reflexivity|].
    apply Forall_app. split; [done|].
    apply Forall_app. split; [constructor; [apply not_elem_of_nil | constructor]|].
    apply Forall_app. split.
    + constructor; [apply not_elem_of_nil|]. apply Forall_app. split.
      * destruct out; repeat constructor; by apply not_elem_of_one.
      * constructor; [apply not_elem_of_nil | constructor].
    + eapply Forall_impl; [exact Hrm|]. intros ev (q & Hq & ->).
      apply not_elem_of_one. intros ->.
      apply elem_of_app in Hq as [Hq|Hq]; [done|].
      by apply list_elem_of_singleton in Hq.
Qed.

(** X10. A file that is on disk before the call and is neither a segment
    file of the directory (temporary or final) nor the concat file is on
    disk with the same bytes after it, however the call ends. In
    particular an output file that already exists is not overwritten. *)
Theorem download_and_merge_keeps_other_files (env : Env) (fs : FS)
    (segments : list string) (d f : string) (parallel : Z) (p : string) (c : bytes) :
  fs !! p = Some c →
  (∀ i, p ≠ temp_filename d i) →
  (∀ i, p ≠ local_filename d i) →
  p ≠ Path.join d (f +:+ "_concat.txt") →
  ∃ trace outcome,
    download_and_merge_segments env fs segments d f parallel = Some (trace, outcome) ∧
    fs_run fs trace !! p = Some c.
Proof.
  intros Hp Htemp Hlocal Hconcat.
  enough (∃ trace outcome,
            download_and_merge_segments env fs segments d f parallel
              = Some (trace, outcome) ∧
            Forall (λ ev, p ∉ touched ev) trace) as (trace & outcome & Hrun & Hall).
  { exists trace, outcome. split; [done|]. by rewrite fs_run_untouched. }
  unfold download_and_merge_segments, fetch_and_merge.
  destruct (parallel <=? 0)%Z.
  { eexists _, _. split; [reflexivity|].
    constructor; [apply not_elem_of_nil | constructor]. }
  destruct (as_completed_events hls_labels env d (length segments) fs
              (completion env) []) as [Hloop Hfiles].
  destruct (as_completed hls_labels env d (length segments) fs (completion env) [])
    as [tr_loop [files|queue]]; cbn [fst snd] in *.
  - set (tr_pool := [EvPrint (msg_start hls_labels (length segments) parallel)]
                    ++ (EvPool parallel :: (uncurry EvSubmit <$> jobs segments))
                    ++ tr_loop ++ [EvShutdown true false]).
    assert (Forall (λ ev, p ∉ touched ev) tr_pool) as Hpool.
    { eapply Forall_impl; [by apply pool_events|].
      intros ev Hev. by apply (quiet_untouched d). }
    destruct (merge_and_cleanup_untouched hls_labels env (fs_run fs tr_pool) d f files p)
      as (tr_merge & outcome & -> & Hmerge).
    + rewrite fs_run_untouched by done. by rewrite Hp.
    + done.
    + intros Hin. destruct (Hfiles files eq_refl p Hin) as [Hnil|[j ->]].
      * by apply elem_of_nil in Hnil.
      * by apply (Hlocal j).
    + cbn [mbind option_bind]. eexists _, _. split; [reflexivity|].
      by apply Forall_app.
  - eexists _, _. split; [reflexivity|]. apply Forall_app. split.
    + eapply Forall_impl; [by apply pool_events|].
      intros ev Hev. by apply (quiet_untouched d).
    + eapply Forall_impl; [apply drain_events|].
      intros ev Hev. by apply (job_event_untouched d).
Qed.

Lemma download_and_merge_keeps_other_files_witness :
  ∃ trace outcome,
    download_and_merge_segments mux_fails_env {[ "downloads/movie.mp4" := [Byte.x4d] ]}
      (uris 2) "downloads" "movie" 4 = Some (trace, outcome) ∧
    fs_run {[ "downloads/movie.mp4" := [Byte.x4d] ]} trace !! "downloads/movie.mp4"
    = Some [Byte.x4d].
Proof.
  apply (download_and_merge_keeps_other_files mux_fails_env
           {[ "downloads/movie.mp4" := [Byte.x4d] ]} (uris 2) "downloads" "movie" 4
           "downloads/movie.mp4" [Byte.x4d]).
  - reflexivity.
  - intros i H. apply (f_equal String.length) in H. revert H.
    unfold temp_filename, local_filename, segment_name, Path.join.
    cbn [Path.startswith_sep Path.endswith_sep bool_decide orb].
    rewrite !string_length_app. simpl. lia.
  - intros i H.
    change "downloads/movie.mp4" with ("downloads/movie.mp" +:+ "4") in H.
    destruct (join_prefix "downloads" (segment_name i)) as [pre Hpre].
    unfold local_filename in H. rewrite Hpre in H. unfold segment_name in H.
    change ".ts" with (".t" +:+ "s") in H. rewrite <- !string_app_assoc in H.
    by apply string_last_inj in H.
  - discriminate.
Defined.

(** ** What stays on disk when the call does not finish *)

Lemma quiet_local_kept (d : string) (j : nat) (fs : FS) (trace : list Event) :
  Forall (λ ev, job_event d ev ∨ touched ev = []) trace →
  is_Some (fs !! local_filename d j) →
  is_Some (fs_run fs trace !! local_filename d j).
Proof.
  intros Hall. revert fs. induction Hall as [|ev trace Hev _ IH]; intros fs H; [done|].
  simpl. apply IH. destruct Hev as [Hjob|Hnil]; [by apply fs_step_local_kept|].
  rewrite fs_step_untouched; [done|]. rewrite Hnil. apply not_elem_of_nil.
Qed.

(** A trace of jobs and prints removes nothing. *)
Lemma quiet_no_remove (d : string) (trace : list Event) (p : string) :
  Forall (λ ev, job_event d ev ∨ touched ev = []) trace → EvRemove p ∉ trace.
Proof.
  intros Hall Hin. rewrite Forall_forall in Hall.
  destruct (Hall _ Hin) as [[i Hev]|Hnil]; [done | discriminate Hnil].
Qed.

Lemma as_completed_stops_keeps (lbl : Labels) (env : Env) (d : string) (total : nat)
    (fs : FS) (finished queue : list (nat * string)) (idx : nat) (url : string)
    (files : list string) :
  (∀ j u, (j, u) ∈ finished →
          ∃ k, 1 ≤ k ≤ MAX_RETRIES ∧ attempt_error u (net env j k) = None) →
  (∀ k, 1 ≤ k ≤ MAX_RETRIES → is_Some (attempt_error url (net env idx k))) →
  let run := as_completed lbl env d total fs (finished ++ (idx, url) :: queue) files in
  run.2 = inr queue ∧
  ∀ j, j ∈ finished.*1 → is_Some (fs_run fs run.1 !! local_filename d j).
Proof.
  intros Hgood Hbad. revert fs files.
  induction finished as [|[j u] finished IH]; intros fs files; cbn zeta.
  - rewrite app_nil_l, as_completed_cons, run_job_fails by done.
    split; [done|]. intros j Hj. by apply elem_of_nil in Hj.
  - rewrite <- app_comm_cons, as_completed_cons, run_job_succeeds
      by (apply Hgood; apply elem_of_cons; by left).
    cbn [fst snd].
    destruct (IH (λ j' u' Hin, Hgood j' u' (proj2 (elem_of_cons _ _ _) (or_intror Hin)))
                 (fs_run fs (run_job env d total fs (j, u)).1)
                 (files ++ [local_filename d j])) as [IHres IHkeep].
    split; [done|]. intros j' Hj'. rewrite fs_run_app.
    rewrite fmap_cons in Hj'. apply elem_of_cons in Hj' as [->|Hj']; [|by apply IHkeep].
    eapply quiet_local_kept.
    + apply (as_completed_events lbl env d total).
    + apply run_job_leaves_local, run_job_succeeds, Hgood. apply elem_of_cons. by left.
Qed.

Lemma drain_keeps (env : Env) (d : string) (total : nat) (fs : FS)
    (queue : list (nat * string)) (j : nat) (u : string) :
  (j, u) ∈ queue →
  (∃ k, 1 ≤ k ≤ MAX_RETRIES ∧ attempt_error u (net env j k) = None) →
  is_Some (fs_run fs (drain env d total fs queue) !! local_filename d j).
Proof.
  revert fs. induction queue as [|job queue IH]; intros fs Hin Hgood.
  { by apply elem_of_nil in Hin. }
  cbn [drain]. rewrite fs_run_app.
  apply elem_of_cons in Hin as [<-|Hin]; [|by apply IH].
  apply fs_run_local_kept; [apply drain_events|].
  by apply run_job_leaves_local, run_job_succeeds.
Qed.

(** Printing and talking to the pool changes no file. *)
Lemma fs_run_pool (fs : FS) (msg : string) (w : Z) (js : list (nat * string))
    (tr : list Event) :
  fs_run fs ([EvPrint msg] ++ (EvPool w :: (uncurry EvSubmit <$> js))
             ++ tr ++ [EvShutdown true false])
  = fs_run fs tr.
Proof.
  rewrite !fs_run_app. rewrite (fs_run_inert _ [EvPrint msg]) by by repeat constructor.
  rewrite (fs_run_inert fs (EvPool w :: _)).
  - apply fs_run_inert. by repeat constructor.
  - constructor; [done|]. apply Forall_fmap, Forall_true. by intros [? ?].
Qed.

(** X11. When a segment fails for good, the process exits with status 1
    and nothing has been removed: the final file of every segment that was
    fetched, whether it completed before the failure or ran while the pool
    shut down, is on disk at the exit. *)
Theorem failure_keeps_fetched_segments (env : Env) (fs : FS) (segments : list string)
    (d f : string) (parallel : Z) (finished queue : list (nat * string))
    (idx : nat) (url : string) :
  (0 < parallel)%Z →
  completion env = finished ++ (idx, url) :: queue →
  (∀ j u, (j, u) ∈ finished →
          ∃ k, 1 ≤ k ≤ MAX_RETRIES ∧ attempt_error u (net env j k) = None) →
  (∀ k, 1 ≤ k ≤ MAX_RETRIES → is_Some (attempt_error url (net env idx k))) →
  ∃ trace,
    download_and_merge_segments env fs segments d f parallel
      = Some (trace, SystemExit 1) ∧
    (∀ p, EvRemove p ∉ trace) ∧
    (∀ j u, (j, u) ∈ finished → is_Some (fs_run fs trace !! local_filename d j)) ∧
    (∀ j u, (j, u) ∈ queue →
            (∃ k, 1 ≤ k ≤ MAX_RETRIES ∧ attempt_error u (net env j k) = None) →
            is_Some (fs_run fs trace !! local_filename d j)).
Proof.
  intros Hpos Hcompl Hgood Hbad.
  unfold download_and_merge_segments, fetch_and_merge.
  rewrite (proj2 (Z.leb_gt parallel 0)) by done. rewrite Hcompl.
  destruct (as_completed_stops_keeps hls_labels env d (length segments) fs finished
              queue idx url [] Hgood Hbad) as [Hres Hkeep].
  destruct (as_completed_events hls_labels env d (length segments) fs
              (finished ++ (idx, url) :: queue) []) as [Hloop _].
  destruct (as_completed hls_labels env d (length segments) fs
              (finished ++ (idx, url) :: queue) []) as [tr_loop r].
  cbn [fst snd] in *. subst r.
  set (tr_pool := [EvPrint (msg_start hls_labels (length segments) parallel)]
                  ++ (EvPool parallel :: (uncurry EvSubmit <$> jobs segments))
                  ++ tr_loop ++ [EvShutdown true false]).
  assert (Forall (λ ev, job_event d ev ∨ touched ev = []) tr_pool) as Hpool
    by by apply pool_events.
  assert (Forall (λ ev, job_event d ev ∨ touched ev = [])
                 (drain env d (length segments) (fs_run fs tr_pool) queue)) as Hdrain.
  { eapply Forall_impl; [apply drain_events|]. intros ev ?. by left. }
  eexists. split; [reflexivity|]. split; [|split].
  - intros p. apply (quiet_no_remove d). by apply Forall_app.
  - intros j u Hin. rewrite fs_run_app. apply quiet_local_kept; [done|].
    unfold tr_pool. rewrite fs_run_pool.
    apply Hkeep. apply list_elem_of_fmap. by exists (j, u).
  - intros j u Hin Hok. rewrite fs_run_app. by apply (drain_keeps _ _ _ _ _ j u).
Qed.

Lemma failure_keeps_fetched_segments_witness :
  (0 < 1)%Z ∧
  completion first_dead_env
    = [] ++ (1, "http://cdn/1.ts") :: [(2, "http://cdn/2.ts"); (3, "http://cdn/3.ts")] ∧
  ∃ trace,
    download_and_merge_segments first_dead_env ∅ (uris 3) "downloads" "movie" 1
      = Some (trace, SystemExit 1) ∧
    (∀ p, EvRemove p ∉ trace) ∧
    is_Some (fs_run ∅ trace !! local_filename "downloads" 3).
Proof.
  split; [reflexivity|]. split; [reflexivity|].
  destruct (failure_keeps_fetched_segments first_dead_env ∅ (uris 3) "downloads"
              "movie" 1 [] [(2, "http://cdn/2.ts"); (3, "http://cdn/3.ts")]
              1 "http://cdn/1.ts")
    as (trace & Hrun & Hrm & _ & Hqueue).
  - reflexivity.
  - reflexivity.
  - intros j u Hin. by apply elem_of_nil in Hin.
  - intros k _. simpl. by eexists.
  - exists trace. split; [done|]. split; [done|].
    apply (Hqueue 3 "http://cdn/3.ts").
    + apply elem_of_cons. right. apply elem_of_cons. by left.
    + exists 1. split; [unfold MAX_RETRIES; lia | reflexivity].
Defined.

Lemma merge_and_cleanup_missing (lbl : Labels) (env : Env) (fs : FS) (d f : string)
    (files : list string) :
  muxer env = MuxMissing →
  merge_and_cleanup lbl env fs d f files
  = Some (write_manifest env (Path.join d (f +:+ "_concat.txt")) files
          ++ [EvPrint (msg_merging lbl)],
          Uncaught (FileNotFoundError "ffmpeg")).
Proof.
  intros Hmux. unfold merge_and_cleanup.
  destruct (ensure_unique_filename_total
              (fs_run fs (write_manifest env (Path.join d (f +:+ "_concat.txt")) files))
              d f ".mp4") as [mp4 ->].
  cbn [mbind option_bind]. by rewrite Hmux.
Qed.

(** X12. When every segment was fetched but the muxer command cannot be
    started, the exception escapes and nothing is cleaned up: every segment
    file and the concat manifest are still on disk. *)
Theorem muxer_missing_keeps_segments (env : Env) (fs : FS) (segments : list string)
    (d f : string) (parallel : Z) :
  (0 < parallel)%Z →
  muxer env = MuxMissing →
  completion env ≡ₚ jobs segments →
  (∀ j u, (j, u) ∈ jobs segments →
          ∃ k, 1 ≤ k ≤ MAX_RETRIES ∧ attempt_error u (net env j k) = None) →
  ∃ trace,
    download_and_merge_segments env fs segments d f parallel
      = Some (trace, Uncaught (FileNotFoundError "ffmpeg")) ∧
    (∀ p, EvRemove p ∉ trace) ∧
    (∀ cmd rc, EvRun cmd rc ∉ trace) ∧
    (∀ idx, 1 ≤ idx ≤ length segments →
            is_Some (fs_run fs trace !! local_filename d idx)) ∧
    is_Some (fs_run fs trace !! Path.join d (f +:+ "_concat.txt")).
Proof.
  intros Hpos Hmux Hperm Hgood.
  unfold download_and_merge_segments, fetch_and_merge.
  rewrite (proj2 (Z.leb_gt parallel 0)) by done.
  destruct (as_completed_all hls_labels env d (length segments) fs (completion env) [])
    as (tr_jobs & -> & Hjobs & Hlocals).
  { intros j u Hin. apply Hgood. by rewrite <- Hperm. }
  rewrite merge_and_cleanup_missing by done. cbn [mbind option_bind].
  set (concat_file := Path.join d (f +:+ "_concat.txt")).
  set (tr_pool := [EvPrint (msg_start hls_labels (length segments) parallel)]
                  ++ (EvPool parallel :: (uncurry EvSubmit <$> jobs segments))
                  ++ tr_jobs ++ [EvShutdown true false]).
  set (files := [] ++ (local_filename d <$> (completion env).*1)).
  assert (Forall (λ ev, job_event d ev ∨ touched ev = []) tr_pool) as Hpool.
  { apply pool_events. eapply Forall_impl; [exact Hjobs|]. intros ev ?. by left. }
  destruct (write_manifest_frame env concat_file files (fs_run fs tr_pool))
    as [Hc Hframe].
  eexists. split; [reflexivity|]. split; [|split; [|split]].
  - intros p Hin. apply elem_of_app in Hin as [Hin|Hin].
    { by apply (quiet_no_remove d) in Hin. }
    apply elem_of_app in Hin as [Hin|Hin].
    + unfold write_manifest in Hin. apply elem_of_cons in Hin as [?|Hin]; [done|].
      by apply list_elem_of_fmap in Hin as (? & ? & _).
    + by apply list_elem_of_singleton in Hin.
  - intros cmd rc Hin. apply elem_of_app in Hin as [Hin|Hin].
    { unfold tr_pool in Hin.
      apply elem_of_app in Hin as [Hin|Hin]; [by apply list_elem_of_singleton in Hin|].
      apply elem_of_app in Hin as [Hin|Hin].
      - apply elem_of_cons in Hin as [?|Hin]; [done|].
        by apply list_elem_of_fmap in Hin as ([? ?] & ? & _).
      - apply elem_of_app in Hin as [Hin|Hin];
          [|by apply list_elem_of_singleton in Hin].
        rewrite Forall_forall in Hjobs. by destruct (Hjobs _ Hin) as [i Hev]. }
    apply elem_of_app in Hin as [Hin|Hin].
    + unfold write_manifest in Hin. apply elem_of_cons in Hin as [?|Hin]; [done|].
      by apply list_elem_of_fmap in Hin as (? & ? & _).
    + by apply list_elem_of_singleton in Hin.
  - intros idx Hidx. rewrite !fs_run_app. cbn [fs_run foldl fs_step].
    rewrite Hframe by apply not_eq_sym, concat_neq_local.
    unfold tr_pool. rewrite fs_run_pool. apply Hlocals.
    rewrite Hperm, jobs_indices. apply elem_of_seq. lia.
  - rewrite !fs_run_app. cbn [fs_run foldl fs_step]. exact Hc.
Qed.

Lemma muxer_missing_keeps_segments_witness :
  (0 < 4)%Z ∧
  muxer {| abspath := Path.join "/home/user"; net := good_net;
           completion := jobs (uris 2); muxer := MuxMissing |} = MuxMissing ∧
  ∃ trace,
    download_and_merge_segments
      {| abspath := Path.join "/home/user"; net := good_net;
         completion := jobs (uris 2); muxer := MuxMissing |}
      ∅ (uris 2) "downloads" "movie" 4
      = Some (trace, Uncaught (FileNotFoundError "ffmpeg")) ∧
    is_Some (fs_run ∅ trace !! local_filename "downloads" 1).
Proof.
  split; [reflexivity|]. split; [reflexivity|].
  destruct (muxer_missing_keeps_segments
              {| abspath := Path.join "/home/user"; net := good_net;
                 completion := jobs (uris 2); muxer := MuxMissing |}
              ∅ (uris 2) "downloads" "movie" 4)
    as (trace & Hrun & _ & _ & Hlocals & _).
  - reflexivity.
  - reflexivity.
  - reflexivity.
  - intros j u _. exists 1. split; [unfold MAX_RETRIES; lia | reflexivity].
  - exists trace. split; [done|]. apply Hlocals. simpl. lia.
Defined.

(** ** [download_subtitles] *)

Lemma retry_request_loop_inert (net : nat → Attempt) (url : string) (attempt n : nat) :
  Forall (λ ev, touched ev = []) (retry_request_loop net url attempt n).1 ∧
  (0 < n → url ∈ requested (retry_request_loop net url attempt n).1).
Proof.
  revert attempt. induction n as [|n IH]; intros attempt.
  { split; [constructor | lia]. }
  destruct (request_error url (net attempt)) as [text|] eqn:Herr.
  - rewrite (retry_request_loop_raise _ _ _ _ _ Herr). cbn zeta.
    case_bool_decide; cbn [fst].
    + split; [by repeat constructor|]. intros _. unfold requested. simpl.
      apply elem_of_cons. by left.
    + destruct (IH (S attempt)) as [IHinert _]. split.
      * apply Forall_app. split; [by repeat constructor|].
        apply Forall_app. split; [by repeat constructor | done].
      * intros _. unfold requested. simpl. apply elem_of_cons. by left.
  - unfold request_error in Herr. destruct (net attempt) as [|r] eqn:Hnet; [done|].
    rewrite (retry_request_loop_return _ _ _ _ _ Hnet Herr). cbn [fst].
    split; [by repeat constructor|]. intros _. unfold requested. simpl.
    apply elem_of_cons. by left.
Qed.

(** Fetching one track touches the file it is given and no other, and it
    always sends a request. *)
Lemma fetch_subtitle_touch (subnet : nat → Attempt) (uri lang filename : string) :
  Forall (λ ev, touched ev = [] ∨ touched ev = [filename])
         (fetch_subtitle subnet uri lang filename) ∧
  uri ∈ requested (fetch_subtitle subnet uri lang filename).
Proof.
  unfold fetch_subtitle, retry_request.
  destruct (retry_request_loop_inert subnet uri 1 MAX_RETRIES) as [Hinert Hreq].
  destruct (retry_request_loop subnet uri 1 MAX_RETRIES) as [tr_request res].
  cbn [fst] in *. split.
  - constructor; [by left|]. apply Forall_app. split.
    + eapply Forall_impl; [exact Hinert|]. intros ev ?. by left.
    + destruct res as [[r|]|e].
      * constructor; [by right|]. constructor; [by right|].
        constructor; [by left|]. constructor.
      * constructor; [by left|]. constructor.
      * constructor; [by left|]. constructor.
  - unfold requested. rewrite bind_app, bind_app.
    apply elem_of_app. right. apply elem_of_app. left.
    apply Hreq. unfold MAX_RETRIES. lia.
Qed.

(** It creates that file exactly when the request ends with an answer. *)
Lemma fetch_subtitle_size (subnet : nat → Attempt) (uri lang filename : string)
    (fs : FS) :
  fs !! filename = None →
  size (fs_run fs (fetch_subtitle subnet uri lang filename))
  = size fs + (if subtitle_fetched subnet uri then 1 else 0).
Proof.
  intros Hfresh. unfold fetch_subtitle, subtitle_fetched, retry_request.
  destruct (retry_request_loop_inert subnet uri 1 MAX_RETRIES) as [Hinert _].
  destruct (retry_request_loop subnet uri 1 MAX_RETRIES) as [tr_request res].
  cbn [fst snd] in *.
  rewrite fs_run_app. rewrite (fs_run_inert _ [_]) by by repeat constructor.
  rewrite fs_run_app, (fs_run_inert _ tr_request) by done.
  destruct res as [[r|]|e]; simpl; [|lia..].
  rewrite insert_insert_eq, map_size_insert_None by done. lia.
Qed.

Lemma subtitles_loop_spec (subnet : nat → nat → Attempt) (d : string) (fs : FS)
    (i : nat) (subtitles : list Media) :
  ∃ trace outcome,
    subtitles_loop subnet d fs i subtitles = Some (trace, outcome) ∧
    (∀ p c, fs !! p = Some c → fs_run fs trace !! p = Some c) ∧
    (Forall (λ sub, is_Some (media_uri sub)) subtitles →
     outcome = SubtitlesDone ∧
     size (fs_run fs trace) = size fs + subtitles_fetched subnet i subtitles ∧
     ∀ sub uri, sub ∈ subtitles → media_uri sub = Some uri → uri ∈ requested trace).
Proof.
  revert fs i. induction subtitles as [|sub rest IH]; intros fs i.
  - exists [], SubtitlesDone. split; [done|]. split; [done|]. intros _.
    split; [done|]. split; [simpl; lia|]. intros sub uri Hin. by apply elem_of_nil in Hin.
  - cbn [subtitles_loop subtitles_fetched]. destruct (media_uri sub) as [uri|] eqn:Huri.
    2:{ exists [], SubtitlesTypeError. split; [done|]. split; [done|].
        intros Hall. apply Forall_cons in Hall as [[? Hsome] _]. congruence. }
    destruct (ensure_unique_filename_total fs d ("subtitle_" +:+ subtitle_lang sub i)
                (subtitle_ext uri)) as [filename Hname].
    pose proof (ensure_unique_filename_fresh _ _ _ _ _ Hname) as Hfresh.
    rewrite Hname. cbn [mbind option_bind].
    set (tr := fetch_subtitle (subnet i) uri (subtitle_lang sub i) filename).
    destruct (fetch_subtitle_touch (subnet i) uri (subtitle_lang sub i) filename)
      as [Htouch Hreq].
    pose proof (fetch_subtitle_size (subnet i) uri (subtitle_lang sub i) filename
                  fs Hfresh) as Hsize.
    fold tr in Htouch, Hreq, Hsize.
    destruct (IH (fs_run fs tr) (S i)) as (tr_rest & outcome & -> & IHkeep & IHall).
    cbn [mbind option_bind]. exists (tr ++ tr_rest), outcome.
    split; [done|]. split.
    + intros p c Hp. rewrite fs_run_app. apply IHkeep.
      rewrite fs_run_untouched; [done|].
      eapply Forall_impl; [exact Htouch|].
      intros ev [->| ->]; [apply not_elem_of_nil|].
      apply not_elem_of_one. intros ->. congruence.
    + intros Hall. apply Forall_cons in Hall as [_ Hall].
      destruct (IHall Hall) as (-> & IHsize & IHreq).
      split; [done|]. split.
      * rewrite fs_run_app, IHsize, Hsize. lia.
      * intros sub' uri' Hin Huri'. unfold requested. rewrite bind_app.
        apply elem_of_app. apply elem_of_cons in Hin as [->|Hin].
        -- left. rewrite Huri in Huri'. by injection Huri' as <-.
        -- right. by apply (IHreq sub').
Qed.

(** X13. [download_subtitles] never changes a file that exists: every
    subtitle is written under a name that was free when it was chosen, so
    whatever the playlist holds and the servers answer, every path that was
    on disk before holds the same bytes after. *)
Theorem download_subtitles_keeps_existing (subnet : nat → nat → Attempt) (fs : FS)
    (playlist_media : list Media) (d : string) :
  ∃ trace outcome,
    download_subtitles subnet fs playlist_media d = Some (trace, outcome) ∧
    ∀ p c, fs !! p = Some c → fs_run fs trace !! p = Some c.
Proof.
  unfold download_subtitles.
  destruct (List.filter is_subtitles playlist_media) as [|sub subs] eqn:Hsubs.
  { by eexists _, _. }
  destruct (subtitles_loop_spec subnet d fs 1 (sub :: subs))
    as (trace & outcome & -> & Hkeep & _).
  cbn [mbind option_bind]. eexists _, _. split; [reflexivity|].
  intros p c Hp. cbn [fs_run foldl fs_step]. by apply Hkeep.
Qed.

(** X14. When every subtitle track has a URI, [download_subtitles] returns
    normally whatever the servers do: a track that cannot be fetched is
    reported and skipped, every track is requested, and the number of
    files on disk grows by exactly the number of tracks fetched (two
    tracks never share a file and none replaces an old one). *)
Theorem download_subtitles_isolates_failures (subnet : nat → nat → Attempt) (fs : FS)
    (playlist_media : list Media) (d : string) :
  (∀ sub, sub ∈ playlist_media → is_subtitles sub = true → is_Some (media_uri sub)) →
  ∃ trace,
    download_subtitles subnet fs playlist_media d = Some (trace, SubtitlesDone) ∧
    size (fs_run fs trace)
    = size fs + subtitles_fetched subnet 1 (List.filter is_subtitles playlist_media) ∧
    ∀ sub uri, sub ∈ playlist_media → is_subtitles sub = true →
               media_uri sub = Some uri → uri ∈ requested trace.
Proof.
  intros Huris. unfold download_subtitles.
  assert (∀ sub, sub ∈ List.filter is_subtitles playlist_media ↔
                 sub ∈ playlist_media ∧ is_subtitles sub = true) as Hfilter.
  { intros sub. rewrite !list_elem_of_In. apply filter_In. }
  destruct (List.filter is_subtitles playlist_media) as [|sub subs] eqn:Hsubs.
  { eexists. split; [reflexivity|]. split; [simpl; lia|].
    intros sub uri Hin Hsub _. exfalso.
    eapply elem_of_nil, Hfilter. by split. }
  destruct (subtitles_loop_spec subnet d fs 1 (sub :: subs))
    as (trace & outcome & -> & _ & Hall).
  destruct Hall as (-> & Hsize & Hreq).
  { apply Forall_forall. intros sub' Hin. apply Hfilter in Hin as [Hin Hsub].
    by apply Huris. }
  cbn [mbind option_bind]. eexists. split; [reflexivity|]. split.
  - cbn [fs_run foldl fs_step]. exact Hsize.
  - intros sub' uri Hin Hsub Huri. unfold requested. simpl.
    apply (Hreq sub'); [|done]. apply Hfilter. by split.
Qed.

Lemma download_subtitles_isolates_failures_witness :
  ∃ trace,
    download_subtitles second_dead_net ∅ sample_tracks "downloads"
      = Some (trace, SubtitlesDone) ∧
    size (fs_run ∅ trace)
    = size (∅ : FS)
      + subtitles_fetched second_dead_net 1 (List.filter is_subtitles sample_tracks) ∧
    ∀ sub uri, sub ∈ sample_tracks → is_subtitles sub = true →
               media_uri sub = Some uri → uri ∈ requested trace.
Proof.
  apply (download_subtitles_isolates_failures second_dead_net ∅ sample_tracks
           "downloads").
  intros sub Hin _. apply list_elem_of_In in Hin. simpl in Hin.
  destruct Hin as [<-|[<-|[<-|[<-|[]]]]]; by eexists.
Defined.

(** The sample playlist: the French track fails after five attempts, the
    two English ones are saved under different names. *)
Example download_subtitles_sample :
  ∃ trace,
    download_subtitles second_dead_net ∅ sample_tracks "downloads"
      = Some (trace, SubtitlesDone) ∧
    requests trace = 7 ∧
    dom (fs_run ∅ trace)
    = {[ "downloads/subtitle_en.vtt"; "downloads/subtitle_en_1.vtt" ]}.
Proof.
  destruct (download_subtitles second_dead_net ∅ sample_tracks "downloads")
    as [[trace outcome]|] eqn:Hrun; vm_compute in Hrun; [|discriminate Hrun].
  injection Hrun as <- <-. eexists. split; [reflexivity|]. split; by vm_compute.
Qed.

Lemma subtitles_loop_app (subnet : nat → nat → Attempt) (d : string) (fs : FS)
    (i : nat) (before after : list Media) (sub : Media) (trace : list Event) :
  media_uri sub = None →
  subtitles_loop subnet d fs i before = Some (trace, SubtitlesDone) →
  subtitles_loop subnet d fs i (before ++ sub :: after)
  = Some (trace, SubtitlesTypeError).
Proof.
  intros Hnone. revert fs i trace.
  induction before as [|b before IH]; intros fs i trace Hrun.
  - injection Hrun as <-. cbn [app subtitles_loop]. by rewrite Hnone.
  - rewrite <- app_comm_cons. cbn [subtitles_loop] in *.
    destruct (media_uri b) as [uri|]; [|done].
    destruct (ensure_unique_filename fs d ("subtitle_" +:+ subtitle_lang b i)
                (subtitle_ext uri)) as [filename|]; [|done].
    cbn [mbind option_bind] in *.
    destruct (subtitles_loop subnet d
                (fs_run fs (fetch_subtitle (subnet i) uri (subtitle_lang b i) filename))
                (S i) before) as [[tr_rest outcome]|] eqn:Hrest; [|done].
    cbn [mbind option_bind] in Hrun. injection Hrun as <- ->.
    by rewrite (IH _ _ _ Hrest).
Qed.

(** X15. A subtitle track without URI stops [download_subtitles] with a
    [TypeError] that nothing catches: the tracks before it are handled as
    if the list ended there, and no later track is requested or written. *)
Theorem download_subtitles_missing_uri (subnet : nat → nat → Attempt) (fs : FS)
    (playlist_media : list Media) (d : string)
    (before after : list Media) (sub : Media) :
  List.filter is_subtitles playlist_media = before ++ sub :: after →
  media_uri sub = None →
  (∀ b, b ∈ before → is_Some (media_uri b)) →
  ∃ trace,
    subtitles_loop subnet d fs 1 before = Some (trace, SubtitlesDone) ∧
    download_subtitles subnet fs playlist_media d
    = Some (EvPrint ("[+] Found " +:+ pretty (length (before ++ sub :: after))
                     +:+ " subtitle track(s). Downloading...") :: trace,
            SubtitlesTypeError).
Proof.
  intros Hfilter Hnone Hbefore.
  destruct (subtitles_loop_spec subnet d fs 1 before)
    as (trace & outcome & Hrun & _ & Hall).
  destruct Hall as (-> & _); [by apply Forall_forall|].
  exists trace. split; [done|].
  unfold download_subtitles. rewrite Hfilter.
  rewrite (subtitles_loop_app _ _ _ _ _ _ _ _ Hnone Hrun).
  by destruct before.
Qed.

Lemma download_subtitles_missing_uri_witness :
  ∃ trace,
    subtitles_loop good_net "downloads" ∅ 1 (take 1 sample_tracks)
      = Some (trace, SubtitlesDone) ∧
    download_subtitles good_net ∅
      (take 1 sample_tracks
       ++ {| media_type := Some "SUBTITLES"; media_uri := None;
             media_language := Some "de" |} :: drop 1 sample_tracks)
      "downloads"
    = Some (EvPrint ("[+] Found " +:+ pretty 4 +:+ " subtitle track(s). Downloading...")
            :: trace,
            SubtitlesTypeError).
Proof.
  apply (download_subtitles_missing_uri good_net ∅ _ "downloads"
           (take 1 sample_tracks) (List.filter is_subtitles (drop 1 sample_tracks))
           {| media_type := Some "SUBTITLES"; media_uri := None;
              media_language := Some "de" |}).
  - reflexivity.
  - reflexivity.
  - intros b Hb. apply list_elem_of_In in Hb. simpl in Hb.
    destruct Hb as [<-|[]]. by eexists.
Defined.

(** ** [select_variant_playlist] *)


(** X16. A choice that [int] reads as a number [n] between 1 and the
    number of variants selects the [n]-th variant of the list: when its
    playlist loads, that playlist is returned, whatever the bandwidths. *)
Theorem select_variant_by_number (parse_int : string → option Z)
    (loads : string → bool) (variants : list Variant) (choice : string)
    (n : Z) (v : Variant) :
  parse_int choice = Some n →
  (1 ≤ n ≤ Z.of_nat (length variants))%Z →
  variants !! Z.to_nat (n - 1) = Some v →
  loads (absolute_uri v) = true →
  (select_variant_playlist parse_int loads variants choice).2 = Load (absolute_uri v).
Proof.
  intros Hparse Hn Hv Hloads. unfold select_variant_playlist.
  destruct variants as [|first others]; [done|].
  rewrite Hparse. cbn zeta.
  rewrite (proj2 (Z.leb_le 0 (n - 1))) by lia.
  rewrite (proj2 (Z.ltb_lt (n - 1) _)) by lia.
  cbn [andb]. by rewrite Hv, Hloads.
Qed.

Lemma select_variant_by_number_witness :
  sample_int "2" = Some 2%Z ∧
  (1 ≤ 2 ≤ Z.of_nat (length sample_variants))%Z ∧
  (select_variant_playlist sample_int (λ _, true) sample_variants "2").2
  = Load "http://cdn/hd.m3u8".
Proof.
  split; [reflexivity|]. split; [simpl; lia|].
  apply (select_variant_by_number sample_int (λ _, true) sample_variants "2" 2
           {| bandwidth := Some 2500000%Z; resolution := Some (1280, 720)%Z;
              absolute_uri := "http://cdn/hd.m3u8" |}).
  - reflexivity.
  - simpl. lia.
  - reflexivity.
  - reflexivity.
Defined.



(** On the sample list, with an empty answer: the first of the two
    variants with the highest bandwidth is loaded. *)
Example select_variant_tie :
  (select_variant_playlist sample_int (λ _, true) sample_variants "").2
  = Load "http://cdn/hd.m3u8".
Proof. reflexivity. Qed.

(** ** [parse_dash_mpd] *)

Lemma collect_app {A : Type} (f : A → option (list string)) (xs ys : list A) :
  collect f (xs ++ ys)
  = (a ← collect f xs; b ← collect f ys; Some (a ++ b)).
Proof.
  induction xs as [|x xs IH]; cbn [app collect].
  - cbn [mbind option_bind]. by destruct (collect f ys).
  - destruct (f x) as [urls|]; [|done]. cbn [mbind option_bind]. rewrite IH.
    destruct (collect f xs) as [a|]; [|done]. cbn [mbind option_bind].
    destruct (collect f ys) as [b|]; [|done]. cbn [mbind option_bind].
    by rewrite app_assoc.
Qed.

(** The loop over the representations is the template of the first one
    that has one. *)
Lemma adaptation_urls_first (urljoin : string → string → string) (base : string)
    (reps : list Representation) :
  adaptation_urls urljoin base reps
  = match first_templated reps with
    | Some (rep, tmpl) => template_urls urljoin base rep tmpl
    | None => Some []
    end.
Proof.
  induction reps as [|rep rest IH]; [done|]. cbn [adaptation_urls first_templated].
  by destruct (rep_template rep).
Qed.

Lemma first_templated_app (before after : list Representation) (rep : Representation)
    (tmpl : SegmentTemplate) :
  Forall (λ r, rep_template r = None) before →
  rep_template rep = Some tmpl →
  first_templated (before ++ rep :: after) = Some (rep, tmpl).
Proof.
  intros Hbefore Hrep. induction Hbefore as [|r before Hr _ IH].
  - cbn [app first_templated]. by rewrite Hrep.
  - cbn [app first_templated]. by rewrite Hr.
Qed.

(** X18. In every adaptation set only the first representation that has
    a [SegmentTemplate] counts: whatever representations follow it (other
    bit rates, with or without templates, well formed or not), the list of
    segment URLs, or the exception, is the same. *)
Theorem parse_dash_mpd_first_representation (urljoin : string → string → string)
    (url : string) (periods_before periods_after : list (list (list Representation)))
    (sets_before sets_after : list (list Representation))
    (before after after' : list Representation)
    (rep : Representation) (tmpl : SegmentTemplate) :
  Forall (λ r, rep_template r = None) before →
  rep_template rep = Some tmpl →
  parse_dash_mpd urljoin url
    (periods_before
     ++ (sets_before ++ (before ++ rep :: after) :: sets_after) :: periods_after)
  = parse_dash_mpd urljoin url
      (periods_before
       ++ (sets_before ++ (before ++ rep :: after') :: sets_after) :: periods_after).
Proof.
  intros Hbefore Hrep. unfold parse_dash_mpd.
  rewrite !collect_app. cbn [collect]. rewrite !collect_app. cbn [collect].
  rewrite !adaptation_urls_first.
  by rewrite !(first_templated_app before _ rep tmpl Hbefore Hrep).
Qed.

Lemma parse_dash_mpd_first_representation_witness :
  parse_dash_mpd String.append "http://cdn/v/manifest.mpd" sample_mpd
  = parse_dash_mpd String.append "http://cdn/v/manifest.mpd"
      [[ [ {| rep_id := Some "v720"; rep_template := Some video_template |} ] ]].
Proof.
  exact (parse_dash_mpd_first_representation String.append "http://cdn/v/manifest.mpd"
           [] [] [] [] []
           [ {| rep_id := Some "v1080"; rep_template := Some video_template |} ] []
           {| rep_id := Some "v720"; rep_template := Some video_template |}
           video_template (List.Forall_nil _) eq_refl).
Defined.

Lemma template_urls_spec (urljoin : string → string → string) (base : string)
    (rep : Representation) (tmpl : SegmentTemplate) (urls : list string) :
  template_urls urljoin base rep tmpl = Some urls →
  length urls = 10 + (if has_initialization tmpl then 1 else 0) ∧
  is_Some (rep_id rep) ∧ is_Some (tmpl_media tmpl) ∧
  is_Some (tmpl_timescale tmpl) ∧ is_Some (tmpl_start_number tmpl) ∧
  is_Some (tmpl_duration tmpl).
Proof.
  unfold template_urls, has_initialization. intros Hurls.
  destruct (tmpl_timescale tmpl) as [ts|]; [|done].
  destruct (tmpl_start_number tmpl) as [start|]; [|done].
  destruct (tmpl_duration tmpl) as [dur|]; [|done].
  cbn [mbind option_bind] in Hurls.
  destruct (tmpl_media tmpl) as [media|];
    [|by destruct (tmpl_initialization tmpl) as [s|];
         [case_bool_decide; [|destruct (rep_id rep)]|]].
  destruct (rep_id rep) as [id|];
    [|by destruct (tmpl_initialization tmpl) as [s|]; [case_bool_decide|]].
  split; [|by repeat split; eexists].
  destruct (tmpl_initialization tmpl) as [s|]; [case_bool_decide|];
    cbn [mbind option_bind negb] in *; injection Hurls as <-; reflexivity.
Qed.

Lemma collect_adaptation_sets (urljoin : string → string → string) (base : string)
    (sets : list (list Representation)) (urls : list string) :
  collect (adaptation_urls urljoin base) sets = Some urls →
  length urls
  = 10 * length (omap first_templated sets)
    + length (filter (λ u, has_initialization u.2) (omap first_templated sets)) ∧
  Forall (λ u, is_Some (rep_id u.1) ∧ is_Some (tmpl_media u.2) ∧
               is_Some (tmpl_timescale u.2) ∧ is_Some (tmpl_start_number u.2) ∧
               is_Some (tmpl_duration u.2))
         (omap first_templated sets).
Proof.
  revert urls. induction sets as [|reps sets IH]; intros urls Hurls.
  { injection Hurls as <-. by split. }
  cbn [collect] in Hurls. rewrite adaptation_urls_first in Hurls.
  cbn [omap list_omap].
  destruct (first_templated reps) as [[rep tmpl]|].
  - destruct (template_urls urljoin base rep tmpl) as [here|] eqn:Hhere; [|done].
    cbn [mbind option_bind] in Hurls.
    destruct (collect (adaptation_urls urljoin base) sets) as [more|]; [|done].
    cbn [mbind option_bind] in Hurls. injection Hurls as <-.
    destruct (IH more eq_refl) as [IHlen IHall].
    destruct (template_urls_spec _ _ _ _ _ Hhere) as [Hlen Hok].
    split; [|by constructor].
    rewrite length_app, Hlen, IHlen, filter_cons.
    assert (length (if decide (has_initialization (rep, tmpl).2)
                    then (rep, tmpl)
                         :: filter (λ u, has_initialization u.2)
                              (omap first_templated sets)
                    else filter (λ u, has_initialization u.2)
                           (omap first_templated sets))
            = (if has_initialization tmpl then 1 else 0)
              + length (filter (λ u : Representation * SegmentTemplate,
                                  has_initialization u.2)
                          (omap first_templated sets))) as ->.
    { cbn [snd]. destruct (has_initialization tmpl); reflexivity. }
    cbn [length]. destruct (has_initialization tmpl); lia.
  - cbn [mbind option_bind] in Hurls.
    destruct (collect (adaptation_urls urljoin base) sets) as [more|]; [|done].
    cbn [mbind option_bind] in Hurls. injection Hurls as <-.
    by apply IH.
Qed.

Lemma parse_dash_mpd_spec (urljoin : string → string → string) (url : string)
    (root : list (list (list Representation))) (urls : list string) :
  parse_dash_mpd urljoin url root = Some urls →
  length urls
  = 10 * length (used_templates root)
    + length (filter (λ u, has_initialization u.2) (used_templates root)) ∧
  Forall (λ u, is_Some (rep_id u.1) ∧ is_Some (tmpl_media u.2) ∧
               is_Some (tmpl_timescale u.2) ∧ is_Some (tmpl_start_number u.2) ∧
               is_Some (tmpl_duration u.2))
         (used_templates root).
Proof.
  unfold parse_dash_mpd, used_templates. revert urls.
  induction root as [|period root IH]; intros urls Hurls.
  { injection Hurls as <-. by split. }
  cbn [collect] in Hurls.
  destruct (collect (adaptation_urls urljoin (mpd_base_url url)) period)
    as [here|] eqn:Hhere; [|done].
  cbn [mbind option_bind] in Hurls.
  destruct (collect (collect (adaptation_urls urljoin (mpd_base_url url))) root)
    as [more|]; [|done].
  cbn [mbind option_bind] in Hurls. injection Hurls as <-.
  destruct (IH more eq_refl) as [IHlen IHall].
  destruct (collect_adaptation_sets _ _ _ _ Hhere) as [Hlen Hall].
  cbn [concat]. rewrite omap_app, filter_app, !length_app. split.
  - rewrite Hlen, IHlen. lia.
  - by apply Forall_app.
Qed.

(** X19. When [parse_dash_mpd] returns, the list has exactly ten media
    URLs for every adaptation set in which some representation has a
    [SegmentTemplate], plus one for each such set whose template has a
    non-empty [initialization]: the count depends neither on the duration
    nor on the time scale of the manifest. *)
Theorem parse_dash_mpd_count (urljoin : string → string → string) (url : string)
    (root : list (list (list Representation))) (urls : list string) :
  parse_dash_mpd urljoin url root = Some urls →
  length urls
  = 10 * length (used_templates root)
    + length (filter (λ u, has_initialization u.2) (used_templates root)).
Proof. intros Hurls. by apply (parse_dash_mpd_spec urljoin url). Qed.

Lemma parse_dash_mpd_count_witness :
  length ((λ i, "http://cdn/v/v720/seg-" +:+ pretty i +:+ ".m4s") <$> seq 1 10)
  = 10 ∧
  length ("http://cdn/v/v720/init.mp4"
          :: ((λ i, "http://cdn/v/v720/seg-" +:+ pretty i +:+ ".m4s") <$> seq 1 10))
  = 10 * length (used_templates sample_mpd)
    + length (filter (λ u, has_initialization u.2) (used_templates sample_mpd)).
Proof.
  split; [reflexivity|].
  exact (parse_dash_mpd_count String.append "http://cdn/v/manifest.mpd" sample_mpd
           _ eq_refl).
Defined.

(** X20. [parse_dash_mpd] returns a list only if every representation it
    uses has an [id], its template has a [media] attribute and the three
    numeric attributes are read by [int]. One used representation that
    lacks any of these makes the whole call raise, whatever the other
    adaptation sets hold. *)
Theorem parse_dash_mpd_needs_attributes (urljoin : string → string → string)
    (url : string) (root : list (list (list Representation)))
    (rep : Representation) (tmpl : SegmentTemplate) :
  (rep, tmpl) ∈ used_templates root →
  rep_id rep = None ∨ tmpl_media tmpl = None ∨ tmpl_timescale tmpl = None ∨
  tmpl_start_number tmpl = None ∨ tmpl_duration tmpl = None →
  parse_dash_mpd urljoin url root = None.
Proof.
  intros Hin Hmissing.
  destruct (parse_dash_mpd urljoin url root) as [urls|] eqn:Hurls; [|done].
  destruct (parse_dash_mpd_spec _ _ _ _ Hurls) as [_ Hall].
  rewrite Forall_forall in Hall.
  destruct (Hall _ Hin) as ([? H1] & [? H2] & [? H3] & [? H4] & [? H5]).
  cbn [fst snd] in *. destruct Hmissing as [H|[H|[H|[H|H]]]]; congruence.
Qed.

Lemma parse_dash_mpd_needs_attributes_witness :
  parse_dash_mpd String.append "http://cdn/v/manifest.mpd"
    [[ [ {| rep_id := Some "v720"; rep_template := Some video_template |} ];
       [ {| rep_id := None; rep_template := Some video_template |} ] ]]
  = None.
Proof.
  apply (parse_dash_mpd_needs_attributes String.append "http://cdn/v/manifest.mpd" _
           {| rep_id := None; rep_template := Some video_template |} video_template).
  - apply elem_of_cons. right. apply elem_of_cons. by left.
  - by left.
Defined.
